(** * plumber: the kustomize renderer, its apply and delete paths

    A shallow embedding of package [plumber] (the [Renderer] with [Apply],
    [Delete], [parse], [typedObject], [unstructuredObject],
    [mutateKustomization], the functional options and [LoadFS]).

    The renderer is glue around three collaborators: the cluster client
    (controller-runtime), the composition engine (kustomize/krusty) and the
    in-memory file system (kustomize/filesys). None of them is part of the
    package; they are the fields of the class [Imports] and of the record
    [client_Client]. The hooks are the caller's closures.

    A Go method call on a collaborator that can change something outside the
    renderer is a step of the monad [M]: it threads the cluster and the
    caller's memory, and emits one [Event] that records the call with its
    arguments and its outcome. The list of events of a run is what an observer
    of the renderer (a fake client, a stamping hook) sees. *)

From Stdlib Require Import Ascii String Lia.
From stdpp Require Import base strings list gmap.

Set Default Proof Using "Type".
Set Warnings "-register-all".
Local Open Scope string_scope.
Local Open Scope list_scope.
Local Open Scope nat_scope.

(** ** Go values *)

Definition bytes := string.

(** A Go [error] value that is not nil: either made by a collaborator or by
    [fmt.Errorf] without a verb [%w] ([errors_New]), or made by
    [fmt.Errorf("<msg>: %w", err)] ([fmt_Errorf msg err]). *)
Inductive error : Type :=
| errors_New (msg : string)
| fmt_Errorf (msg : string) (err : error).

(** The pair [(value, err)] a Go function returns: [Err e] when [err != nil]. *)
Inductive result (A : Type) : Type :=
| Ok (a : A)
| Err (e : error).
Arguments Ok {A} a.
Arguments Err {A} e.

Definition is_Ok {A} (x : result A) : bool :=
  match x with Ok _ => true | Err _ => false end.

(** The [error] half of a result: [None] is Go's nil. *)
Definition err_of {A} (x : result A) : option error :=
  match x with Ok _ => None | Err e => Some e end.

(** The value half of a result. *)
Definition value_of {A} (x : result A) : option A :=
  match x with Ok a => Some a | Err _ => None end.

(** [if err != nil { return fmt.Errorf("<msg>: %w", err) }] on a pure call. *)
Definition orErrorf {A} (msg : string) (x : result A) : result A :=
  match x with Ok a => Ok a | Err e => Err (fmt_Errorf msg e) end.

(** resid.Gvk of kustomize and schema.GroupVersionKind of apimachinery. *)
Record resid_Gvk : Type := { Gvk_Group : string; Gvk_Version : string; Gvk_Kind : string }.
Record schema_GroupVersionKind : Type := { Group : string; Version : string; Kind : string }.

(** The options [Apply] hands to the client. [client.FieldOwner] is both a
    PatchOption and a CreateOption; [client.ForceOwnership] is a PatchOption. *)
Inductive client_Option : Type :=
| client_FieldOwner (owner : string)
| client_ForceOwnership.

Inductive client_Patch : Type :=
| client_Apply.

(** ** The embedded manifest source

    [embed.FS] is a read-only tree of directories and files; it has no
    operation that writes. A directory is what [ReadDir] gives on its path, a
    file what [ReadFile] gives on its path. The value handed to [NewRenderer]
    is the directory ["."]. *)
Inductive embed_FS : Type :=
| ReadDir_Ok (entries : list embed_DirEntry)
| ReadDir_Err (err : error)
with embed_DirEntry : Type :=
| embed_file (Name : string) (ReadFile : result bytes)
| embed_dir (Name : string) (sub : embed_FS).

Definition entry_Name (e : embed_DirEntry) : string :=
  match e with embed_file n _ => n | embed_dir n _ => n end.

(** ** The imported packages *)

Class Imports : Type := {
  (** what lives outside the renderer *)
  Cluster : Type;                (* the API server behind client.Client *)
  Memory : Type;                 (* the caller's variables, which hooks close over *)
  (** the types of the libraries *)
  Object : Type;                 (* client.Object *)
  RuntimeObject : Type;          (* runtime.Object *)
  Resource : Type;               (* resource.Resource *)
  Kustomization : Type;          (* types.Kustomization *)
  FileSystem : Type;             (* filesys.FileSystem *)
  (** k8s.io/apimachinery *)
  errors_IsNotFound : error -> bool;
  json_Unmarshal : bytes -> RuntimeObject -> result RuntimeObject;
  as_client_Object : RuntimeObject -> option Object;   (* runtimeobj.(client.Object) *)
  GroupVersionKind_String : RuntimeObject -> string;
  Decode_Unstructured : bytes -> result Object;        (* dec.Decode(data, nil, obj) *)
  (** sigs.k8s.io/kustomize *)
  rsc_GetGvk : Resource -> resid_Gvk;
  rsc_AsYAML : Resource -> result bytes;
  rsc_MarshalJSON : Resource -> result bytes;
  krusty_Run : FileSystem -> string -> result (list Resource);
  filesys_MakeFsInMemory : FileSystem;
  fs_ReadFile : FileSystem -> string -> result bytes;
  fs_WriteFile : FileSystem -> string -> bytes -> result FileSystem;
  (** gopkg.in/yaml.v2 *)
  yaml_Unmarshal : bytes -> result Kustomization;
  yaml_Marshal : Kustomization -> result bytes;
  (** path *)
  path_Join : string -> string -> string;
}.

Section Plumber.
Context `{Imports}.

(** ** What a run does to the outside *)

(** The calls of the renderer that an observer sees, each with its arguments
    and the error it returned ([None] is nil). The number of a hook call is
    the position of the hook in the list it was registered in. *)
Inductive Event : Type :=
| CallFSMutator (i : nat) (fs : FileSystem) (err : option error)
| CallKustomizeMutator (i : nat) (kust : Kustomization) (err : option error)
| CallKustomizer (fs : FileSystem) (dir : string) (err : option error)
| CallObjectMutator (i : nat) (obj : Object) (err : option error)
| CallPatch (obj : Object) (patch : client_Patch) (opts : list client_Option) (err : option error)
| CallCreate (obj : Object) (opts : list client_Option) (err : option error)
| CallDelete (obj : Object) (err : option error)
| CallPostApplyAction (i : nat) (obj : Object) (err : option error).

Record State : Type := mkState { cluster : Cluster; memory : Memory }.

Record Outcome (A : Type) : Type := mkOutcome {
  returned : result A;
  final : State;
  events : list Event;
}.
#[global] Arguments mkOutcome {A} _ _ _.
#[global] Arguments returned {A} _.
#[global] Arguments final {A} _.
#[global] Arguments events {A} _.

(** State, early return on error, and the events emitted so far. *)
Definition M (A : Type) : Type := State -> Outcome A.

Definition ret {A} (a : A) : M A := fun s => mkOutcome (Ok a) s [].

Definition bind {A B} (m : M A) (k : A -> M B) : M B := fun s =>
  let o := m s in
  match returned o with
  | Err e => mkOutcome (Err e) (final o) (events o)
  | Ok a => let o' := k a (final o) in
            mkOutcome (returned o') (final o') (events o ++ events o')
  end.

(** A pure library call inside the pipeline. *)
Definition lift {A} (x : result A) : M A := fun s => mkOutcome x s [].

(** [return fmt.Errorf(...)] *)
Definition raise {A} (e : error) : M A := lift (Err e).

(** [if err != nil { return fmt.Errorf("<msg>: %w", err) }] *)
Definition wrapf {A} (msg : string) (m : M A) : M A := fun s =>
  let o := m s in mkOutcome (orErrorf msg (returned o)) (final o) (events o).

(** [err := f(); if err != nil { ... }]: the error is looked at, not returned. *)
Definition attempt {A} (m : M A) : M (result A) := fun s =>
  let o := m s in mkOutcome (Ok (returned o)) (final o) (events o).

Notation "'let*' x ':=' m 'in' k" := (bind m (fun x => k))
  (at level 10, x name, m at level 100, k at level 200).

(** The same early return for calls that touch nothing outside. *)
Definition rbind {A B} (x : result A) (k : A -> result B) : result B :=
  match x with Ok a => k a | Err e => Err e end.

Notation "'let?' x ':=' m 'in' k" := (rbind m (fun x => k))
  (at level 10, x name, m at level 100, k at level 200).

(** ** Hooks and the client *)

(** A Go hook [func(context.Context, T) error] changes the [T] it is handed in
    place and may read and write what its closure captured. On a non-nil error
    the renderer drops the value. *)
Definition Hook (A : Type) : Type := A -> Memory -> result A * Memory.

Definition KustomizeMutator : Type := Hook Kustomization.
Definition ObjectMutator : Type := Hook Object.
Definition PostApplyAction : Type := Hook Object.
Definition FSMutator : Type := Hook FileSystem.

(** The methods of client.Client the renderer calls. [Patch] and [Create]
    write the server's answer into the object they are handed; on an error
    the object is left as it was. *)
Record client_Client : Type := {
  cli_Patch : Object -> client_Patch -> list client_Option -> Cluster -> result Object * Cluster;
  cli_Create : Object -> list client_Option -> Cluster -> result Object * Cluster;
  cli_Delete : Object -> Cluster -> result unit * Cluster;
  cli_Scheme_New : schema_GroupVersionKind -> result RuntimeObject;
}.

Definition callHook {A} (mk : nat -> A -> option error -> Event)
    (i : nat) (hook : Hook A) (x : A) : M A := fun s =>
  let '(r, m) := hook x (memory s) in
  mkOutcome r (mkState (cluster s) m) [mk i x (err_of r)].

Definition callPatch (c : client_Client) (obj : Object) (patch : client_Patch)
    (opts : list client_Option) : M Object := fun s =>
  let '(r, cl) := cli_Patch c obj patch opts (cluster s) in
  mkOutcome r (mkState cl (memory s)) [CallPatch obj patch opts (err_of r)].

Definition callCreate (c : client_Client) (obj : Object)
    (opts : list client_Option) : M Object := fun s =>
  let '(r, cl) := cli_Create c obj opts (cluster s) in
  mkOutcome r (mkState cl (memory s)) [CallCreate obj opts (err_of r)].

Definition callDelete (c : client_Client) (obj : Object) : M unit := fun s =>
  let '(r, cl) := cli_Delete c obj (cluster s) in
  mkOutcome r (mkState cl (memory s)) [CallDelete obj (err_of r)].

Definition callKustomizer (fs : FileSystem) (dir : string) : M (list Resource) := fun s =>
  let r := krusty_Run fs dir in
  mkOutcome r s [CallKustomizer fs dir (err_of r)].

(** [for _, mut := range hooks { if err := mut(ctx, x); err != nil { return
    fmt.Errorf("<msg>: %w", err) } }], the hooks numbered from [i]. *)
Fixpoint rangeHooks {A} (mk : nat -> A -> option error -> Event) (msg : string)
    (i : nat) (hooks : list (Hook A)) (x : A) : M A :=
  match hooks with
  | [] => ret x
  | mut :: rest =>
      let* x' := wrapf msg (callHook mk i mut x) in
      rangeHooks mk msg (S i) rest x'
  end.

(** ** The renderer *)

Definition BaseKustomizationPath : string := "/kustomize/base/kustomization.yaml".

Record Renderer : Type := {
  cli : client_Client;
  from : embed_FS;
  fieldOwner : string;
  forceOwner : bool;
  unstructured : bool;
  kmutators : list KustomizeMutator;
  omutators : list ObjectMutator;
  postApply : list PostApplyAction;
  fsmutators : list FSMutator;
}.

(** *** options.go *)

Definition Option : Type := Renderer -> Renderer.

Definition WithFieldOwner (owner : string) : Option := fun r =>
  {| cli := cli r; from := from r; fieldOwner := owner; forceOwner := forceOwner r;
     unstructured := unstructured r; kmutators := kmutators r; omutators := omutators r;
     postApply := postApply r; fsmutators := fsmutators r |}.

Definition WithForceOwnership : Option := fun r =>
  {| cli := cli r; from := from r; fieldOwner := fieldOwner r; forceOwner := true;
     unstructured := unstructured r; kmutators := kmutators r; omutators := omutators r;
     postApply := postApply r; fsmutators := fsmutators r |}.

Definition WithKustomizeMutator (mutator : KustomizeMutator) : Option := fun r =>
  {| cli := cli r; from := from r; fieldOwner := fieldOwner r; forceOwner := forceOwner r;
     unstructured := unstructured r; kmutators := kmutators r ++ [mutator];
     omutators := omutators r; postApply := postApply r; fsmutators := fsmutators r |}.

Definition WithObjectMutator (mutator : ObjectMutator) : Option := fun r =>
  {| cli := cli r; from := from r; fieldOwner := fieldOwner r; forceOwner := forceOwner r;
     unstructured := unstructured r; kmutators := kmutators r;
     omutators := omutators r ++ [mutator]; postApply := postApply r;
     fsmutators := fsmutators r |}.

Definition WithUnstructured : Option := fun r =>
  {| cli := cli r; from := from r; fieldOwner := fieldOwner r; forceOwner := forceOwner r;
     unstructured := true; kmutators := kmutators r; omutators := omutators r;
     postApply := postApply r; fsmutators := fsmutators r |}.

Definition WithPostApplyAction (action : PostApplyAction) : Option := fun r =>
  {| cli := cli r; from := from r; fieldOwner := fieldOwner r; forceOwner := forceOwner r;
     unstructured := unstructured r; kmutators := kmutators r; omutators := omutators r;
     postApply := postApply r ++ [action]; fsmutators := fsmutators r |}.

Definition WithFSMutator (mutator : FSMutator) : Option := fun r =>
  {| cli := cli r; from := from r; fieldOwner := fieldOwner r; forceOwner := forceOwner r;
     unstructured := unstructured r; kmutators := kmutators r; omutators := omutators r;
     postApply := postApply r; fsmutators := fsmutators r ++ [mutator] |}.

(** The options of the package. *)
Inductive package_option : Option -> Prop :=
| option_WithFieldOwner owner : package_option (WithFieldOwner owner)
| option_WithForceOwnership : package_option WithForceOwnership
| option_WithKustomizeMutator mutator : package_option (WithKustomizeMutator mutator)
| option_WithObjectMutator mutator : package_option (WithObjectMutator mutator)
| option_WithUnstructured : package_option WithUnstructured
| option_WithPostApplyAction action : package_option (WithPostApplyAction action)
| option_WithFSMutator mutator : package_option (WithFSMutator mutator).

(** *** NewRenderer *)

Definition NewRenderer (c : client_Client) (emb : embed_FS) (opts : list Option) : Renderer :=
  let ctrl := {| cli := c; from := emb; fieldOwner := "plumber"; forceOwner := false;
                 unstructured := false; kmutators := []; omutators := [];
                 postApply := []; fsmutators := [] |} in
  fold_left (fun ctrl opt => opt ctrl) opts ctrl.

(** *** LoadFS and readdir

    [readdir dir from to]: [from] is the embedded tree at [dir], so the match
    on it is the Go [from.ReadDir(dir)], and the match on a file entry the Go
    [from.ReadFile(path)]. *)
Fixpoint readdir (dir : string) (from : embed_FS) (to : FileSystem) : result FileSystem :=
  match from with
  | ReadDir_Err err => Err (fmt_Errorf "error reading dir" err)
  | ReadDir_Ok entries =>
      (fix range (entries : list embed_DirEntry) (to : FileSystem) : result FileSystem :=
         match entries with
         | [] => Ok to
         | entry :: rest =>
             let path := path_Join dir (entry_Name entry) in
             match entry with
             | embed_dir _ sub =>
                 let? to := readdir path sub to in
                 range rest to
             | embed_file _ read =>
                 let? fcontent := orErrorf "error reading file" read in
                 let? to := orErrorf "error writing file" (fs_WriteFile to path fcontent) in
                 range rest to
             end
         end) entries to
  end.

Definition LoadFS (content : embed_FS) : result FileSystem :=
  let fs := filesys_MakeFsInMemory in
  orErrorf "error loading embed files" (readdir "." content fs).

(** *** mutateKustomization *)

Definition mutateKustomization (r : Renderer) (fs : FileSystem) : M FileSystem :=
  if length (kmutators r) =? 0 then ret fs else
  let* olddt := lift (orErrorf "error reading base kustomization"
                        (fs_ReadFile fs BaseKustomizationPath)) in
  let* kust := lift (orErrorf "error parsing base kustomization" (yaml_Unmarshal olddt)) in
  let* kust := rangeHooks CallKustomizeMutator "error mutating kustomization" 0
                 (kmutators r) kust in
  let* newdt := lift (orErrorf "error marshaling base kustomization" (yaml_Marshal kust)) in
  lift (orErrorf "error writing base kustomization"
          (fs_WriteFile fs BaseKustomizationPath newdt)).

(** *** unstructuredObject and typedObject *)

Definition unstructuredObject (r : Renderer) (rsc : Resource) : result Object :=
  let? data := orErrorf "error converting resource to yaml" (rsc_AsYAML rsc) in
  orErrorf "error decoding unstructured object" (Decode_Unstructured data).

Definition typedObject (r : Renderer) (rsc : Resource) : result Object :=
  let? runtimeobj := orErrorf "unable to instantiate runtime object"
                       (cli_Scheme_New (cli r)
                          {| Group := Gvk_Group (rsc_GetGvk rsc);
                             Version := Gvk_Version (rsc_GetGvk rsc);
                             Kind := Gvk_Kind (rsc_GetGvk rsc) |}) in
  let? rawjson := orErrorf "error marshaling resource" (rsc_MarshalJSON rsc) in
  let? runtimeobj := orErrorf "error unmarshaling into object"
                       (json_Unmarshal rawjson runtimeobj) in
  match as_client_Object runtimeobj with
  | None =>
      let gvkstr := GroupVersionKind_String runtimeobj in
      Err (errors_New (gvkstr +:+ " is not client.Object"))
  | Some clientobj => Ok clientobj
  end.

(** *** parse *)

(** What the loop of [parse] does with one resource. *)
Definition parse_resource (r : Renderer) (rsc : Resource) : result Object :=
  if unstructured r then
    orErrorf "error converting type to unstructure" (unstructuredObject r rsc)
  else typedObject r rsc.

(** The type of [rsc] cannot be resolved: the scheme of the client has no
    constructor for its group, version and kind, or what it constructs and
    decodes is not a client.Object. *)
Definition unresolvable (r : Renderer) (rsc : Resource) : Prop :=
  let gvk := {| Group := Gvk_Group (rsc_GetGvk rsc);
                Version := Gvk_Version (rsc_GetGvk rsc);
                Kind := Gvk_Kind (rsc_GetGvk rsc) |} in
  (exists e, cli_Scheme_New (cli r) gvk = Err e) \/
  (exists runtimeobj rawjson runtimeobj',
     cli_Scheme_New (cli r) gvk = Ok runtimeobj /\
     rsc_MarshalJSON rsc = Ok rawjson /\
     json_Unmarshal rawjson runtimeobj = Ok runtimeobj' /\
     as_client_Object runtimeobj' = None).

(** [for _, rsc := range res.Resources() { ... objs = append(objs, clientobj) }] *)
Fixpoint parse_resources (r : Renderer) (resources : list Resource)
    (objs : list Object) : result (list Object) :=
  match resources with
  | [] => Ok objs
  | rsc :: rest =>
      if unstructured r then
        let? clientobj := orErrorf "error converting type to unstructure"
                            (unstructuredObject r rsc) in
        parse_resources r rest (objs ++ [clientobj])
      else
        let? clientobj := typedObject r rsc in
        parse_resources r rest (objs ++ [clientobj])
  end.

Definition parse (r : Renderer) (overlay : string) : M (list Object) :=
  let* virtfs := lift (orErrorf "unable to load overlay" (LoadFS (from r))) in
  let* virtfs := rangeHooks CallFSMutator "error mutating filesystem" 0
                   (fsmutators r) virtfs in
  let* virtfs := wrapf "error setting object name prefix" (mutateKustomization r virtfs) in
  let* res := wrapf "error running kustomize"
                (callKustomizer virtfs (path_Join "kustomize" overlay)) in
  lift (parse_resources r res []).

(** *** Apply and Delete *)

(** [for _, obj := range objs { body }] *)
Fixpoint range {A} (body : A -> M unit) (objs : list A) : M unit :=
  match objs with
  | [] => ret tt
  | obj :: rest => let* _ := body obj in range body rest
  end.

(** The patch and its fallback, lines 105 to 122 of [Apply]. *)
Definition Apply_submit (r : Renderer) (obj : Object) : M Object :=
  let opts := [client_FieldOwner (fieldOwner r)] in
  let opts := if forceOwner r then opts ++ [client_ForceOwnership] else opts in
  let* err := attempt (callPatch (cli r) obj client_Apply opts) in
  match err with
  | Ok obj => ret obj
  | Err err =>
      if negb (errors_IsNotFound err) then
        raise (fmt_Errorf "error patching object" err)
      else
        wrapf "error creating object" (callCreate (cli r) obj [])
  end.

(** The body of the loop of [Apply]. *)
Definition Apply_object (r : Renderer) (obj : Object) : M unit :=
  let* obj := rangeHooks CallObjectMutator "error mutating object" 0 (omutators r) obj in
  let* obj := Apply_submit r obj in
  let* _ := rangeHooks CallPostApplyAction "error running post apply action" 0
              (postApply r) obj in
  ret tt.

Definition Apply (r : Renderer) (overlay : string) : M unit :=
  let* objs := wrapf "error parsing kustomize files" (parse r overlay) in
  range (Apply_object r) objs.

(** The body of the loop of [Delete]. *)
Definition Delete_object (r : Renderer) (obj : Object) : M unit :=
  let* obj := rangeHooks CallObjectMutator "error mutating object" 0 (omutators r) obj in
  let* err := attempt (callDelete (cli r) obj) in
  match err with
  | Ok _ => ret tt
  | Err err =>
      if errors_IsNotFound err then ret tt
      else raise (fmt_Errorf "error deleting object" err)
  end.

Definition Delete (r : Renderer) (overlay : string) : M unit :=
  let* objs := wrapf "error parsing kustomize files" (parse r overlay) in
  range (Delete_object r) objs.

(** ** Reading a list of events *)

(** A call that reaches the API server. *)
Definition is_cluster_call (ev : Event) : bool :=
  match ev with
  | CallPatch _ _ _ _ | CallCreate _ _ _ | CallDelete _ _ => true
  | _ => false
  end.

(** Events without a call to the API server. *)
Definition quiet (evs : list Event) : Prop :=
  Forall (fun ev => is_cluster_call ev = false) evs.

Definition is_patch (ev : Event) : bool :=
  match ev with CallPatch _ _ _ _ => true | _ => false end.

Definition is_post_apply (ev : Event) : bool :=
  match ev with CallPostApplyAction _ _ _ => true | _ => false end.

(** What was called, without the arguments. *)
Inductive Tag : Type :=
| TFSMutator (i : nat)
| TKustomizeMutator (i : nat)
| TKustomizer
| TObjectMutator (i : nat)
| TPatch
| TCreate
| TDelete
| TPostApplyAction (i : nat).

Definition tag (ev : Event) : Tag :=
  match ev with
  | CallFSMutator i _ _ => TFSMutator i
  | CallKustomizeMutator i _ _ => TKustomizeMutator i
  | CallKustomizer _ _ _ => TKustomizer
  | CallObjectMutator i _ _ => TObjectMutator i
  | CallPatch _ _ _ _ => TPatch
  | CallCreate _ _ _ => TCreate
  | CallDelete _ _ => TDelete
  | CallPostApplyAction i _ _ => TPostApplyAction i
  end.

(** The options of every patch of a renderer. *)
Definition patchOptions (r : Renderer) : list client_Option :=
  client_FieldOwner (fieldOwner r) :: (if forceOwner r then [client_ForceOwnership] else []).

(** *** The runs of the loops, as lists of events

    [hooks_run mk msg n i x evs res]: a hook loop over hooks [i], ..., [n-1]
    started on [x] made the calls [evs] and returned [res]. *)
Inductive hooks_run {A} (mk : nat -> A -> option error -> Event) (msg : string) (n : nat)
    : nat -> A -> list Event -> result A -> Prop :=
| hooks_done x : hooks_run mk msg n n x [] (Ok x)
| hooks_next i x x' evs res :
    i < n -> hooks_run mk msg n (S i) x' evs res ->
    hooks_run mk msg n i x (mk i x None :: evs) res
| hooks_failed i x e :
    i < n -> hooks_run mk msg n i x [mk i x (Some e)] (Err (fmt_Errorf msg e)).

(** The patch of [obj] and its fallback. *)
Inductive submit_run (r : Renderer) (obj : Object) : list Event -> result Object -> Prop :=
| submit_patched obj' :
    submit_run r obj [CallPatch obj client_Apply (patchOptions r) None] (Ok obj')
| submit_patch_failed e :
    errors_IsNotFound e = false ->
    submit_run r obj [CallPatch obj client_Apply (patchOptions r) (Some e)]
      (Err (fmt_Errorf "error patching object" e))
| submit_created e obj' :
    errors_IsNotFound e = true ->
    submit_run r obj [CallPatch obj client_Apply (patchOptions r) (Some e);
                      CallCreate obj [] None] (Ok obj')
| submit_create_failed e e' :
    errors_IsNotFound e = true ->
    submit_run r obj [CallPatch obj client_Apply (patchOptions r) (Some e);
                      CallCreate obj [] (Some e')]
      (Err (fmt_Errorf "error creating object" e')).

(** One turn of the loop of [Apply]: object mutators, submission, post-apply
    actions; the first stage that fails ends it. *)
Inductive object_run (r : Renderer) (obj : Object) : list Event -> result unit -> Prop :=
| object_mutator_failed evs e :
    hooks_run CallObjectMutator "error mutating object" (length (omutators r)) 0 obj evs (Err e) ->
    object_run r obj evs (Err e)
| object_submit_failed evs1 obj1 evs2 e :
    hooks_run CallObjectMutator "error mutating object" (length (omutators r)) 0 obj evs1 (Ok obj1) ->
    submit_run r obj1 evs2 (Err e) ->
    object_run r obj (evs1 ++ evs2) (Err e)
| object_submitted evs1 obj1 evs2 obj2 evs3 res :
    hooks_run CallObjectMutator "error mutating object" (length (omutators r)) 0 obj evs1 (Ok obj1) ->
    submit_run r obj1 evs2 (Ok obj2) ->
    hooks_run CallPostApplyAction "error running post apply action" (length (postApply r)) 0
      obj2 evs3 res ->
    object_run r obj (evs1 ++ evs2 ++ evs3) (match res with Ok _ => Ok tt | Err e => Err e end).

(** One turn of the loop of [Delete]. *)
Inductive delete_run (r : Renderer) (obj : Object) : list Event -> result unit -> Prop :=
| delete_mutator_failed evs e :
    hooks_run CallObjectMutator "error mutating object" (length (omutators r)) 0 obj evs (Err e) ->
    delete_run r obj evs (Err e)
| delete_deleted evs obj1 :
    hooks_run CallObjectMutator "error mutating object" (length (omutators r)) 0 obj evs (Ok obj1) ->
    delete_run r obj (evs ++ [CallDelete obj1 None]) (Ok tt)
| delete_absent evs obj1 e :
    hooks_run CallObjectMutator "error mutating object" (length (omutators r)) 0 obj evs (Ok obj1) ->
    errors_IsNotFound e = true ->
    delete_run r obj (evs ++ [CallDelete obj1 (Some e)]) (Ok tt)
| delete_failed evs obj1 e :
    hooks_run CallObjectMutator "error mutating object" (length (omutators r)) 0 obj evs (Ok obj1) ->
    errors_IsNotFound e = false ->
    delete_run r obj (evs ++ [CallDelete obj1 (Some e)])
      (Err (fmt_Errorf "error deleting object" e)).

(** A run of [mutateKustomization] on the tree [fs]. *)
Inductive kust_run (r : Renderer) (fs : FileSystem) : list Event -> result FileSystem -> Prop :=
| kust_skipped :
    kmutators r = [] -> kust_run r fs [] (Ok fs)
| kust_read_failed e :
    kmutators r <> [] ->
    fs_ReadFile fs BaseKustomizationPath = Err e ->
    kust_run r fs [] (Err (fmt_Errorf "error reading base kustomization" e))
| kust_parse_failed olddt e :
    kmutators r <> [] ->
    fs_ReadFile fs BaseKustomizationPath = Ok olddt ->
    yaml_Unmarshal olddt = Err e ->
    kust_run r fs [] (Err (fmt_Errorf "error parsing base kustomization" e))
| kust_mutator_failed olddt kust evs e :
    kmutators r <> [] ->
    fs_ReadFile fs BaseKustomizationPath = Ok olddt ->
    yaml_Unmarshal olddt = Ok kust ->
    hooks_run CallKustomizeMutator "error mutating kustomization" (length (kmutators r))
      0 kust evs (Err e) ->
    kust_run r fs evs (Err e)
| kust_mutated olddt kust evs kust' :
    kmutators r <> [] ->
    fs_ReadFile fs BaseKustomizationPath = Ok olddt ->
    yaml_Unmarshal olddt = Ok kust ->
    hooks_run CallKustomizeMutator "error mutating kustomization" (length (kmutators r))
      0 kust evs (Ok kust') ->
    kust_run r fs evs
      (match yaml_Marshal kust' with
       | Err e => Err (fmt_Errorf "error marshaling base kustomization" e)
       | Ok newdt => orErrorf "error writing base kustomization"
                       (fs_WriteFile fs BaseKustomizationPath newdt)
       end).



(** A run of [parse]. *)
Inductive parse_run (r : Renderer) (overlay : string)
    : list Event -> result (list Object) -> Prop :=
| parse_load_failed e :
    LoadFS (from r) = Err e ->
    parse_run r overlay [] (Err (fmt_Errorf "unable to load overlay" e))
| parse_fsmutator_failed fs0 evs e :
    LoadFS (from r) = Ok fs0 ->
    hooks_run CallFSMutator "error mutating filesystem" (length (fsmutators r))
      0 fs0 evs (Err e) ->
    parse_run r overlay evs (Err e)
| parse_kustomization_failed fs0 evs1 fs1 evs2 e :
    LoadFS (from r) = Ok fs0 ->
    hooks_run CallFSMutator "error mutating filesystem" (length (fsmutators r))
      0 fs0 evs1 (Ok fs1) ->
    kust_run r fs1 evs2 (Err e) ->
    parse_run r overlay (evs1 ++ evs2)
      (Err (fmt_Errorf "error setting object name prefix" e))
| parse_composed fs0 evs1 fs1 evs2 fs2 :
    LoadFS (from r) = Ok fs0 ->
    hooks_run CallFSMutator "error mutating filesystem" (length (fsmutators r))
      0 fs0 evs1 (Ok fs1) ->
    kust_run r fs1 evs2 (Ok fs2) ->
    let dir := path_Join "kustomize" overlay in
    parse_run r overlay
      (evs1 ++ evs2 ++ [CallKustomizer fs2 dir (err_of (krusty_Run fs2 dir))])
      (match krusty_Run fs2 dir with
       | Err e => Err (fmt_Errorf "error running kustomize" e)
       | Ok res => parse_resources r res []
       end).

(** The submissions in the events [evs] of a run that returned [res]: every
    patch is a server-side apply with the renderer's options; after a patch
    that returned nil the run goes on; after a patch that reported "not found"
    comes a create of the same object without options; a patch that failed
    otherwise, or a create that failed, is the last event and its error is
    what the run returns. A create stands nowhere else. *)
Inductive submissions (r : Renderer) : list Event -> result unit -> Prop :=
| submissions_nil res : submissions r [] res
| submissions_other ev evs res :
    is_cluster_call ev = false -> submissions r evs res -> submissions r (ev :: evs) res
| submissions_patched obj evs res :
    submissions r evs res ->
    submissions r (CallPatch obj client_Apply (patchOptions r) None :: evs) res
| submissions_created obj e evs res :
    errors_IsNotFound e = true ->
    submissions r evs res ->
    submissions r (CallPatch obj client_Apply (patchOptions r) (Some e)
                   :: CallCreate obj [] None :: evs) res
| submissions_create_failed obj e e' :
    errors_IsNotFound e = true ->
    submissions r [CallPatch obj client_Apply (patchOptions r) (Some e);
                   CallCreate obj [] (Some e')]
      (Err (fmt_Errorf "error creating object" e'))
| submissions_patch_failed obj e :
    errors_IsNotFound e = false ->
    submissions r [CallPatch obj client_Apply (patchOptions r) (Some e)]
      (Err (fmt_Errorf "error patching object" e)).

(** The events of the loop of [Delete] when it returned [res]: calls of object
    mutators and delete requests only; the loop goes on after a delete that
    returned nil or reported "not found"; a mutator that failed, or a delete
    that failed otherwise, is the last event and its error is what the loop
    returns; a loop that ends otherwise returns nil. *)
Inductive deletions : list Event -> result unit -> Prop :=
| deletions_done : deletions [] (Ok tt)
| deletions_mutated i obj evs res :
    deletions evs res -> deletions (CallObjectMutator i obj None :: evs) res
| deletions_mutator_failed i obj e :
    deletions [CallObjectMutator i obj (Some e)] (Err (fmt_Errorf "error mutating object" e))
| deletions_deleted obj evs res :
    deletions evs res -> deletions (CallDelete obj None :: evs) res
| deletions_absent obj e evs res :
    errors_IsNotFound e = true ->
    deletions evs res -> deletions (CallDelete obj (Some e) :: evs) res
| deletions_failed obj e :
    errors_IsNotFound e = false ->
    deletions [CallDelete obj (Some e)] (Err (fmt_Errorf "error deleting object" e)).

(** A loop over [objs] whose turns run as [turn] says. *)
Inductive range_run {A} (turn : A -> list Event -> result unit -> Prop)
    : list A -> list Event -> result unit -> Prop :=
| range_done : range_run turn [] [] (Ok tt)
| range_stopped obj rest evs e :
    turn obj evs (Err e) -> range_run turn (obj :: rest) evs (Err e)
| range_continued obj rest evs evs' res :
    turn obj evs (Ok tt) -> range_run turn rest evs' res ->
    range_run turn (obj :: rest) (evs ++ evs') res.

(** *** A hook that fails on the second of three objects *)

(** The last call of a turn was a per-object hook that returned an error. *)
Definition hook_failed (evs : list Event) : Prop :=
  exists i obj e, last evs = Some (CallObjectMutator i obj (Some e)) \/
                  last evs = Some (CallPostApplyAction i obj (Some e)).

(** Whatever per-object hook fails on the second of three objects, [Apply]
    returns an error and has patched once. *)
Definition fail_fast_on_second : Prop :=
  forall (r : Renderer) (overlay : string) (s : State) (o1 o2 o3 : Object),
    returned (parse r overlay s) = Ok [o1; o2; o3] ->
    returned (Apply_object r o1 (final (parse r overlay s))) = Ok tt ->
    hook_failed (events (Apply_object r o2
                   (final (Apply_object r o1 (final (parse r overlay s)))))) ->
    (exists e, returned (Apply r overlay s) = Err e) /\
    length (List.filter is_patch (events (Apply r overlay s))) = 1.

(** *** The order of the calls *)

(** The calls [ts] of a run against the calls [shape] of a run in which
    nothing fails: a run that fails stops inside the shape, a run that
    returns nil has gone through all of it. *)
Definition fits (ok : bool) (ts shape : list Tag) : Prop :=
  ts `prefix_of` shape /\ (ok = true -> ts = shape).

(** One turn of the loop of [Apply]: the object mutators in the order of
    their registration, the patch, the create when the patch did not find
    the object, the post-apply actions in the order of their registration. *)
Definition object_shape (r : Renderer) (created : bool) : list Tag :=
  (TObjectMutator <$> seq 0 (length (omutators r))) ++
  [TPatch] ++ (if created then [TCreate] else []) ++
  (TPostApplyAction <$> seq 0 (length (postApply r))).

(** [parse]: the filesystem hooks, the descriptor hooks, the composition. *)
Definition parse_shape (r : Renderer) : list Tag :=
  (TFSMutator <$> seq 0 (length (fsmutators r))) ++
  (TKustomizeMutator <$> seq 0 (length (kmutators r))) ++
  [TKustomizer].

(** [Apply]: [parse], then one turn for each object. *)
Definition Apply_shape (r : Renderer) (created : list bool) : list Tag :=
  parse_shape r ++ flat_map (object_shape r) created.



(** What the first call of a render is handed, when the source loads as
    [fs0]: the first filesystem hook gets [fs0]; without filesystem hooks the
    first descriptor hook gets the descriptor of [fs0]; without any of these
    hooks the composition gets [fs0]. *)
Definition starts_from (r : Renderer) (fs0 : FileSystem) (ev : Event) : Prop :=
  match ev with
  | CallFSMutator i fs _ => i = 0 /\ fs = fs0
  | CallKustomizeMutator i kust _ =>
      i = 0 /\ fsmutators r = [] /\
      exists olddt, fs_ReadFile fs0 BaseKustomizationPath = Ok olddt /\
                    yaml_Unmarshal olddt = Ok kust
  | CallKustomizer fs _ _ => fsmutators r = [] /\ kmutators r = [] /\ fs = fs0
  | _ => False
  end.

(** The object a turn of the loop starts on: the one handed to the first
    object mutator or, when there is none, to the patch. *)
Definition entry (r : Renderer) (ev : Event) : option Object :=
  match ev with
  | CallObjectMutator 0 obj _ => Some obj
  | CallPatch obj _ _ _ => if length (omutators r) =? 0 then Some obj else None
  | _ => None
  end.

Definition entries (r : Renderer) (evs : list Event) : list Object := omap (entry r) evs.

(** The error a call returned. *)
Definition event_err (ev : Event) : option error :=
  match ev with
  | CallFSMutator _ _ e | CallKustomizeMutator _ _ e | CallKustomizer _ _ e
  | CallObjectMutator _ _ e | CallPatch _ _ _ e | CallCreate _ _ e
  | CallDelete _ e | CallPostApplyAction _ _ e => e
  end.

End Plumber.

(** ** More of the package: what LoadFS copies *)

Section Source.
Context `{Imports}.

(** No [ReadDir] and no [ReadFile] on the embedded tree fails. *)
Fixpoint readable (from : embed_FS) : bool :=
  match from with
  | ReadDir_Err _ => false
  | ReadDir_Ok entries =>
      (fix all (entries : list embed_DirEntry) : bool :=
         match entries with
         | [] => true
         | embed_dir _ sub :: rest => readable sub && all rest
         | embed_file _ read :: rest => is_Ok read && all rest
         end) entries
  end.

(** The files of the embedded tree at [dir], each with its path, in the
    order of the listings, a directory standing for the files below it. *)
Fixpoint embed_files (dir : string) (from : embed_FS) : list (string * bytes) :=
  match from with
  | ReadDir_Err _ => []
  | ReadDir_Ok entries =>
      (fix files (entries : list embed_DirEntry) : list (string * bytes) :=
         match entries with
         | [] => []
         | entry :: rest =>
             let path := path_Join dir (entry_Name entry) in
             match entry with
             | embed_dir _ sub => embed_files path sub ++ files rest
             | embed_file _ (Ok fcontent) => (path, fcontent) :: files rest
             | embed_file _ (Err _) => files rest
             end
         end) entries
  end.

(** Writing files one after the other, stopping at the first failure. *)
Fixpoint write_files (files : list (string * bytes)) (to : FileSystem) : result FileSystem :=
  match files with
  | [] => Ok to
  | (path, fcontent) :: rest =>
      match orErrorf "error writing file" (fs_WriteFile to path fcontent) with
      | Ok to => write_files rest to
      | Err e => Err e
      end
  end.

(** The three things that can go wrong while the source is copied. *)
Definition copy_error (e : error) : Prop :=
  exists cause, e = fmt_Errorf "error reading dir" cause \/
                e = fmt_Errorf "error reading file" cause \/
                e = fmt_Errorf "error writing file" cause.

(** The errors of [mutateKustomization]. *)
Definition kustomization_error (e : error) : Prop :=
  exists cause, e = fmt_Errorf "error reading base kustomization" cause \/
                e = fmt_Errorf "error parsing base kustomization" cause \/
                e = fmt_Errorf "error mutating kustomization" cause \/
                e = fmt_Errorf "error marshaling base kustomization" cause \/
                e = fmt_Errorf "error writing base kustomization" cause.

(** The errors of the conversion of a resource: those of [unstructuredObject]
    come wrapped once more by [parse], those of [typedObject] as they are. *)
Definition conversion_error (r : Renderer) (e : error) : Prop :=
  if unstructured r then
    exists cause,
      e = fmt_Errorf "error converting type to unstructure"
            (fmt_Errorf "error converting resource to yaml" cause) \/
      e = fmt_Errorf "error converting type to unstructure"
            (fmt_Errorf "error decoding unstructured object" cause)
  else
    (exists cause, e = fmt_Errorf "unable to instantiate runtime object" cause \/
                   e = fmt_Errorf "error marshaling resource" cause \/
                   e = fmt_Errorf "error unmarshaling into object" cause) \/
    (exists gvkstr, e = errors_New (gvkstr +:+ " is not client.Object")).

Definition is_create (ev : Event) : bool :=
  match ev with CallCreate _ _ _ => true | _ => false end.

Definition is_delete (ev : Event) : bool :=
  match ev with CallDelete _ _ => true | _ => false end.

(** *** Which hook a numbered call is

    What the call [ev] returns and what it leaves in the caller's memory
    [m], when the hook call number [i] of a kind is the call of the hook
    registered at position [i] among the hooks of that kind, on the value
    the event records. A call to the client or to the engine leaves the
    memory alone. *)
Definition hook_step (r : Renderer) (ev : Event) (m : Memory)
    : option (option error * Memory) :=
  match ev with
  | CallFSMutator i fs _ =>
      (fun mut : FSMutator => (err_of (mut fs m).1, (mut fs m).2)) <$> fsmutators r !! i
  | CallKustomizeMutator i kust _ =>
      (fun mut : KustomizeMutator => (err_of (mut kust m).1, (mut kust m).2))
        <$> kmutators r !! i
  | CallObjectMutator i obj _ =>
      (fun mut : ObjectMutator => (err_of (mut obj m).1, (mut obj m).2)) <$> omutators r !! i
  | CallPostApplyAction i obj _ =>
      (fun action : PostApplyAction => (err_of (action obj m).1, (action obj m).2))
        <$> postApply r !! i
  | _ => Some (event_err ev, m)
  end.

(** The events [evs] took the memory from [m] to [m']: every hook call in
    them returned what the registered hook of its number returns in the
    memory the calls before it left, and left what that hook leaves. *)
Inductive explained (r : Renderer) : Memory -> list Event -> Memory -> Prop :=
| explained_nil m : explained r m [] m
| explained_cons m ev m1 evs m' :
    hook_step r ev m = Some (event_err ev, m1) ->
    explained r m1 evs m' ->
    explained r m (ev :: evs) m'.

(** Every run of [c] is explained by its events. *)
Definition keeps_log (r : Renderer) {A} (c : M A) : Prop :=
  forall s, explained r (memory s) (events (c s)) (memory (final (c s))).

(** The object of a delete request. *)
Definition deleted_object (ev : Event) : option Object :=
  match ev with CallDelete obj _ => Some obj | _ => None end.

(** [obj1] is what the object mutators of [r] return for [obj]. *)
Definition mutated (r : Renderer) (obj obj1 : Object) : Prop :=
  exists s, returned (rangeHooks CallObjectMutator "error mutating object" 0
                        (omutators r) obj s) = Ok obj1.

(** What a list of options of the package registers: the hooks of each
    kind, in the order of the options that register them. *)
Inductive registers : list Option -> list FSMutator -> list KustomizeMutator ->
    list ObjectMutator -> list PostApplyAction -> Prop :=
| registers_nil : registers [] [] [] [] []
| registers_FSMutator mut opts fs ks os ps :
    registers opts fs ks os ps -> registers (WithFSMutator mut :: opts) (mut :: fs) ks os ps
| registers_KustomizeMutator mut opts fs ks os ps :
    registers opts fs ks os ps ->
    registers (WithKustomizeMutator mut :: opts) fs (mut :: ks) os ps
| registers_ObjectMutator mut opts fs ks os ps :
    registers opts fs ks os ps ->
    registers (WithObjectMutator mut :: opts) fs ks (mut :: os) ps
| registers_PostApplyAction action opts fs ks os ps :
    registers opts fs ks os ps ->
    registers (WithPostApplyAction action :: opts) fs ks os (action :: ps)
| registers_FieldOwner owner opts fs ks os ps :
    registers opts fs ks os ps -> registers (WithFieldOwner owner :: opts) fs ks os ps
| registers_ForceOwnership opts fs ks os ps :
    registers opts fs ks os ps -> registers (WithForceOwnership :: opts) fs ks os ps
| registers_Unstructured opts fs ks os ps :
    registers opts fs ks os ps -> registers (WithUnstructured :: opts) fs ks os ps.

End Source.

(** * The trees behind the handles

    A Go [filesys.FileSystem] is a handle on a tree that [WriteFile] and the
    filesystem hooks change in place, and [filesys.MakeFsInMemory()] makes a
    new tree at every call. Above, a tree is a value that is handed on; here
    the trees live in a heap, a handle is a position in it, and [LoadFS],
    [readdir], [mutateKustomization], [parse], [Apply] and [Delete] are
    written again, from the same lines of the source, with the handle the
    code passes around. The embedded source is an [embed.FS], which has no
    method that writes, and stays a value. *)
Module InPlace.

(** A handle, and the trees there are. *)
Abbreviation Ref := nat (only parsing).
Abbreviation Heap := (list FileSystem) (only parsing).

Section InPlace.
Context `{Imports}.

(** The tree behind a handle; every handle the code holds came from
    [MakeFsInMemory], so the default is never used. *)
Definition tree (h : Heap) (fs : Ref) : FileSystem :=
  default filesys_MakeFsInMemory (h !! fs).

(** A hook that is handed the tree as a value, seen as a hook that changes
    the tree behind the handle. *)
Definition in_place (mut : FSMutator) : Ref -> Heap -> Memory -> option error * Heap * Memory :=
  fun fs h m =>
    match mut (tree h fs) m with
    | (Ok fs', m') => (None, <[fs := fs']> h, m')
    | (Err e, m') => (Some e, h, m')
    end.

(** [func(ctx context.Context, fs filesys.FileSystem) error]: the hook holds
    the handle, and may write to whatever tree it can reach. *)
Definition FSMutator : Type := Ref -> Heap -> Memory -> option error * Heap * Memory.

(** A hook that leaves every tree but the one it is handed as it is. *)
Definition confined (mut : FSMutator) : Prop :=
  forall fs h m l x, l <> fs -> h !! l = Some x -> (mut fs h m).1.2 !! l = Some x.

(** The monad of the renderer, with the heap. *)
Definition MH (A : Type) : Type := Heap -> State -> Outcome A * Heap.

Definition retH {A} (a : A) : MH A := fun h s => (ret a s, h).

Definition bindH {A B} (c : MH A) (k : A -> MH B) : MH B := fun h s =>
  let (o, h1) := c h s in
  match returned o with
  | Err e => (mkOutcome (Err e) (final o) (events o), h1)
  | Ok a => let (o', h2) := k a h1 (final o) in
            (mkOutcome (returned o') (final o') (events o ++ events o'), h2)
  end.

Definition wrapfH {A} (msg : string) (c : MH A) : MH A := fun h s =>
  let (o, h1) := c h s in
  (mkOutcome (orErrorf msg (returned o)) (final o) (events o), h1).

(** A step that touches no tree, and a step that touches nothing else. *)
Definition pure {A} (c : M A) : MH A := fun h s => (c s, h).

Definition heap {A} (f : Heap -> result A * Heap) : MH A := fun h s =>
  let (x, h1) := f h in (lift x s, h1).

Notation "'let+' x ':=' c 'in' k" := (bindH c (fun x => k))
  (at level 10, x name, c at level 100, k at level 200).

(** [filesys.MakeFsInMemory()] *)
Definition MakeFsInMemory (h : Heap) : Ref * Heap :=
  (length h, h ++ [filesys_MakeFsInMemory]).

(** [fs.WriteFile(path, data)] *)
Definition WriteFile (fs : Ref) (path : string) (data : bytes) (h : Heap)
    : result unit * Heap :=
  match fs_WriteFile (tree h fs) path data with
  | Ok fs' => (Ok tt, <[fs := fs']> h)
  | Err e => (Err e, h)
  end.

Fixpoint readdir (dir : string) (from : embed_FS) (to : Ref) (h : Heap)
    : result unit * Heap :=
  match from with
  | ReadDir_Err err => (Err (fmt_Errorf "error reading dir" err), h)
  | ReadDir_Ok entries =>
      (fix range (entries : list embed_DirEntry) (h : Heap) : result unit * Heap :=
         match entries with
         | [] => (Ok tt, h)
         | entry :: rest =>
             let path := path_Join dir (entry_Name entry) in
             match entry with
             | embed_dir _ sub =>
                 match readdir path sub to h with
                 | (Ok _, h) => range rest h
                 | (Err err, h) => (Err err, h)
                 end
             | embed_file _ (Err err) => (Err (fmt_Errorf "error reading file" err), h)
             | embed_file _ (Ok fcontent) =>
                 match WriteFile to path fcontent h with
                 | (Ok _, h) => range rest h
                 | (Err err, h) => (Err (fmt_Errorf "error writing file" err), h)
                 end
             end
         end) entries h
  end.

Definition LoadFS (content : embed_FS) (h : Heap) : result Ref * Heap :=
  let (fs, h) := MakeFsInMemory h in
  match readdir "." content fs h with
  | (Ok _, h) => (Ok fs, h)
  | (Err err, h) => (Err (fmt_Errorf "error loading embed files" err), h)
  end.

Definition callFSMutator (i : nat) (mut : FSMutator) (fs : Ref) : MH unit := fun h s =>
  let '(err, h1, m) := mut fs h (memory s) in
  (mkOutcome (match err with None => Ok tt | Some e => Err e end)
     (mkState (cluster s) m) [CallFSMutator i (tree h fs) err], h1).

(** [for _, mut := range r.fsmutators { if err := mut(ctx, virtfs); ... }] *)
Fixpoint rangeFSMutators (i : nat) (hooks : list FSMutator) (fs : Ref) : MH unit :=
  match hooks with
  | [] => retH tt
  | mut :: rest =>
      let+ _ := wrapfH "error mutating filesystem" (callFSMutator i mut fs) in
      rangeFSMutators (S i) rest fs
  end.

Definition mutateKustomization (r : Renderer) (fs : Ref) : MH unit :=
  if length (kmutators r) =? 0 then retH tt else
  let+ olddt := heap (fun h => (orErrorf "error reading base kustomization"
                                  (fs_ReadFile (tree h fs) BaseKustomizationPath), h)) in
  let+ kust := pure (lift (orErrorf "error parsing base kustomization"
                             (yaml_Unmarshal olddt))) in
  let+ kust := pure (rangeHooks CallKustomizeMutator "error mutating kustomization" 0
                       (kmutators r) kust) in
  let+ newdt := pure (lift (orErrorf "error marshaling base kustomization"
                              (yaml_Marshal kust))) in
  heap (fun h => let (res, h1) := WriteFile fs BaseKustomizationPath newdt h in
                 (orErrorf "error writing base kustomization" res, h1)).

(** [parse], with the filesystem hooks of the renderer as the code has
    them; the other hooks are never handed a tree. *)
Definition parse (r : Renderer) (fsmutators : list FSMutator) (overlay : string)
    : MH (list Object) :=
  let+ virtfs := heap (fun h => let (res, h1) := LoadFS (from r) h in
                                (orErrorf "unable to load overlay" res, h1)) in
  let+ _ := rangeFSMutators 0 fsmutators virtfs in
  let+ _ := wrapfH "error setting object name prefix" (mutateKustomization r virtfs) in
  let+ res := wrapfH "error running kustomize"
                (fun h s => (callKustomizer (tree h virtfs) (path_Join "kustomize" overlay) s,
                             h)) in
  pure (lift (parse_resources r res [])).

Definition Apply (r : Renderer) (fsmutators : list FSMutator) (overlay : string) : MH unit :=
  let+ objs := wrapfH "error parsing kustomize files" (parse r fsmutators overlay) in
  pure (range (Apply_object r) objs).

Definition Delete (r : Renderer) (fsmutators : list FSMutator) (overlay : string) : MH unit :=
  let+ objs := wrapfH "error parsing kustomize files" (parse r fsmutators overlay) in
  pure (range (Delete_object r) objs).

(** [c] leaves every tree but [fs] as it is. *)
Definition touches (fs : Ref) {A} (c : MH A) : Prop :=
  forall h s l x, l <> fs -> h !! l = Some x -> (c h s).2 !! l = Some x.

(** From the heap [h] and the state [s], [c] makes the calls that [v], which
    hands trees on as values, makes, leaves the state [v] leaves, and fails
    as [v] fails; when [v] returns [b], [c] returns some [a] and leaves a
    heap [h1] with [R a h1 b]. *)
Definition agrees {A B} (c : MH A) (v : M B) (h : Heap) (s : State)
    (R : A -> Heap -> B -> Prop) : Prop :=
  events (c h s).1 = events (v s) /\
  final (c h s).1 = final (v s) /\
  match returned (v s) with
  | Err e => returned (c h s).1 = Err e
  | Ok b => exists a, returned (c h s).1 = Ok a /\ R a (c h s).2 b
  end.

End InPlace.
End InPlace.

(** ** A fake cluster, a fake composition engine

    The collaborators of the package's tests, small enough to run: a cluster
    that holds the names of its objects, a file system that is a map from
    paths to contents, an engine that makes one resource out of each
    character of the overlay's kustomization.yaml. *)
Module Fake.

Definition notFound : error := errors_New "not found".

Definition IsNotFound (e : error) : bool :=
  match e with
  | errors_New msg => String.eqb msg "not found"
  | fmt_Errorf _ _ => false
  end.

Record Rsc : Type := { rgvk : resid_Gvk; rname : string }.

(** The resource a character stands for: '?' has a kind no scheme knows. *)
Definition resource_of (c : ascii) : Rsc :=
  let kind := if Ascii.eqb c "?"%char then "Mystery" else "ConfigMap" in
  {| rgvk := {| Gvk_Group := ""; Gvk_Version := "v1"; Gvk_Kind := kind |};
     rname := String c EmptyString |}.

(** The in-memory file system roots every path at "/". *)
Definition clean (path : string) : string :=
  match path with
  | String "/"%char rest => rest
  | _ => path
  end.

Definition ReadFile (fs : gmap string string) (path : string) : result bytes :=
  match fs !! clean path with
  | Some data => Ok data
  | None => Err (errors_New "file does not exist")
  end.

Definition WriteFile (fs : gmap string string) (path : string) (data : bytes)
    : result (gmap string string) :=
  if String.eqb (clean path) "" then Err (errors_New "empty path")
  else Ok (<[clean path := data]> fs).

Definition Join (dir name : string) : string :=
  if String.eqb dir "." then name else dir +:+ "/" +:+ name.

Definition Run (fs : gmap string string) (dir : string) : result (list Rsc) :=
  match fs !! (clean dir +:+ "/kustomization.yaml") with
  | Some data => Ok (resource_of <$> list_ascii_of_string data)
  | None => Err (errors_New "missing kustomization.yaml")
  end.

(** A kustomization is its text; a text that starts with '!' does not parse. *)
Definition Unmarshal (data : bytes) : result string :=
  match data with
  | String "!"%char _ => Err (errors_New "yaml: did not find expected key")
  | _ => Ok data
  end.

#[export] Instance imports : Imports := {|
  Cluster := gset string;
  Memory := list string;
  Object := string;
  RuntimeObject := string;
  Resource := Rsc;
  Kustomization := string;
  FileSystem := gmap string string;
  errors_IsNotFound := IsNotFound;
  json_Unmarshal := fun raw _ => Ok raw;
  as_client_Object := Some;
  GroupVersionKind_String := fun o => o;
  Decode_Unstructured := Ok;
  rsc_GetGvk := rgvk;
  rsc_AsYAML := fun rsc => Ok (rname rsc);
  rsc_MarshalJSON := fun rsc => Ok (rname rsc);
  krusty_Run := Run;
  filesys_MakeFsInMemory := ∅;
  fs_ReadFile := ReadFile;
  fs_WriteFile := WriteFile;
  yaml_Unmarshal := Unmarshal;
  yaml_Marshal := Ok;
  path_Join := Join;
|}.

(** The fake client: a patch of an object the cluster does not hold reports
    "not found", a patch of the object "x" is forbidden; the scheme knows
    ConfigMap only. *)
Definition Patch (obj : string) (patch : client_Patch) (opts : list client_Option)
    (c : gset string) : result string * gset string :=
  if String.eqb obj "x" then (Err (errors_New "forbidden"), c)
  else if decide (obj ∈ c) then (Ok obj, c) else (Err notFound, c).

Definition Create (obj : string) (opts : list client_Option) (c : gset string)
    : result string * gset string :=
  if decide (obj ∈ c) then (Err (errors_New "already exists"), c)
  else (Ok obj, {[obj]} ∪ c).

Definition Delete (obj : string) (c : gset string) : result unit * gset string :=
  if decide (obj ∈ c) then (Ok tt, c ∖ {[obj]}) else (Err notFound, c).

Definition Scheme_New (gvk : schema_GroupVersionKind) : result string :=
  if String.eqb (Kind gvk) "ConfigMap" then Ok ""
  else Err (errors_New "no kind is registered").

Definition client : client_Client :=
  @Build_client_Client imports Patch Create Delete Scheme_New.

(** The embedded tree of the tests: a base and one overlay of three objects. *)
Definition resources : embed_FS :=
  ReadDir_Ok [embed_dir "kustomize" (ReadDir_Ok [
    embed_dir "base" (ReadDir_Ok [embed_file "kustomization.yaml" (Ok "a")]);
    embed_dir "three" (ReadDir_Ok [embed_file "kustomization.yaml" (Ok "abc")]);
    embed_dir "mixed" (ReadDir_Ok [embed_file "kustomization.yaml" (Ok "a?c")]);
    embed_dir "denied" (ReadDir_Ok [embed_file "kustomization.yaml" (Ok "axc")])])].

(** A hook that leaves a stamp in the caller's memory and fails on one value. *)
Definition stamp (name : string) (bad : string) : @Hook imports string := fun x (m : list string) =>
  if String.eqb x bad then (Err (errors_New (name +:+ " refused")), m ++ [name])
  else (Ok x, m ++ [name]).

Definition empty : @State imports := mkState (∅ : gset string) ([] : list string).

(** An embedded tree with a directory, two levels down, that cannot be listed. *)
Definition unreadable : embed_FS :=
  ReadDir_Ok [embed_dir "kustomize" (ReadDir_Ok [
    embed_file "README" (Ok "text");
    embed_dir "base" (ReadDir_Err (errors_New "permission denied"))])].

(** An embedded tree with an overlay that composes nothing, and a renderer
    of it. *)
Definition bare : embed_FS :=
  ReadDir_Ok [embed_dir "kustomize" (ReadDir_Ok [
    embed_dir "base" (ReadDir_Ok [embed_file "kustomization.yaml" (Ok "a")]);
    embed_dir "none" (ReadDir_Ok [embed_file "kustomization.yaml" (Ok "")])])].

Definition idle : Renderer := NewRenderer client bare [].

Definition bare_tree : gmap string string :=
  <["kustomize/none/kustomization.yaml" := ""]>
    (<["kustomize/base/kustomization.yaml" := "a"]> ∅).

(** A renderer in unstructured mode. *)
Definition untyped : Renderer := NewRenderer client resources [WithUnstructured].

(** A renderer without hooks. *)
Definition plain : Renderer := NewRenderer client resources [].

(** A renderer that forces ownership and names no field owner. *)
Definition forced : Renderer := NewRenderer client resources [WithForceOwnership].

(** The tree [LoadFS] makes of [resources]. *)
Definition loaded : gmap string string := default ∅ (value_of (LoadFS resources)).


(** A filesystem hook that adds an overlay to the tree it is handed. *)
Definition add_overlay : @Hook imports (gmap string string) := fun fs (m : list string) =>
  (Ok (<["kustomize/extra/kustomization.yaml" := "z"]> fs), m ++ ["filesystem"]).

(** A renderer whose filesystem hook writes to the tree. *)
Definition writing : Renderer := NewRenderer client resources [WithFSMutator add_overlay].

(** The first call of a render of [writing]. *)
Definition writing_first : @Event imports := CallFSMutator 0 loaded None.

(** A renderer whose post-apply action fails on the object "b", and one
    whose object mutator does. *)
Definition acting : Renderer :=
  NewRenderer client resources [WithPostApplyAction (stamp "action" "b")].

Definition mutating : Renderer :=
  NewRenderer client resources [WithObjectMutator (stamp "mutator" "b")].

(** A renderer with a hook of each per-object kind; neither ever fails. *)
Definition stamped : Renderer :=
  NewRenderer client resources
    [WithObjectMutator (stamp "mutator" ""); WithPostApplyAction (stamp "action" "")].

(** A descriptor hook that adds a resource to the base. *)
Definition add_resource (name : string) : @Hook imports string := fun kust (m : list string) =>
  (Ok (kust +:+ name), m ++ ["kustomization"]).



(** A renderer with hooks of every kind, registered in a mixed order. *)
Definition busy : Renderer :=
  NewRenderer client resources
    [WithObjectMutator (stamp "first" ""); WithFSMutator add_overlay;
     WithObjectMutator (stamp "second" ""); WithKustomizeMutator (add_resource "b");
     WithPostApplyAction (stamp "action" "")].

(** The tree the composition gets from [busy]. *)
Definition busy_tree : gmap string string :=
  <["kustomize/base/kustomization.yaml" := "ab"]>
    (<["kustomize/extra/kustomization.yaml" := "z"]> loaded).

(** The files of [resources], written out: what a copy of it holds. *)
Definition copied_files : gmap string string :=
  <["kustomize/base/kustomization.yaml" := "a"]>
    (<["kustomize/three/kustomization.yaml" := "abc"]>
       (<["kustomize/mixed/kustomization.yaml" := "a?c"]>
          (<["kustomize/denied/kustomization.yaml" := "axc"]> ∅))).

Definition copied : @FileSystem imports := copied_files.

(** The tree a render of [writing] leaves behind: the copy, with the overlay
    its filesystem hook adds. *)
Definition written : @FileSystem imports :=
  <["kustomize/extra/kustomization.yaml" := "z"]> copied_files.

(** The heap after one render of [writing], and after the source is loaded
    once more. *)
Definition one_tree : list (@FileSystem imports) := [written].
Definition two_trees : list (@FileSystem imports) := [written; copied].

(** The first call of a render of [writing]: the hook is handed the copy. *)
Definition copied_first : @Event imports := CallFSMutator 0 copied None.

(** The hooks of [writing], as hooks on the tree behind a handle. *)
Definition writing_in_place : list (@InPlace.FSMutator imports) :=
  InPlace.in_place <$> fsmutators writing.

(** What the fake client sees of [Delete plain "three"] on an empty cluster. *)
Definition three_absent : list (@Event imports) :=
  [CallKustomizer loaded "kustomize/three" None;
   CallDelete "a" (Some notFound);
   CallDelete "b" (Some notFound);
   CallDelete "c" (Some notFound)].

(** The stamps the hooks of [busy] leave in an empty memory when "base",
    with the resource the descriptor hook adds, composes two objects, and
    the calls of that run. *)
Definition busy_stamps : list string :=
  ["filesystem"; "kustomization";
   "first"; "second"; "action";
   "first"; "second"; "action"].

Definition busy_calls : list Tag :=
  [TFSMutator 0; TKustomizeMutator 0; TKustomizer;
   TObjectMutator 0; TObjectMutator 1; TPatch; TCreate; TPostApplyAction 0;
   TObjectMutator 0; TObjectMutator 1; TPatch; TCreate; TPostApplyAction 0].


(** What the fake client sees of [Apply plain "denied"] on an empty cluster. *)
Definition denied_before : list (@Event imports) :=
  [CallKustomizer loaded "kustomize/denied" None;
   CallPatch "a" client_Apply [client_FieldOwner "plumber"] (Some notFound);
   CallCreate "a" [] None].

(** What it sees of [Apply forced "base"]. *)
Definition forced_base : list (@Event imports) :=
  [CallKustomizer loaded "kustomize/base" None;
   CallPatch "a" client_Apply [client_FieldOwner "plumber"; client_ForceOwnership]
     (Some notFound);
   CallCreate "a" [] None].

(** The resources the engine makes of the overlay "mixed". *)
Definition mixed : list Rsc := resource_of <$> list_ascii_of_string "a?c".

Definition denied_last : @Event imports :=
  CallPatch "x" client_Apply [client_FieldOwner "plumber"] (Some (errors_New "forbidden")).

End Fake.


(** * Properties *)

Section Facts.
Context `{Imports}.

(** ** The monad *)

Lemma bind_Ok {A B} (m : M A) (k : A -> M B) s a :
  returned (m s) = Ok a ->
  bind m k s = mkOutcome (returned (k a (final (m s)))) (final (k a (final (m s))))
                 (events (m s) ++ events (k a (final (m s)))).
Proof. intros E. unfold bind. rewrite E. reflexivity. Qed.

Lemma bind_Err {A B} (m : M A) (k : A -> M B) s e :
  returned (m s) = Err e ->
  bind m k s = mkOutcome (Err e) (final (m s)) (events (m s)).
Proof. intros E. unfold bind. rewrite E. reflexivity. Qed.

Lemma bind_lift_Ok {A B} (x : result A) (k : A -> M B) s a :
  x = Ok a -> bind (lift x) k s = k a s.
Proof.
  intros ->. unfold bind, lift. simpl. destruct (k a s); reflexivity.
Qed.

Lemma bind_lift_Err {A B} (x : result A) (k : A -> M B) s e :
  x = Err e -> bind (lift x) k s = mkOutcome (Err e) s [].
Proof. intros ->. reflexivity. Qed.


Lemma orErrorf_Err {A} msg (x : result A) e :
  orErrorf msg x = Err e <-> exists e0, x = Err e0 /\ e = fmt_Errorf msg e0.
Proof.
  destruct x as [a|e1]; simpl; split.
  - discriminate.
  - intros (e0 & ? & _). discriminate.
  - intros [= <-]. eauto.
  - intros (e0 & [= <-] & ->). reflexivity.
Qed.

(** ** Hook loops *)

Lemma callHook_run {A} (mk : nat -> A -> option error -> Event) i (h : Hook A) x s :
  callHook mk i h x s =
    mkOutcome (h x (memory s)).1 (mkState (cluster s) (h x (memory s)).2)
      [mk i x (err_of (h x (memory s)).1)].
Proof. unfold callHook. destruct (h x (memory s)); reflexivity. Qed.

Lemma rangeHooks_cons {A} (mk : nat -> A -> option error -> Event) msg i h rest x s :
  rangeHooks mk msg i (h :: rest) x s =
    let s1 := mkState (cluster s) (h x (memory s)).2 in
    match (h x (memory s)).1 with
    | Err e => mkOutcome (Err (fmt_Errorf msg e)) s1 [mk i x (Some e)]
    | Ok x' =>
        let o := rangeHooks mk msg (S i) rest x' s1 in
        mkOutcome (returned o) (final o) (mk i x None :: events o)
    end.
Proof.
  simpl. unfold bind, wrapf. rewrite callHook_run. simpl.
  destruct (h x (memory s)) as [[x'|e] m]; reflexivity.
Qed.

(** Every run of a hook loop is a [hooks_run]; hooks do not reach the cluster. *)
Lemma rangeHooks_run {A} (mk : nat -> A -> option error -> Event) msg hooks i x s :
  let o := rangeHooks mk msg i hooks x s in
  hooks_run mk msg (i + length hooks) i x (events o) (returned o) /\
  cluster (final o) = cluster s.
Proof.
  revert i x s. induction hooks as [|h rest IH]; intros i x s; cbv zeta.
  - simpl. rewrite Nat.add_0_r. split; [constructor|reflexivity].
  - rewrite rangeHooks_cons. cbv zeta.
    destruct (h x (memory s)) as [[x'|e] m]; simpl.
    + destruct (IH (S i) x' (mkState (cluster s) m)) as [Hr Hc].
      split; [|exact Hc].
      replace (i + S (length rest)) with (S i + length rest) by lia.
      apply hooks_next with (x' := x'); [lia|exact Hr].
    + split; [|reflexivity]. apply hooks_failed. lia.
Qed.

(** ** The loop bodies *)

Lemma Apply_submit_opts (r : Renderer) :
  (let opts := [client_FieldOwner (fieldOwner r)] in
   if forceOwner r then opts ++ [client_ForceOwnership] else opts) = patchOptions r.
Proof. unfold patchOptions. destruct (forceOwner r); reflexivity. Qed.

Lemma Apply_submit_run r obj s :
  let o := Apply_submit r obj s in
  submit_run r obj (events o) (returned o) /\ memory (final o) = memory s.
Proof.
  cbv zeta. unfold Apply_submit. cbv zeta. rewrite Apply_submit_opts.
  unfold bind, attempt, callPatch. simpl.
  destruct (cli_Patch (cli r) obj client_Apply (patchOptions r) (cluster s))
    as [[obj'|e] cl]; simpl.
  - split; [constructor|reflexivity].
  - destruct (errors_IsNotFound e) eqn:Enf; simpl.
    + unfold wrapf, callCreate. simpl.
      destruct (cli_Create (cli r) obj [] cl) as [[obj'|e'] cl']; simpl.
      * split; [by constructor|reflexivity].
      * split; [by constructor|reflexivity].
    + split; [by constructor|reflexivity].
Qed.

Lemma Apply_object_run r obj s :
  object_run r obj (events (Apply_object r obj s)) (returned (Apply_object r obj s)).
Proof.
  unfold Apply_object.
  set (m1 := rangeHooks CallObjectMutator "error mutating object" 0 (omutators r) obj).
  destruct (rangeHooks_run CallObjectMutator "error mutating object" (omutators r) 0 obj s)
    as [H1 _]. fold m1 in H1. simpl in H1.
  destruct (returned (m1 s)) as [obj1|e] eqn:E1.
  - rewrite (bind_Ok _ _ _ _ E1). simpl.
    destruct (Apply_submit_run r obj1 (final (m1 s))) as [H2 _].
    destruct (returned (Apply_submit r obj1 (final (m1 s)))) as [obj2|e] eqn:E2.
    + rewrite (bind_Ok _ _ _ _ E2). simpl.
      set (s2 := final (Apply_submit r obj1 (final (m1 s)))).
      set (m3 := rangeHooks CallPostApplyAction "error running post apply action" 0
                   (postApply r) obj2).
      destruct (rangeHooks_run CallPostApplyAction "error running post apply action"
                  (postApply r) 0 obj2 s2) as [H3 _]. fold m3 in H3. simpl in H3.
      pose proof (object_submitted r obj _ _ _ _ _ _ H1 H2 H3) as Hrun.
      destruct (returned (m3 s2)) as [obj3|e] eqn:E3.
      * rewrite (bind_Ok _ _ _ _ E3). simpl. rewrite app_nil_r. exact Hrun.
      * rewrite (bind_Err _ _ _ _ E3). simpl. exact Hrun.
    + rewrite (bind_Err _ _ _ _ E2). simpl. by eapply object_submit_failed.
  - rewrite (bind_Err _ _ _ _ E1). simpl. by apply object_mutator_failed.
Qed.

Lemma Delete_object_run r obj s :
  delete_run r obj (events (Delete_object r obj s)) (returned (Delete_object r obj s)).
Proof.
  unfold Delete_object.
  set (m1 := rangeHooks CallObjectMutator "error mutating object" 0 (omutators r) obj).
  destruct (rangeHooks_run CallObjectMutator "error mutating object" (omutators r) 0 obj s)
    as [H1 _]. fold m1 in H1. simpl in H1.
  destruct (returned (m1 s)) as [obj1|e] eqn:E1.
  - rewrite (bind_Ok _ _ _ _ E1). simpl.
    unfold bind, attempt, callDelete. simpl.
    destruct (cli_Delete (cli r) obj1 (cluster (final (m1 s)))) as [[[]|e] cl]; simpl.
    + rewrite ?app_nil_r. by apply delete_deleted.
    + destruct (errors_IsNotFound e) eqn:Enf; simpl; rewrite ?app_nil_r.
      * by apply delete_absent.
      * by apply delete_failed.
  - rewrite (bind_Err _ _ _ _ E1). simpl. by apply delete_mutator_failed.
Qed.

Lemma range_sound {A} (body : A -> M unit) (turn : A -> list Event -> result unit -> Prop) :
  (forall obj s, turn obj (events (body obj s)) (returned (body obj s))) ->
  forall objs s, range_run turn objs (events (range body objs s)) (returned (range body objs s)).
Proof.
  intros Hbody objs. induction objs as [|obj rest IH]; intros s; simpl.
  - constructor.
  - specialize (Hbody obj s).
    destruct (returned (body obj s)) as [[]|e] eqn:E.
    + rewrite (bind_Ok _ _ _ _ E). simpl. apply range_continued; [exact Hbody|apply IH].
    + rewrite (bind_Err _ _ _ _ E). simpl. by apply range_stopped.
Qed.

(** ** mutateKustomization and parse *)

Lemma mutateKustomization_run r fs s :
  let o := mutateKustomization r fs s in
  kust_run r fs (events o) (returned o) /\ cluster (final o) = cluster s.
Proof.
  cbv zeta. unfold mutateKustomization.
  destruct (kmutators r) as [|k0 ks] eqn:Ek.
  { simpl. split; [by constructor|reflexivity]. }
  assert (Hne : kmutators r <> []) by (rewrite Ek; discriminate).
  change (length (k0 :: ks) =? 0) with false. cbv iota.
  destruct (fs_ReadFile fs BaseKustomizationPath) as [olddt|e] eqn:Er; simpl;
    [|split; [by apply kust_read_failed|reflexivity]].
  unfold bind at 1. simpl.
  destruct (yaml_Unmarshal olddt) as [kust|e] eqn:Eu; simpl;
    [|split; [by eapply kust_parse_failed|reflexivity]].
  set (m := rangeHooks CallKustomizeMutator "error mutating kustomization" 0 (k0 :: ks) kust).
  destruct (rangeHooks_run CallKustomizeMutator "error mutating kustomization"
              (k0 :: ks) 0 kust s) as [Hh Hc].
  fold m in Hh, Hc. simpl in Hh.
  assert (Hh' : hooks_run CallKustomizeMutator "error mutating kustomization"
                  (length (kmutators r)) 0 kust (events (m s)) (returned (m s)))
    by (rewrite Ek; exact Hh).
  clear Hh.
  destruct (returned (m s)) as [kust'|e] eqn:Em.
  - rewrite (bind_Ok _ _ _ _ Em). simpl.
    pose proof (kust_mutated r fs _ _ _ _ Hne Er Eu Hh') as Hrun.
    unfold bind, lift. simpl.
    destruct (yaml_Marshal kust') as [newdt|e]; simpl; rewrite ?app_nil_r;
      split; auto.
  - rewrite (bind_Err _ _ _ _ Em). simpl. split; [|exact Hc].
    by eapply kust_mutator_failed.
Qed.

Lemma parse_run_sound r overlay s :
  let o := parse r overlay s in
  parse_run r overlay (events o) (returned o) /\ cluster (final o) = cluster s.
Proof.
  cbv zeta. unfold parse.
  destruct (LoadFS (from r)) as [fs0|e] eqn:El; simpl;
    [|split; [by apply parse_load_failed|reflexivity]].
  unfold bind at 1. simpl.
  set (m1 := rangeHooks CallFSMutator "error mutating filesystem" 0 (fsmutators r) fs0).
  destruct (rangeHooks_run CallFSMutator "error mutating filesystem" (fsmutators r) 0 fs0 s)
    as [H1 Hc1]. fold m1 in H1, Hc1. simpl in H1.
  destruct (returned (m1 s)) as [fs1|e] eqn:E1.
  2:{ rewrite (bind_Err _ _ _ _ E1). simpl. split; [|exact Hc1].
      by eapply parse_fsmutator_failed. }
  rewrite (bind_Ok _ _ _ _ E1). simpl.
  destruct (mutateKustomization_run r fs1 (final (m1 s))) as [H2 Hc2].
  destruct (returned (mutateKustomization r fs1 (final (m1 s)))) as [fs2|e] eqn:E2.
  2:{ assert (Ew : returned (wrapf "error setting object name prefix"
                    (mutateKustomization r fs1) (final (m1 s))) =
                   Err (fmt_Errorf "error setting object name prefix" e))
        by (unfold wrapf; simpl; by rewrite E2).
      rewrite (bind_Err _ _ _ _ Ew). simpl. split; [|congruence].
      by eapply parse_kustomization_failed. }
  assert (Ew : returned (wrapf "error setting object name prefix"
                (mutateKustomization r fs1) (final (m1 s))) = Ok fs2)
    by (unfold wrapf; simpl; by rewrite E2).
  rewrite (bind_Ok _ _ _ _ Ew). simpl.
  pose proof (parse_composed r overlay _ _ _ _ _ El H1 H2) as Hrun. cbv zeta in Hrun.
  unfold bind, wrapf, callKustomizer, lift. simpl.
  destruct (krusty_Run fs2 (path_Join "kustomize" overlay)) as [res|e]; simpl;
    rewrite ?app_nil_r; split; auto; congruence.
Qed.

(** ** Apply and Delete around parse *)

Lemma Apply_parse_Err r overlay s e :
  returned (parse r overlay s) = Err e ->
  Apply r overlay s =
    mkOutcome (Err (fmt_Errorf "error parsing kustomize files" e))
      (final (parse r overlay s)) (events (parse r overlay s)).
Proof.
  intros E. unfold Apply.
  assert (Ew : returned (wrapf "error parsing kustomize files" (parse r overlay) s) =
               Err (fmt_Errorf "error parsing kustomize files" e))
    by (unfold wrapf; simpl; by rewrite E).
  by rewrite (bind_Err _ _ _ _ Ew).
Qed.

Lemma Apply_parse_Ok r overlay s objs :
  returned (parse r overlay s) = Ok objs ->
  Apply r overlay s =
    let o := range (Apply_object r) objs (final (parse r overlay s)) in
    mkOutcome (returned o) (final o) (events (parse r overlay s) ++ events o).
Proof.
  intros E. unfold Apply.
  assert (Ew : returned (wrapf "error parsing kustomize files" (parse r overlay) s) = Ok objs)
    by (unfold wrapf; simpl; by rewrite E).
  by rewrite (bind_Ok _ _ _ _ Ew).
Qed.

Lemma Delete_parse_Err r overlay s e :
  returned (parse r overlay s) = Err e ->
  Delete r overlay s =
    mkOutcome (Err (fmt_Errorf "error parsing kustomize files" e))
      (final (parse r overlay s)) (events (parse r overlay s)).
Proof.
  intros E. unfold Delete.
  assert (Ew : returned (wrapf "error parsing kustomize files" (parse r overlay) s) =
               Err (fmt_Errorf "error parsing kustomize files" e))
    by (unfold wrapf; simpl; by rewrite E).
  by rewrite (bind_Err _ _ _ _ Ew).
Qed.

Lemma Delete_parse_Ok r overlay s objs :
  returned (parse r overlay s) = Ok objs ->
  Delete r overlay s =
    let o := range (Delete_object r) objs (final (parse r overlay s)) in
    mkOutcome (returned o) (final o) (events (parse r overlay s) ++ events o).
Proof.
  intros E. unfold Delete.
  assert (Ew : returned (wrapf "error parsing kustomize files" (parse r overlay) s) = Ok objs)
    by (unfold wrapf; simpl; by rewrite E).
  by rewrite (bind_Ok _ _ _ _ Ew).
Qed.

(** ** Calls that stay away from the cluster *)

Lemma hooks_run_quiet {A} (mk : nat -> A -> option error -> Event) msg n i x evs res :
  (forall j y e, is_cluster_call (mk j y e) = false) ->
  hooks_run mk msg n i x evs res -> quiet evs.
Proof.
  intros Hmk. induction 1; unfold quiet in *; repeat constructor; auto.
Qed.

Lemma kust_run_quiet r fs evs res : kust_run r fs evs res -> quiet evs.
Proof.
  destruct 1; try (by constructor);
    eapply hooks_run_quiet; eauto; reflexivity.
Qed.

Lemma parse_run_quiet r overlay evs res : parse_run r overlay evs res -> quiet evs.
Proof.
  destruct 1; unfold quiet; rewrite ?Forall_app; repeat split;
    try (by constructor);
    try (eapply hooks_run_quiet; eauto; reflexivity);
    try (eapply kust_run_quiet; eauto).
Qed.

Lemma parse_quiet r overlay s :
  quiet (events (parse r overlay s)) /\ cluster (final (parse r overlay s)) = cluster s.
Proof.
  destruct (parse_run_sound r overlay s) as [Hrun Hc]. split; [|exact Hc].
  eapply parse_run_quiet; eauto.
Qed.

(** ** The submissions of a run of Apply *)

Lemma submissions_quiet r evs res : quiet evs -> submissions r evs res.
Proof.
  induction 1 as [|ev evs Hq _ IH]; [constructor|]. by apply submissions_other.
Qed.

Lemma submissions_app r evs1 evs2 res :
  submissions r evs1 (Ok tt) -> submissions r evs2 res -> submissions r (evs1 ++ evs2) res.
Proof.
  intros H1 H2. remember (Ok tt) as ok eqn:Eok.
  induction H1; subst; simpl; try discriminate.
  - exact H2.
  - apply submissions_other; auto.
  - apply submissions_patched; auto.
  - apply submissions_created; auto.
Qed.

Lemma submit_run_Ok_submissions r obj evs obj' res :
  submit_run r obj evs (Ok obj') -> submissions r evs res.
Proof.
  inversion 1; subst.
  - apply submissions_patched. constructor.
  - apply submissions_created; [assumption|constructor].
Qed.

Lemma submit_run_Err_submissions r obj evs e :
  submit_run r obj evs (Err e) -> submissions r evs (Err e).
Proof. inversion 1; subst; by constructor. Qed.

Lemma object_run_submissions r obj evs res :
  object_run r obj evs res -> submissions r evs res.
Proof.
  destruct 1 as [evs e Hm|evs1 obj1 evs2 e Hm Hs|evs1 obj1 evs2 obj2 evs3 res Hm Hs Hp].
  - apply submissions_quiet. eapply hooks_run_quiet; eauto. reflexivity.
  - apply submissions_app.
    + apply submissions_quiet. eapply hooks_run_quiet; eauto. reflexivity.
    + by eapply submit_run_Err_submissions.
  - apply submissions_app; [|apply submissions_app].
    + apply submissions_quiet. eapply hooks_run_quiet; eauto. reflexivity.
    + by eapply submit_run_Ok_submissions.
    + apply submissions_quiet. eapply hooks_run_quiet; eauto. reflexivity.
Qed.

Lemma range_run_submissions r objs evs res :
  range_run (object_run r) objs evs res -> submissions r evs res.
Proof.
  induction 1 as [|obj rest evs e Ht|obj rest evs evs' res Ht _ IH].
  - constructor.
  - by eapply object_run_submissions.
  - apply submissions_app; [by eapply object_run_submissions|exact IH].
Qed.

Lemma Apply_run r overlay s objs :
  returned (parse r overlay s) = Ok objs ->
  let o := range (Apply_object r) objs (final (parse r overlay s)) in
  range_run (object_run r) objs (events o) (returned o).
Proof. intros _. apply range_sound. apply Apply_object_run. Qed.

Lemma Apply_submissions r overlay s :
  submissions r (events (Apply r overlay s)) (returned (Apply r overlay s)).
Proof.
  destruct (parse_quiet r overlay s) as [Hq _].
  destruct (returned (parse r overlay s)) as [objs|e] eqn:E.
  - rewrite (Apply_parse_Ok _ _ _ _ E). simpl.
    apply submissions_app; [by apply submissions_quiet|].
    apply range_run_submissions with (objs := objs). by apply Apply_run.
  - rewrite (Apply_parse_Err _ _ _ _ E). simpl. by apply submissions_quiet.
Qed.

Lemma submissions_head r ev evs res : submissions r (ev :: evs) res -> tag ev <> TCreate.
Proof.
  inversion 1; subst; try (simpl; discriminate).
  destruct ev; simpl in *; discriminate.
Qed.

Lemma submissions_after_patched r evs res l1 obj patch opts l2 :
  submissions r evs res ->
  evs = l1 ++ CallPatch obj patch opts None :: l2 ->
  patch = client_Apply /\ opts = patchOptions r /\
  forall ev, head l2 = Some ev -> tag ev <> TCreate.
Proof.
  intros Hs. revert l1. induction Hs; intros l1 Heq.
  - by destruct l1.
  - destruct l1 as [|x l1]; simplify_eq/=; eauto.
  - destruct l1 as [|x l1]; simplify_eq/=; eauto.
    split_and!; auto. intros ev Hev. destruct l2; simplify_eq/=.
    by eapply submissions_head.
  - destruct l1 as [|x [|y l1]]; simplify_eq/=; eauto.
  - destruct l1 as [|x [|y [|z l1]]]; simplify_eq/=.
  - destruct l1 as [|x [|y l1]]; simplify_eq/=.
Qed.

Lemma submissions_after_failed_patch r evs res l1 obj patch opts e l2 :
  submissions r evs res ->
  evs = l1 ++ CallPatch obj patch opts (Some e) :: l2 ->
  patch = client_Apply /\ opts = patchOptions r /\
  if errors_IsNotFound e then exists err l3, l2 = CallCreate obj [] err :: l3
  else l2 = [] /\ res = Err (fmt_Errorf "error patching object" e).
Proof.
  intros Hs. revert l1. induction Hs; intros l1 Heq.
  - by destruct l1.
  - destruct l1 as [|x l1]; simplify_eq/=; eauto.
  - destruct l1 as [|x l1]; simplify_eq/=; eauto.
  - destruct l1 as [|x [|y l1]]; simplify_eq/=; eauto.
    split_and!; auto. rewrite H0. eauto.
  - destruct l1 as [|x [|y [|z l1]]]; simplify_eq/=.
    split_and!; auto. rewrite H0. eauto.
  - destruct l1 as [|x [|y l1]]; simplify_eq/=.
    split_and!; auto. rewrite H0. eauto.
Qed.

Lemma submissions_before_create r evs res l1 obj opts err l2 :
  submissions r evs res ->
  evs = l1 ++ CallCreate obj opts err :: l2 ->
  opts = [] /\
  exists l0 e, l1 = l0 ++ [CallPatch obj client_Apply (patchOptions r) (Some e)] /\
               errors_IsNotFound e = true.
Proof.
  intros Hs. revert l1. induction Hs; intros l1 Heq.
  - by destruct l1.
  - destruct l1 as [|x l1]; simplify_eq/=.
    destruct (IHHs _ eq_refl) as (-> & l0 & e & -> & Hnf).
    split; [done|]. by exists (x :: l0), e.
  - destruct l1 as [|x l1]; simplify_eq/=.
    destruct (IHHs _ eq_refl) as (-> & l0 & e & -> & Hnf).
    split; [done|]. by exists (CallPatch obj0 client_Apply (patchOptions r) None :: l0), e.
  - destruct l1 as [|x [|y l1]]; simplify_eq/=.
    + split; [done|]. by exists [], e.
    + destruct (IHHs _ eq_refl) as (-> & l0 & e0 & -> & Hnf).
      split; [done|].
      by exists (CallPatch obj0 client_Apply (patchOptions r) (Some e)
                 :: CallCreate obj0 [] None :: l0), e0.
  - destruct l1 as [|x [|y [|z l1]]]; simplify_eq/=.
    split; [done|]. by exists [], e.
  - destruct l1 as [|x [|y l1]]; simplify_eq/=.
Qed.

(** ** The conversion of the resources *)

Lemma parse_resources_cons r rsc rest objs :
  parse_resources r (rsc :: rest) objs =
    match parse_resource r rsc with
    | Ok clientobj => parse_resources r rest (objs ++ [clientobj])
    | Err e => Err e
    end.
Proof.
  simpl. unfold parse_resource, rbind. destruct (unstructured r); reflexivity.
Qed.

Lemma parse_resources_Ok r resources objs out :
  parse_resources r resources objs = Ok out ->
  exists converted, out = objs ++ converted /\
    Forall2 (fun rsc obj => parse_resource r rsc = Ok obj) resources converted.
Proof.
  revert objs. induction resources as [|rsc rest IH]; intros objs.
  - simpl. intros [= <-]. exists []. by rewrite app_nil_r.
  - rewrite parse_resources_cons.
    destruct (parse_resource r rsc) as [obj|e] eqn:E; [|discriminate].
    intros Hrest. destruct (IH _ Hrest) as (converted & -> & Hall).
    exists (obj :: converted). rewrite <- app_assoc. split; [reflexivity|].
    by constructor.
Qed.

Lemma parse_resources_all r resources objs converted :
  Forall2 (fun rsc obj => parse_resource r rsc = Ok obj) resources converted ->
  parse_resources r resources objs = Ok (objs ++ converted).
Proof.
  intros Hall. revert objs. induction Hall as [|rsc obj rest converted E _ IH]; intros objs.
  - simpl. by rewrite app_nil_r.
  - rewrite parse_resources_cons, E, IH, <- app_assoc. reflexivity.
Qed.

(** One resource that does not convert fails the whole loop, with the error
    of the first such resource. *)
Lemma parse_resources_Err r resources objs rsc e0 :
  In rsc resources -> parse_resource r rsc = Err e0 ->
  exists pre rsc' post e,
    resources = pre ++ rsc' :: post /\
    Forall (fun x => is_Ok (parse_resource r x) = true) pre /\
    parse_resource r rsc' = Err e /\
    parse_resources r resources objs = Err e.
Proof.
  revert objs. induction resources as [|x rest IH]; intros objs Hin Hbad; [destruct Hin|].
  rewrite parse_resources_cons.
  destruct (parse_resource r x) as [obj|e] eqn:E.
  - destruct Hin as [->|Hin]; [congruence|].
    destruct (IH (objs ++ [obj]) Hin Hbad) as (pre & rsc' & post & e & -> & Hpre & Hrsc & Hres).
    exists (x :: pre), rsc', post, e. split_and!; auto.
    constructor; [by rewrite E|exact Hpre].
  - exists [], x, rest, e. split_and!; auto.
Qed.

Lemma unresolvable_typedObject r rsc :
  unresolvable r rsc -> exists e, typedObject r rsc = Err e.
Proof.
  unfold unresolvable, typedObject. cbv zeta.
  intros [[e E]|(ro & raw & ro' & E1 & E2 & E3 & E4)].
  - rewrite E. simpl. eauto.
  - rewrite E1. simpl. rewrite E2. simpl. rewrite E3. simpl. rewrite E4. eauto.
Qed.

(** ** Where the composition stands in a run of parse *)

Lemma hooks_run_In {A} (mk : nat -> A -> option error -> Event) msg n i x evs res ev :
  hooks_run mk msg n i x evs res -> In ev evs -> exists j y e, ev = mk j y e.
Proof.
  induction 1; simpl; intros Hin.
  - destruct Hin.
  - destruct Hin as [<-|Hin]; eauto.
  - destruct Hin as [<-|[]]; eauto.
Qed.

Lemma kust_run_In r fs evs res ev :
  kust_run r fs evs res -> In ev evs -> exists j y e, ev = CallKustomizeMutator j y e.
Proof.
  destruct 1; simpl; intros Hin; try (by destruct Hin);
    by eapply hooks_run_In.
Qed.

(** The composition is the last call of [parse]; the tree it is handed is
    what [mutateKustomization] made of what the filesystem hooks made of the
    loaded source, and what [parse] returns is the conversion of what the
    engine returned. *)
Lemma parse_run_composed r overlay evs res fs dir err :
  parse_run r overlay evs res ->
  In (CallKustomizer fs dir err) evs ->
  dir = path_Join "kustomize" overlay /\
  err = err_of (krusty_Run fs dir) /\
  res = match krusty_Run fs dir with
        | Err e => Err (fmt_Errorf "error running kustomize" e)
        | Ok rs => parse_resources r rs []
        end /\
  exists fs0 evs1 fs1 evs2,
    LoadFS (from r) = Ok fs0 /\
    hooks_run CallFSMutator "error mutating filesystem" (length (fsmutators r))
      0 fs0 evs1 (Ok fs1) /\
    kust_run r fs1 evs2 (Ok fs) /\
    evs = evs1 ++ evs2 ++ [CallKustomizer fs dir err].
Proof.
  destruct 1 as [e El|fs0 evs e El Hf|fs0 evs1 fs1 evs2 e El Hf Hk
                |fs0 evs1 fs1 evs2 fs2 El Hf Hk dir']; intros Hin.
  - destruct Hin.
  - destruct (hooks_run_In _ _ _ _ _ _ _ _ Hf Hin) as (? & ? & ? & [=]).
  - apply in_app_iff in Hin as [Hin|Hin].
    + destruct (hooks_run_In _ _ _ _ _ _ _ _ Hf Hin) as (? & ? & ? & [=]).
    + destruct (kust_run_In _ _ _ _ _ Hk Hin) as (? & ? & ? & [=]).
  - apply in_app_iff in Hin as [Hin|Hin].
    { destruct (hooks_run_In _ _ _ _ _ _ _ _ Hf Hin) as (? & ? & ? & [=]). }
    apply in_app_iff in Hin as [Hin|Hin].
    { destruct (kust_run_In _ _ _ _ _ Hk Hin) as (? & ? & ? & [=]). }
    destruct Hin as [[= <- <- <-]|[]].
    split_and!; auto. exists fs0, evs1, fs1, evs2. auto.
Qed.

(** ** The loop of Delete *)

Lemma deletions_app evs1 evs2 res :
  deletions evs1 (Ok tt) -> deletions evs2 res -> deletions (evs1 ++ evs2) res.
Proof.
  intros H1 H2. remember (Ok tt) as ok eqn:Eok.
  induction H1; subst; simpl; try discriminate.
  - exact H2.
  - apply deletions_mutated; auto.
  - apply deletions_deleted; auto.
  - apply deletions_absent; auto.
Qed.

Lemma hooks_run_deletions_Ok n i obj evs obj' :
  hooks_run CallObjectMutator "error mutating object" n i obj evs (Ok obj') ->
  deletions evs (Ok tt).
Proof.
  intros Hh. remember (Ok obj') as res eqn:Eres.
  induction Hh; subst; try discriminate.
  - constructor.
  - apply deletions_mutated; auto.
Qed.

Lemma hooks_run_deletions_Err n i obj evs e :
  hooks_run CallObjectMutator "error mutating object" n i obj evs (Err e) ->
  deletions evs (Err e).
Proof.
  intros Hh. remember (Err e) as res eqn:Eres.
  induction Hh; simplify_eq.
  - apply deletions_mutated; auto.
  - apply deletions_mutator_failed.
Qed.

Lemma delete_run_deletions r obj evs res : delete_run r obj evs res -> deletions evs res.
Proof.
  destruct 1.
  - by eapply hooks_run_deletions_Err.
  - apply deletions_app; [by eapply hooks_run_deletions_Ok|].
    apply deletions_deleted; constructor.
  - apply deletions_app; [by eapply hooks_run_deletions_Ok|].
    apply deletions_absent; [assumption|constructor].
  - apply deletions_app; [by eapply hooks_run_deletions_Ok|].
    by apply deletions_failed.
Qed.

Lemma range_run_deletions r objs evs res :
  range_run (delete_run r) objs evs res -> deletions evs res.
Proof.
  induction 1 as [|obj rest evs e Ht|obj rest evs evs' res Ht _ IH].
  - constructor.
  - by eapply delete_run_deletions.
  - apply deletions_app; [by eapply delete_run_deletions|exact IH].
Qed.

Lemma deletions_after_delete evs res l1 obj e l2 :
  deletions evs res ->
  evs = l1 ++ CallDelete obj (Some e) :: l2 ->
  if errors_IsNotFound e then l2 = [] -> res = Ok tt
  else l2 = [] /\ res = Err (fmt_Errorf "error deleting object" e).
Proof.
  intros Hd. revert l1. induction Hd; intros l1 Heq.
  - by destruct l1.
  - destruct l1 as [|x l1]; simplify_eq/=. apply (IHHd _ eq_refl).
  - destruct l1 as [|x [|y l1]]; simplify_eq/=.
  - destruct l1 as [|x l1]; simplify_eq/=. apply (IHHd _ eq_refl).
  - destruct l1 as [|x l1]; simplify_eq/=; [|apply (IHHd _ eq_refl)].
    rewrite H0. intros ->. by inversion Hd.
  - destruct l1 as [|x [|y l1]]; simplify_eq/=.
    rewrite H0. auto.
Qed.

Lemma deletions_events evs res ev :
  deletions evs res -> In ev evs -> tag ev = TDelete \/ exists i, tag ev = TObjectMutator i.
Proof.
  induction 1; simpl; intros Hin; try (by destruct Hin);
    destruct Hin as [<-|Hin]; simpl; eauto; by destruct Hin.
Qed.

(** A quiet prefix holds no delete request. *)
Lemma quiet_prefix_split pre evs l1 (ev : Event) l2 :
  quiet pre -> is_cluster_call ev = true ->
  pre ++ evs = l1 ++ ev :: l2 ->
  exists l1', l1 = pre ++ l1' /\ evs = l1' ++ ev :: l2.
Proof.
  intros Hq Hev. revert l1. induction Hq as [|x pre Hx _ IH]; intros l1 Heq; simpl in *.
  - by exists l1.
  - destruct l1 as [|y l1]; simplify_eq/=; [congruence|].
    destruct (IH _ H1) as (l1' & -> & ->). by exists l1'.
Qed.

Lemma Delete_run r overlay s objs :
  returned (parse r overlay s) = Ok objs ->
  let o := range (Delete_object r) objs (final (parse r overlay s)) in
  deletions (events o) (returned o).
Proof.
  intros _. cbv zeta. apply range_run_deletions with (r := r) (objs := objs).
  apply range_sound. apply Delete_object_run.
Qed.

(** Hooks that never fail, a client whose deletes only ever report "not
    found": the loop of [Delete] returns nil. *)
Lemma rangeHooks_total {A} (mk : nat -> A -> option error -> Event) msg
    (hooks : list (Hook A)) i x s :
  (forall mut y m, In mut hooks -> is_Ok (mut y m).1 = true) ->
  is_Ok (returned (rangeHooks mk msg i hooks x s)) = true.
Proof.
  revert i x s. induction hooks as [|h rest IH]; intros i x s Hok.
  - reflexivity.
  - rewrite rangeHooks_cons. cbv zeta.
    pose proof (Hok h x (memory s) (or_introl eq_refl)) as Hh.
    destruct (h x (memory s)) as [[x'|e] m]; simpl in *; [|discriminate].
    apply IH. intros mut y m' Hin. apply Hok. by right.
Qed.

Lemma range_Delete_total r objs s :
  (forall mut obj m, In mut (omutators r) -> is_Ok (mut obj m).1 = true) ->
  (forall obj c, match (cli_Delete (cli r) obj c).1 with
                 | Ok _ => True
                 | Err e => errors_IsNotFound e = true
                 end) ->
  returned (range (Delete_object r) objs s) = Ok tt.
Proof.
  intros Hmut Hdel. revert s. induction objs as [|obj rest IH]; intros s; simpl.
  - reflexivity.
  - assert (E : returned (Delete_object r obj s) = Ok tt).
    { unfold Delete_object.
      pose proof (rangeHooks_total CallObjectMutator "error mutating object"
                    (omutators r) 0 obj s Hmut) as Hok.
      destruct (returned (rangeHooks CallObjectMutator "error mutating object" 0
                            (omutators r) obj s)) as [obj1|e] eqn:E1; [|discriminate].
      rewrite (bind_Ok _ _ _ _ E1). simpl.
      unfold bind, attempt, callDelete. simpl.
      set (s1 := final (rangeHooks CallObjectMutator "error mutating object" 0
                          (omutators r) obj s)).
      specialize (Hdel obj1 (cluster s1)).
      destruct (cli_Delete (cli r) obj1 (cluster s1)) as [[[]|e] cl]; simpl in *.
      - reflexivity.
      - rewrite Hdel. reflexivity. }
    rewrite (bind_Ok _ _ _ _ E). simpl. apply IH.
Qed.

(** ** What mutateKustomization returns *)


(** ** The order of the calls *)

Lemma fits_nil ok : fits ok [] [].
Proof. split; [apply prefix_nil|done]. Qed.

Lemma fits_app ok ts1 sh1 ts2 sh2 :
  fits true ts1 sh1 -> fits ok ts2 sh2 -> fits ok (ts1 ++ ts2) (sh1 ++ sh2).
Proof.
  intros [_ H1] [Hp H2]. rewrite (H1 eq_refl). split.
  - by apply prefix_app.
  - intros Hok. by rewrite (H2 Hok).
Qed.

Lemma fits_stopped ts sh1 sh2 : fits false ts sh1 -> fits false ts (sh1 ++ sh2).
Proof. intros [Hp _]. split; [by apply prefix_app_r|done]. Qed.

Lemma fits_weaken ok ts sh : fits ok ts sh -> fits false ts sh.
Proof. intros [Hp _]. by split. Qed.

Lemma hooks_run_fits {A} (mk : nat -> A -> option error -> Event) (t : nat -> Tag)
    msg n i x evs res :
  (forall j y e, tag (mk j y e) = t j) ->
  hooks_run mk msg n i x evs res ->
  fits (is_Ok res) (tag <$> evs) (t <$> seq i (n - i)).
Proof.
  intros Ht. induction 1 as [x|i x x' evs res Hlt _ IH|i x e Hlt].
  - rewrite Nat.sub_diag. apply fits_nil.
  - replace (n - i) with (S (n - S i)) by lia. simpl. rewrite Ht.
    apply (fits_app _ [t i] [t i]); [by split|exact IH].
  - replace (n - i) with (S (n - S i)) by lia. simpl. rewrite Ht.
    split; [|done]. apply prefix_cons, prefix_nil.
Qed.



Lemma kust_run_fits r fs evs res :
  kust_run r fs evs res ->
  fits (is_Ok res) (tag <$> evs) (TKustomizeMutator <$> seq 0 (length (kmutators r))).
Proof.
  destruct 1 as [Hk|e Hk Hr|olddt e Hk Hr Hu|olddt kust evs e Hk Hr Hu Hh
                |olddt kust evs kust' Hk Hr Hu Hh].
  - rewrite Hk. apply fits_nil.
  - split; [apply prefix_nil|done].
  - split; [apply prefix_nil|done].
  - apply (hooks_run_fits _ TKustomizeMutator) in Hh; [|done].
    by rewrite Nat.sub_0_r in Hh.
  - apply (hooks_run_fits _ TKustomizeMutator) in Hh; [|done].
    rewrite Nat.sub_0_r in Hh. destruct Hh as [Hp Heq]. split; [exact Hp|].
    intros _. by apply Heq.
Qed.

Lemma parse_run_fits r overlay evs res :
  parse_run r overlay evs res -> fits (is_Ok res) (tag <$> evs) (parse_shape r).
Proof.
  unfold parse_shape.
  destruct 1 as [e El|fs0 evs e El Hf|fs0 evs1 fs1 evs2 e El Hf Hk
                |fs0 evs1 fs1 evs2 fs2 El Hf Hk dir].
  - split; [apply prefix_nil|done].
  - apply (hooks_run_fits _ TFSMutator) in Hf; [|done].
    rewrite Nat.sub_0_r in Hf. by apply fits_stopped.
  - apply (hooks_run_fits _ TFSMutator) in Hf; [|done].
    rewrite Nat.sub_0_r in Hf. apply kust_run_fits in Hk.
    rewrite fmap_app. apply fits_app; [exact Hf|]. by apply fits_stopped.
  - apply (hooks_run_fits _ TFSMutator) in Hf; [|done].
    rewrite Nat.sub_0_r in Hf. apply kust_run_fits in Hk.
    rewrite !fmap_app. apply fits_app; [exact Hf|]. apply fits_app; [exact Hk|].
    simpl. split; done.
Qed.

Lemma deletions_no_post_apply evs res :
  deletions evs res ->
  Forall (fun ev => is_post_apply ev = false /\ tag ev <> TPatch /\ tag ev <> TCreate) evs.
Proof. induction 1; repeat constructor; auto. Qed.

Lemma parse_run_no_post_apply r overlay evs res :
  parse_run r overlay evs res ->
  Forall (fun ev => is_post_apply ev = false /\ tag ev <> TPatch /\ tag ev <> TCreate) evs.
Proof.
  intros Hp. apply List.Forall_forall. intros ev Hin.
  assert (Hev : (exists j y e, ev = CallFSMutator j y e) \/
                (exists j y e, ev = CallKustomizeMutator j y e) \/
                (exists fs dir e, ev = CallKustomizer fs dir e)).
  { destruct Hp as [e El|fs0 evs e El Hf|fs0 evs1 fs1 evs2 e El Hf Hk
                   |fs0 evs1 fs1 evs2 fs2 El Hf Hk dir];
      rewrite ?in_app_iff in Hin.
    - destruct Hin.
    - left. by eapply hooks_run_In.
    - destruct Hin as [Hin|Hin]; [left; by eapply hooks_run_In|].
      right; left. by eapply kust_run_In.
    - destruct Hin as [Hin|[Hin|[<-|[]]]].
      + left. by eapply hooks_run_In.
      + right; left. by eapply kust_run_In.
      + right; right. eauto. }
  destruct Hev as [(? & ? & ? & ->)|[(? & ? & ? & ->)|(? & ? & ? & ->)]]; by simpl.
Qed.

(** ** The turns of the loop of Apply *)

Lemma Apply_object_eq r obj s :
  Apply_object r obj s =
    let m1 := rangeHooks CallObjectMutator "error mutating object" 0 (omutators r) obj s in
    match returned m1 with
    | Err e => mkOutcome (Err e) (final m1) (events m1)
    | Ok obj1 =>
        let m2 := Apply_submit r obj1 (final m1) in
        match returned m2 with
        | Err e => mkOutcome (Err e) (final m2) (events m1 ++ events m2)
        | Ok obj2 =>
            let m3 := rangeHooks CallPostApplyAction "error running post apply action" 0
                        (postApply r) obj2 (final m2) in
            mkOutcome (match returned m3 with Ok _ => Ok tt | Err e => Err e end)
              (final m3) (events m1 ++ events m2 ++ events m3)
        end
    end.
Proof.
  unfold Apply_object. cbv zeta.
  destruct (returned (rangeHooks CallObjectMutator "error mutating object" 0
                        (omutators r) obj s)) as [obj1|e] eqn:E1.
  - rewrite (bind_Ok _ _ _ _ E1).
    destruct (returned (Apply_submit r obj1 (final (rangeHooks CallObjectMutator
                "error mutating object" 0 (omutators r) obj s)))) as [obj2|e] eqn:E2.
    + rewrite (bind_Ok _ _ _ _ E2). simpl.
      destruct (returned (rangeHooks CallPostApplyAction "error running post apply action" 0
                  (postApply r) obj2 _)) as [obj3|e] eqn:E3.
      * rewrite (bind_Ok _ _ _ _ E3). simpl. by rewrite app_nil_r.
      * by rewrite (bind_Err _ _ _ _ E3).
    + by rewrite (bind_Err _ _ _ _ E2).
  - by rewrite (bind_Err _ _ _ _ E1).
Qed.

Lemma range_cons_Ok {A} (body : A -> M unit) obj rest s :
  returned (body obj s) = Ok tt ->
  range body (obj :: rest) s =
    let o := range body rest (final (body obj s)) in
    mkOutcome (returned o) (final o) (events (body obj s) ++ events o).
Proof. intros E. simpl. by rewrite (bind_Ok _ _ _ _ E). Qed.

Lemma range_cons_Err {A} (body : A -> M unit) obj rest s e :
  returned (body obj s) = Err e ->
  range body (obj :: rest) s = mkOutcome (Err e) (final (body obj s)) (events (body obj s)).
Proof. intros E. simpl. by rewrite (bind_Err _ _ _ _ E). Qed.

Lemma quiet_filter_cluster evs : quiet evs -> List.filter is_cluster_call evs = [].
Proof.
  induction 1 as [|ev evs Hev _ IH]; simpl; [done|]. by rewrite Hev.
Qed.

Lemma quiet_filter_patch evs : quiet evs -> List.filter is_patch evs = [].
Proof.
  induction 1 as [|ev evs Hev _ IH]; simpl; [done|].
  destruct ev; simpl in *; try done.
Qed.

Lemma submit_run_filter_cluster r obj evs res :
  submit_run r obj evs res -> List.filter is_cluster_call evs = evs.
Proof. by destruct 1. Qed.

Lemma submit_run_filter_patch r obj evs res :
  submit_run r obj evs res -> length (List.filter is_patch evs) = 1.
Proof. by destruct 1. Qed.

Lemma rangeHooks_quiet_mutators r obj s :
  quiet (events (rangeHooks CallObjectMutator "error mutating object" 0 (omutators r) obj s)).
Proof.
  destruct (rangeHooks_run CallObjectMutator "error mutating object" (omutators r) 0 obj s)
    as [Hh _]. eapply hooks_run_quiet; [|exact Hh]. done.
Qed.

Lemma rangeHooks_quiet_actions r obj s :
  quiet (events (rangeHooks CallPostApplyAction "error running post apply action" 0
                   (postApply r) obj s)).
Proof.
  destruct (rangeHooks_run CallPostApplyAction "error running post apply action"
              (postApply r) 0 obj s) as [Hh _].
  eapply hooks_run_quiet; [|exact Hh]. done.
Qed.

(** The calls to the cluster of a turn that returned nil are the submission
    of the object its mutators made. *)
Lemma Apply_object_Ok_calls r obj s :
  returned (Apply_object r obj s) = Ok tt ->
  exists obj1 obj2 evs,
    returned (rangeHooks CallObjectMutator "error mutating object" 0 (omutators r) obj s) =
      Ok obj1 /\
    submit_run r obj1 evs (Ok obj2) /\
    List.filter is_cluster_call (events (Apply_object r obj s)) = evs /\
    length (List.filter is_patch (events (Apply_object r obj s))) = 1.
Proof.
  rewrite Apply_object_eq. cbv zeta.
  pose proof (rangeHooks_quiet_mutators r obj s) as Hq1.
  destruct (returned (rangeHooks CallObjectMutator "error mutating object" 0
                        (omutators r) obj s)) as [obj1|e] eqn:E1; [|discriminate].
  set (s1 := final (rangeHooks CallObjectMutator "error mutating object" 0
                      (omutators r) obj s)) in *.
  destruct (Apply_submit_run r obj1 s1) as [Hs _].
  destruct (returned (Apply_submit r obj1 s1)) as [obj2|e] eqn:E2; [|discriminate].
  pose proof (rangeHooks_quiet_actions r obj2 (final (Apply_submit r obj1 s1))) as Hq3.
  intros _. cbn [events]. exists obj1, obj2, (events (Apply_submit r obj1 s1)).
  split_and!; auto.
  - rewrite !List.filter_app, (quiet_filter_cluster _ Hq1), (quiet_filter_cluster _ Hq3).
    rewrite app_nil_r, app_nil_l. by eapply submit_run_filter_cluster.
  - rewrite !List.filter_app, (quiet_filter_patch _ Hq1), (quiet_filter_patch _ Hq3).
    rewrite app_nil_r, app_nil_l. by eapply submit_run_filter_patch.
Qed.

(** ** The order of the calls of Apply *)

Lemma submit_run_fits r obj evs res :
  submit_run r obj evs res ->
  exists created : bool,
    fits (is_Ok res) (tag <$> evs) ([TPatch] ++ (if created then [TCreate] else [])).
Proof.
  destruct 1; simpl.
  - exists false. by split.
  - exists false. by split.
  - exists true. by split.
  - exists true. by split.
Qed.

Lemma object_run_fits r obj evs res :
  object_run r obj evs res ->
  exists created, fits (is_Ok res) (tag <$> evs) (object_shape r created).
Proof.
  unfold object_shape.
  destruct 1 as [evs e Hm|evs1 obj1 evs2 e Hm Hs|evs1 obj1 evs2 obj2 evs3 res Hm Hs Hp];
    apply (hooks_run_fits _ TObjectMutator) in Hm; try done;
    rewrite Nat.sub_0_r in Hm.
  - exists false. by apply fits_stopped.
  - destruct (submit_run_fits _ _ _ _ Hs) as [created Hsub]. exists created.
    rewrite fmap_app. apply fits_app; [exact Hm|].
    rewrite (app_assoc [TPatch]). by apply fits_stopped.
  - destruct (submit_run_fits _ _ _ _ Hs) as [created Hsub]. exists created.
    apply (hooks_run_fits _ TPostApplyAction) in Hp; [|done].
    rewrite Nat.sub_0_r in Hp.
    rewrite !fmap_app. apply fits_app; [exact Hm|].
    rewrite (app_assoc [TPatch]). apply fits_app; [exact Hsub|].
    by destruct res.
Qed.

Lemma range_run_object_fits r objs evs res :
  range_run (object_run r) objs evs res ->
  exists created, length created = length objs /\
    fits (is_Ok res) (tag <$> evs) (flat_map (object_shape r) created).
Proof.
  induction 1 as [|obj rest evs e Ht|obj rest evs evs' res Ht _ IH].
  - exists []. split; [done|apply fits_nil].
  - destruct (object_run_fits _ _ _ _ Ht) as [c Hc].
    exists (c :: repeat false (length rest)). simpl. rewrite repeat_length.
    split; [done|]. by apply fits_stopped.
  - destruct (object_run_fits _ _ _ _ Ht) as [c Hc].
    destruct IH as (created & Hlen & Hfits).
    exists (c :: created). simpl. split; [by rewrite Hlen|].
    rewrite fmap_app. by apply fits_app.
Qed.

Lemma entries_app r evs1 evs2 : entries r (evs1 ++ evs2) = entries r evs1 ++ entries r evs2.
Proof. apply omap_app. Qed.

Lemma hooks_run_entries_later r msg n i obj evs res :
  0 < i -> hooks_run CallObjectMutator msg n i obj evs res -> entries r evs = [].
Proof.
  intros Hi. induction 1 as [x|i x x' evs res Hlt _ IH|i x e Hlt].
  - done.
  - unfold entries in *. simpl. destruct i; [lia|]. apply IH. lia.
  - unfold entries. simpl. destruct i; [lia|done].
Qed.

Lemma hooks_run_entries_first r msg n obj evs res :
  hooks_run CallObjectMutator msg n 0 obj evs res ->
  entries r evs = if n =? 0 then [] else [obj].
Proof.
  inversion 1 as [x Hn|i x x' evs' res' Hlt Hrest|i x e Hlt]; subst.
  - done.
  - destruct n; [lia|].
    pose proof (hooks_run_entries_later r msg (S n) 1 x' evs' res
                  ltac:(lia) Hrest) as Hlater.
    unfold entries in *. simpl. f_equal. exact Hlater.
  - by destruct n; [lia|].
Qed.

Lemma hooks_run_none_registered {A} (mk : nat -> A -> option error -> Event) msg x evs res :
  hooks_run mk msg 0 0 x evs res -> evs = [] /\ res = Ok x.
Proof. inversion 1; subst; [done|lia|lia]. Qed.

Lemma hooks_run_entries_actions r msg n i obj evs res :
  hooks_run CallPostApplyAction msg n i obj evs res -> entries r evs = [].
Proof. induction 1; unfold entries in *; simpl; auto. Qed.

Lemma submit_run_entries r obj evs res :
  submit_run r obj evs res ->
  entries r evs = if length (omutators r) =? 0 then [obj] else [].
Proof.
  destruct 1; unfold entries; simpl; by destruct (length (omutators r) =? 0).
Qed.

(** Every turn of the loop of [Apply] starts on its object. *)
Lemma object_run_entries r obj evs res : object_run r obj evs res -> entries r evs = [obj].
Proof.
  destruct 1 as [evs e Hm|evs1 obj1 evs2 e Hm Hs|evs1 obj1 evs2 obj2 evs3 res Hm Hs Hp].
  - rewrite (hooks_run_entries_first _ _ _ _ _ _ Hm).
    destruct (length (omutators r)) eqn:En; [|done].
    by apply hooks_run_none_registered in Hm as [_ ?].
  - rewrite entries_app, (hooks_run_entries_first _ _ _ _ _ _ Hm),
      (submit_run_entries _ _ _ _ Hs).
    destruct (length (omutators r)) eqn:En; [|done].
    by apply hooks_run_none_registered in Hm as [_ [= ->]].
  - rewrite !entries_app, (hooks_run_entries_first _ _ _ _ _ _ Hm),
      (submit_run_entries _ _ _ _ Hs), (hooks_run_entries_actions _ _ _ _ _ _ _ Hp).
    destruct (length (omutators r)) eqn:En; [|done].
    by apply hooks_run_none_registered in Hm as [_ [= ->]].
Qed.

Lemma range_run_entries r objs evs res :
  range_run (object_run r) objs evs res ->
  entries r evs `prefix_of` objs /\ (res = Ok tt -> entries r evs = objs).
Proof.
  induction 1 as [|obj rest evs e Ht|obj rest evs evs' res Ht _ [IHp IHe]].
  - done.
  - rewrite (object_run_entries _ _ _ _ Ht). split; [|done].
    apply (prefix_cons obj [] rest), prefix_nil.
  - rewrite entries_app, (object_run_entries _ _ _ _ Ht). simpl. split.
    + by apply prefix_cons.
    + intros Hok. by rewrite IHe.
Qed.

Lemma parse_run_kinds r overlay evs res ev :
  parse_run r overlay evs res -> In ev evs ->
  (exists j y e, ev = CallFSMutator j y e) \/
  (exists j y e, ev = CallKustomizeMutator j y e) \/
  (exists fs dir e, ev = CallKustomizer fs dir e).
Proof.
  intros Hp Hin.
  destruct Hp as [e El|fs0 evs e El Hf|fs0 evs1 fs1 evs2 e El Hf Hk
                 |fs0 evs1 fs1 evs2 fs2 El Hf Hk dir];
    rewrite ?in_app_iff in Hin.
  - destruct Hin.
  - left. by eapply hooks_run_In.
  - destruct Hin as [Hin|Hin]; [left; by eapply hooks_run_In|].
    right; left. by eapply kust_run_In.
  - destruct Hin as [Hin|[Hin|[<-|[]]]].
    + left. by eapply hooks_run_In.
    + right; left. by eapply kust_run_In.
    + right; right. eauto.
Qed.

Lemma parse_run_entries r overlay evs res : parse_run r overlay evs res -> entries r evs = [].
Proof.
  intros Hp. unfold entries.
  assert (Hall : Forall (fun ev => entry r ev = None) evs).
  { apply List.Forall_forall. intros ev Hin.
    destruct (parse_run_kinds _ _ _ _ _ Hp Hin)
      as [(? & ? & ? & ->)|[(? & ? & ? & ->)|(? & ? & ? & ->)]]; done. }
  clear Hp. induction Hall as [|ev evs Hev _ IH]; simpl; [done|]. by rewrite Hev.
Qed.

Lemma NewRenderer_snoc c emb (opts : list Option) (opt : Option) :
  NewRenderer c emb (opts ++ [opt]) = opt (NewRenderer c emb opts).
Proof. unfold NewRenderer. by rewrite fold_left_app. Qed.

(** ** The tree a render starts from *)

Lemma hooks_run_head {A} (mk : nat -> A -> option error -> Event) msg n i x evs res ev :
  hooks_run mk msg n i x evs res -> head evs = Some ev -> exists e, ev = mk i x e.
Proof. destruct 1; simpl; intros [=]; eauto. Qed.

Lemma hooks_run_nil {A} (mk : nat -> A -> option error -> Event) msg n i x res :
  hooks_run mk msg n i x [] res -> i = n /\ res = Ok x.
Proof. inversion 1; subst. done. Qed.

Lemma head_app_cons {A} (l1 l2 : list A) x : head l1 = Some x -> head (l1 ++ l2) = Some x.
Proof. by destruct l1. Qed.

Lemma kust_run_head r fs evs res ev :
  kust_run r fs evs res -> head evs = Some ev ->
  exists kust e olddt, ev = CallKustomizeMutator 0 kust e /\
    fs_ReadFile fs BaseKustomizationPath = Ok olddt /\ yaml_Unmarshal olddt = Ok kust.
Proof.
  destruct 1 as [Hk|e Hk Hr|olddt e Hk Hr Hu|olddt kust evs e Hk Hr Hu Hh
                |olddt kust evs kust' Hk Hr Hu Hh]; simpl; intros Hhd; try discriminate;
    destruct (hooks_run_head _ _ _ _ _ _ _ _ Hh Hhd) as [e' ->]; eauto 6.
Qed.

Lemma kust_run_nil_Ok r fs fs' : kust_run r fs [] (Ok fs') -> kmutators r = [] /\ fs' = fs.
Proof.
  intros Hrun. remember [] as evs eqn:Hevs. remember (Ok fs') as res eqn:Hres.
  destruct Hrun as [Hk| | | |olddt kust evs kust' Hk Hr Hu Hh]; try discriminate.
  - by injection Hres as ->.
  - subst evs. apply hooks_run_nil in Hh as [Hn _].
    destruct (kmutators r); [done|discriminate].
Qed.

Lemma parse_run_head r overlay evs res ev :
  parse_run r overlay evs res -> head evs = Some ev ->
  exists fs0, LoadFS (from r) = Ok fs0 /\ starts_from r fs0 ev.
Proof.
  destruct 1 as [e El|fs0 evs e El Hf|fs0 evs1 fs1 evs2 e El Hf Hk
                |fs0 evs1 fs1 evs2 fs2 El Hf Hk dir]; intros Hhd.
  - discriminate.
  - exists fs0. split; [done|].
    by destruct (hooks_run_head _ _ _ _ _ _ _ _ Hf Hhd) as [e' ->].
  - exists fs0. split; [done|]. destruct evs1 as [|ev1 evs1].
    + apply hooks_run_nil in Hf as [Hn [= ->]]. simpl in Hhd.
      destruct (kust_run_head _ _ _ _ _ Hk Hhd) as (kust & e' & olddt & -> & Hr & Hu).
      simpl. split_and!; eauto. by destruct (fsmutators r).
    + simpl in Hhd. injection Hhd as ->.
      by destruct (hooks_run_head _ _ _ _ _ _ _ _ Hf eq_refl) as [e' ->].
  - exists fs0. split; [done|]. destruct evs1 as [|ev1 evs1].
    + apply hooks_run_nil in Hf as [Hn [= ->]]. simpl in Hhd.
      assert (Hfs : fsmutators r = []) by (by destruct (fsmutators r)).
      destruct evs2 as [|ev2 evs2].
      * apply kust_run_nil_Ok in Hk as [Hk ->]. simpl in Hhd. injection Hhd as <-.
        by simpl.
      * simpl in Hhd. injection Hhd as ->.
        destruct (kust_run_head _ _ _ _ _ Hk eq_refl) as (kust & e' & olddt & -> & Hr & Hu).
        simpl. split_and!; eauto.
    + simpl in Hhd. injection Hhd as ->.
      by destruct (hooks_run_head _ _ _ _ _ _ _ _ Hf eq_refl) as [e' ->].
Qed.

Lemma parse_run_Ok_events r overlay evs objs :
  parse_run r overlay evs (Ok objs) -> exists ev, head evs = Some ev.
Proof.
  intros Hrun. remember (Ok objs) as res eqn:Hres.
  destruct Hrun as [| | |fs0 evs1 fs1 evs2 fs2 El Hf Hk dir]; try discriminate.
  destruct evs1; [destruct evs2|]; simpl; eauto.
Qed.

Lemma Apply_head r overlay s :
  head (events (Apply r overlay s)) = head (events (parse r overlay s)).
Proof.
  destruct (parse_run_sound r overlay s) as [Hp _].
  destruct (returned (parse r overlay s)) as [objs|e] eqn:E.
  - rewrite (Apply_parse_Ok _ _ _ _ E). simpl.
    destruct (parse_run_Ok_events _ _ _ _ Hp) as [ev Hev].
    rewrite Hev. by apply head_app_cons.
  - by rewrite (Apply_parse_Err _ _ _ _ E).
Qed.

Lemma Delete_head r overlay s :
  head (events (Delete r overlay s)) = head (events (parse r overlay s)).
Proof.
  destruct (parse_run_sound r overlay s) as [Hp _].
  destruct (returned (parse r overlay s)) as [objs|e] eqn:E.
  - rewrite (Delete_parse_Ok _ _ _ _ E). simpl.
    destruct (parse_run_Ok_events _ _ _ _ Hp) as [ev Hev].
    rewrite Hev. by apply head_app_cons.
  - by rewrite (Delete_parse_Err _ _ _ _ E).
Qed.

(** ** Running the fake *)

Lemma last_Some_In {A} (l : list A) x : last l = Some x -> In x l.
Proof. intros Hl. apply list_elem_of_In. by eapply last_Some_elem_of. Qed.

(** ** What LoadFS copies *)

Lemma write_files_app files1 files2 to :
  write_files (files1 ++ files2) to =
    match write_files files1 to with
    | Ok to' => write_files files2 to'
    | Err e => Err e
    end.
Proof.
  revert to. induction files1 as [|[path fcontent] rest IH]; intros to; simpl; [done|].
  destruct (fs_WriteFile to path fcontent) as [to'|e]; simpl; [apply IH|done].
Qed.

Lemma readdir_readable from :
  forall dir to, readable from = true ->
    readdir dir from to = write_files (embed_files dir from) to.
Proof.
  revert from. fix IH 1. intros [entries|e] dir to; [|discriminate].
  revert entries to. fix IHl 1. intros [|entry rest] to Hr.
  - reflexivity.
  - destruct entry as [name read|name sub].
    + simpl in Hr. apply andb_prop in Hr as [Hread Hrest].
      destruct read as [fcontent|e]; [|discriminate].
      specialize (IHl rest). simpl in *.
      destruct (fs_WriteFile to (path_Join dir name) fcontent) as [to'|e]; simpl; [|done].
      by apply IHl.
    + simpl in Hr. apply andb_prop in Hr as [Hsub Hrest].
      specialize (IHl rest). pose proof (IH sub (path_Join dir name) to Hsub) as Hdir.
      simpl in *. rewrite Hdir, write_files_app.
      destruct (write_files (embed_files (path_Join dir name) sub) to) as [to'|e]; simpl;
        [|done].
      by apply IHl.
Qed.

Lemma readdir_error from :
  forall dir to e, readdir dir from to = Err e -> copy_error e.
Proof.
  revert from. fix IH 1. intros [entries|e0] dir to e.
  2:{ simpl. intros [= <-]. exists e0. by left. }
  revert entries to. fix IHl 1. intros [|entry rest] to Hr.
  - discriminate.
  - destruct entry as [name read|name sub].
    + specialize (IHl rest). simpl in *.
      destruct read as [fcontent|e1]; simpl in Hr.
      * destruct (fs_WriteFile to (path_Join dir name) fcontent) as [to'|e2]; simpl in Hr.
        -- by eapply IHl.
        -- injection Hr as <-. exists e2. by right; right.
      * injection Hr as <-. exists e1. by right; left.
    + specialize (IHl rest). pose proof (IH sub (path_Join dir name) to) as Hdir.
      simpl in *.
      destruct (readdir (path_Join dir name) sub to) as [to'|e1]; simpl in Hr.
      * by eapply IHl.
      * injection Hr as <-. by eapply Hdir.
Qed.

(** ** The errors of the stages *)

Lemma LoadFS_Err content e :
  LoadFS content = Err e ->
  exists stage, e = fmt_Errorf "error loading embed files" stage /\ copy_error stage.
Proof.
  unfold LoadFS. intros Hl. apply orErrorf_Err in Hl as (stage & Hr & ->).
  exists stage. split; [done|]. by eapply readdir_error.
Qed.

Lemma hooks_run_Err {A} (mk : nat -> A -> option error -> Event) msg n i x evs e :
  hooks_run mk msg n i x evs (Err e) ->
  exists j y cause, e = fmt_Errorf msg cause /\ last evs = Some (mk j y (Some cause)).
Proof.
  intros Hh. remember (Err e) as res eqn:Hres.
  induction Hh as [x|i x x' evs res Hlt Hrest IH|i x e' Hlt]; simplify_eq.
  - destruct (IH eq_refl) as (j & y & cause & -> & Hlast).
    exists j, y, cause. split; [done|].
    destruct evs; [done|]. exact Hlast.
  - by exists i, x, e'.
Qed.

Lemma kust_run_Err r fs evs e : kust_run r fs evs (Err e) -> kustomization_error e.
Proof.
  intros Hrun. remember (Err e) as res eqn:Hres. unfold kustomization_error.
  destruct Hrun as [Hk|e' Hk Hr|olddt e' Hk Hr Hu|olddt kust evs e' Hk Hr Hu Hh
                   |olddt kust evs kust' Hk Hr Hu Hh]; simplify_eq; eauto 7.
  - apply hooks_run_Err in Hh as (j & y & cause & -> & _). eauto 7.
  - destruct (yaml_Marshal kust') as [newdt|e']; simplify_eq; [|eauto 7].
    apply orErrorf_Err in Hres as (cause & _ & ->). eauto 7.
Qed.

Lemma typedObject_Err r rsc e :
  typedObject r rsc = Err e ->
  (exists cause, e = fmt_Errorf "unable to instantiate runtime object" cause \/
                 e = fmt_Errorf "error marshaling resource" cause \/
                 e = fmt_Errorf "error unmarshaling into object" cause) \/
  (exists gvkstr, e = errors_New (gvkstr +:+ " is not client.Object")).
Proof.
  unfold typedObject.
  destruct (cli_Scheme_New _ _) as [ro|e1]; simpl; [|intros [= <-]; eauto 6].
  destruct (rsc_MarshalJSON rsc) as [raw|e2]; simpl; [|intros [= <-]; eauto 6].
  destruct (json_Unmarshal raw ro) as [ro'|e3]; simpl; [|intros [= <-]; eauto 6].
  destruct (as_client_Object ro'); [discriminate|]. intros [= <-]. eauto.
Qed.

Lemma parse_resource_Err r rsc e : parse_resource r rsc = Err e -> conversion_error r e.
Proof.
  unfold parse_resource, conversion_error. destruct (unstructured r).
  - unfold unstructuredObject.
    destruct (rsc_AsYAML rsc) as [data|e1]; simpl; [|intros [= <-]; eauto].
    destruct (Decode_Unstructured data) as [obj|e2]; simpl; [discriminate|].
    intros [= <-]. eauto.
  - apply typedObject_Err.
Qed.

Lemma parse_resources_error r resources objs e :
  parse_resources r resources objs = Err e -> conversion_error r e.
Proof.
  revert objs. induction resources as [|rsc rest IH]; intros objs; [discriminate|].
  rewrite parse_resources_cons.
  destruct (parse_resource r rsc) as [obj|e'] eqn:E; [apply IH|].
  intros [= <-]. by eapply parse_resource_Err.
Qed.

Lemma submit_run_Err r obj evs e :
  submit_run r obj evs (Err e) ->
  (exists cause, e = fmt_Errorf "error patching object" cause /\
                 errors_IsNotFound cause = false) \/
  (exists cause, e = fmt_Errorf "error creating object" cause).
Proof. inversion 1; subst; eauto. Qed.

Lemma range_run_Err {A} (turn : A -> list Event -> result unit -> Prop) objs evs e :
  range_run turn objs evs (Err e) -> exists obj evs', In obj objs /\ turn obj evs' (Err e).
Proof.
  intros Hrun. remember (Err e) as res eqn:Hres.
  induction Hrun as [|obj rest evs e' Ht|obj rest evs evs' res Ht _ IH]; simplify_eq.
  - exists obj, evs. split; [by left|done].
  - destruct (IH eq_refl) as (obj' & evs'' & Hin & Ht'). exists obj', evs''.
    split; [by right|done].
Qed.

(** ** The objects Delete asks the cluster to delete *)

Lemma quiet_not_deleted evs : quiet evs -> omap deleted_object evs = [].
Proof.
  induction 1 as [|ev evs Hev _ IH]; [done|].
  destruct ev; simpl in *; try discriminate; exact IH.
Qed.

Lemma mutated_nil r obj obj1 : omutators r = [] -> mutated r obj obj1 -> obj1 = obj.
Proof. intros Hnil [s Hs]. rewrite Hnil in Hs. simpl in Hs. congruence. Qed.

Lemma Delete_object_deleted r obj s :
  returned (Delete_object r obj s) = Ok tt ->
  exists obj1, mutated r obj obj1 /\
               omap deleted_object (events (Delete_object r obj s)) = [obj1].
Proof.
  unfold Delete_object.
  set (m1 := rangeHooks CallObjectMutator "error mutating object" 0 (omutators r) obj).
  destruct (rangeHooks_run CallObjectMutator "error mutating object" (omutators r) 0 obj s)
    as [H1 _]. fold m1 in H1. simpl in H1.
  apply hooks_run_quiet in H1; [|done]. apply quiet_not_deleted in H1.
  destruct (returned (m1 s)) as [obj1|e] eqn:E1.
  - rewrite (bind_Ok _ _ _ _ E1). cbn [returned events]. intros _.
    exists obj1. split; [by exists s|].
    rewrite omap_app, H1. unfold bind, attempt, callDelete. simpl.
    destruct (cli_Delete (cli r) obj1 (cluster (final (m1 s)))) as [[[]|e] cl]; simpl.
    + reflexivity.
    + by destruct (errors_IsNotFound e).
  - rewrite (bind_Err _ _ _ _ E1). discriminate.
Qed.

Lemma range_Delete_deleted r objs s :
  returned (range (Delete_object r) objs s) = Ok tt ->
  Forall2 (mutated r) objs (omap deleted_object (events (range (Delete_object r) objs s))).
Proof.
  revert s. induction objs as [|obj rest IH]; intros s; simpl.
  - constructor.
  - destruct (returned (Delete_object r obj s)) as [[]|e] eqn:E.
    + rewrite (bind_Ok _ _ _ _ E). cbn [returned events]. intros Hrest.
      destruct (Delete_object_deleted r obj s E) as (obj1 & Hmut & Hev).
      rewrite omap_app, Hev. simpl. constructor; [exact Hmut|by apply IH].
    + rewrite (bind_Err _ _ _ _ E). discriminate.
Qed.

Lemma Forall2_mutated_nil r objs objs1 :
  omutators r = [] -> Forall2 (mutated r) objs objs1 -> objs1 = objs.
Proof.
  intros Hnil. induction 1 as [|obj obj1 objs objs1 Hm _ IH]; [done|].
  by rewrite (mutated_nil r obj obj1 Hnil Hm), IH.
Qed.

(** ** Which hook a numbered call is *)

Lemma explained_app r m evs1 m1 evs2 m2 :
  explained r m evs1 m1 -> explained r m1 evs2 m2 -> explained r m (evs1 ++ evs2) m2.
Proof.
  induction 1 as [m|m ev m1 evs m' Hstep _ IH]; intros H2; simpl; [done|].
  eapply explained_cons; [exact Hstep|by apply IH].
Qed.

Lemma keeps_log_ret r {A} (a : A) : keeps_log r (ret a).
Proof. intros s. constructor. Qed.

Lemma keeps_log_lift r {A} (x : result A) : keeps_log r (lift x).
Proof. intros s. constructor. Qed.

Lemma keeps_log_bind r {A B} (c : M A) (k : A -> M B) :
  keeps_log r c -> (forall a, keeps_log r (k a)) -> keeps_log r (bind c k).
Proof.
  intros Hc Hk s. specialize (Hc s). unfold bind.
  destruct (returned (c s)) as [a|e]; simpl; [|exact Hc].
  eapply explained_app; [exact Hc|apply Hk].
Qed.

Lemma keeps_log_wrapf r {A} msg (c : M A) : keeps_log r c -> keeps_log r (wrapf msg c).
Proof. intros Hc s. apply Hc. Qed.

Lemma keeps_log_attempt r {A} (c : M A) : keeps_log r c -> keeps_log r (attempt c).
Proof. intros Hc s. apply Hc. Qed.

Lemma keeps_log_callPatch r c obj patch opts : keeps_log r (callPatch c obj patch opts).
Proof.
  intros s. unfold callPatch. destruct (cli_Patch c obj patch opts (cluster s)) as [res cl].
  simpl. eapply explained_cons; [reflexivity|constructor].
Qed.

Lemma keeps_log_callCreate r c obj opts : keeps_log r (callCreate c obj opts).
Proof.
  intros s. unfold callCreate. destruct (cli_Create c obj opts (cluster s)) as [res cl].
  simpl. eapply explained_cons; [reflexivity|constructor].
Qed.

Lemma keeps_log_callDelete r c obj : keeps_log r (callDelete c obj).
Proof.
  intros s. unfold callDelete. destruct (cli_Delete c obj (cluster s)) as [res cl].
  simpl. eapply explained_cons; [reflexivity|constructor].
Qed.

Lemma keeps_log_callKustomizer r fs dir : keeps_log r (callKustomizer fs dir).
Proof. intros s. simpl. eapply explained_cons; [reflexivity|constructor]. Qed.

(** A hook loop over the hooks registered from position [length pre] on
    calls, under each number, the hook registered at that position. *)
Lemma keeps_log_rangeHooks r {A} (mk : nat -> A -> option error -> Event) msg
    (all : list (Hook A)) :
  (forall j x err m,
     hook_step r (mk j x err) m =
       (fun h : Hook A => (err_of (h x m).1, (h x m).2)) <$> all !! j) ->
  (forall j x err, event_err (mk j x err) = err) ->
  forall (rest pre : list (Hook A)) x,
    all = pre ++ rest -> keeps_log r (rangeHooks mk msg (length pre) rest x).
Proof.
  intros Hstep Herr rest. induction rest as [|h rest IH]; intros pre x Hall s.
  - constructor.
  - rewrite rangeHooks_cons. cbv zeta.
    assert (Hh : all !! length pre = Some h) by (rewrite Hall; apply list_lookup_middle; done).
    assert (Hrest : all = (pre ++ [h]) ++ rest) by (by rewrite <- app_assoc).
    specialize (IH (pre ++ [h])). rewrite length_app in IH. simpl in IH.
    rewrite Nat.add_1_r in IH.
    destruct (h x (memory s)) as [[x'|e] m1] eqn:Eh; simpl.
    + eapply explained_cons.
      * rewrite Hstep, Hh, Herr. simpl. by rewrite Eh.
      * apply (IH x' Hrest (mkState (cluster s) m1)).
    + eapply explained_cons; [|constructor].
      rewrite Hstep, Hh, Herr. simpl. by rewrite Eh.
Qed.

Lemma keeps_log_fsmutators r fs :
  keeps_log r (rangeHooks CallFSMutator "error mutating filesystem" 0 (fsmutators r) fs).
Proof. apply (keeps_log_rangeHooks r _ _ (fsmutators r)) with (pre := []); done. Qed.

Lemma keeps_log_kmutators r kust :
  keeps_log r (rangeHooks CallKustomizeMutator "error mutating kustomization" 0
                 (kmutators r) kust).
Proof. apply (keeps_log_rangeHooks r _ _ (kmutators r)) with (pre := []); done. Qed.

Lemma keeps_log_omutators r obj :
  keeps_log r (rangeHooks CallObjectMutator "error mutating object" 0 (omutators r) obj).
Proof. apply (keeps_log_rangeHooks r _ _ (omutators r)) with (pre := []); done. Qed.

Lemma keeps_log_postApply r obj :
  keeps_log r (rangeHooks CallPostApplyAction "error running post apply action" 0
                 (postApply r) obj).
Proof. apply (keeps_log_rangeHooks r _ _ (postApply r)) with (pre := []); done. Qed.

Lemma keeps_log_range r {A} (body : A -> M unit) objs :
  (forall obj, keeps_log r (body obj)) -> keeps_log r (range body objs).
Proof.
  intros Hbody. induction objs as [|obj rest IH]; simpl.
  - apply keeps_log_ret.
  - apply keeps_log_bind; [apply Hbody|by intros _].
Qed.

Lemma keeps_log_mutateKustomization r fs : keeps_log r (mutateKustomization r fs).
Proof.
  unfold mutateKustomization. destruct (length (kmutators r) =? 0).
  - apply keeps_log_ret.
  - apply keeps_log_bind; [apply keeps_log_lift|intros olddt].
    apply keeps_log_bind; [apply keeps_log_lift|intros kust].
    apply keeps_log_bind; [apply keeps_log_kmutators|intros kust1].
    apply keeps_log_bind; [apply keeps_log_lift|intros newdt].
    apply keeps_log_lift.
Qed.

Lemma keeps_log_parse r overlay : keeps_log r (parse r overlay).
Proof.
  unfold parse.
  apply keeps_log_bind; [apply keeps_log_lift|intros fs0].
  apply keeps_log_bind; [apply keeps_log_fsmutators|intros fs1].
  apply keeps_log_bind; [apply keeps_log_wrapf, keeps_log_mutateKustomization|intros fs2].
  apply keeps_log_bind; [apply keeps_log_wrapf, keeps_log_callKustomizer|intros res].
  apply keeps_log_lift.
Qed.

Lemma keeps_log_Apply_submit r obj : keeps_log r (Apply_submit r obj).
Proof.
  unfold Apply_submit. cbv zeta.
  apply keeps_log_bind; [apply keeps_log_attempt, keeps_log_callPatch|].
  intros [obj'|e]; [apply keeps_log_ret|].
  destruct (negb (errors_IsNotFound e)).
  - apply keeps_log_lift.
  - apply keeps_log_wrapf, keeps_log_callCreate.
Qed.

Lemma keeps_log_Apply_object r obj : keeps_log r (Apply_object r obj).
Proof.
  unfold Apply_object.
  apply keeps_log_bind; [apply keeps_log_omutators|intros obj1].
  apply keeps_log_bind; [apply keeps_log_Apply_submit|intros obj2].
  apply keeps_log_bind; [apply keeps_log_postApply|intros _].
  apply keeps_log_ret.
Qed.

Lemma keeps_log_Apply r overlay : keeps_log r (Apply r overlay).
Proof.
  unfold Apply. apply keeps_log_bind.
  - apply keeps_log_wrapf, keeps_log_parse.
  - intros objs. apply keeps_log_range, keeps_log_Apply_object.
Qed.

Lemma keeps_log_Delete_object r obj : keeps_log r (Delete_object r obj).
Proof.
  unfold Delete_object.
  apply keeps_log_bind; [apply keeps_log_omutators|intros obj1].
  apply keeps_log_bind; [apply keeps_log_attempt, keeps_log_callDelete|].
  intros [[]|e]; [apply keeps_log_ret|].
  destruct (errors_IsNotFound e); [apply keeps_log_ret|apply keeps_log_lift].
Qed.

Lemma keeps_log_Delete r overlay : keeps_log r (Delete r overlay).
Proof.
  unfold Delete. apply keeps_log_bind.
  - apply keeps_log_wrapf, keeps_log_parse.
  - intros objs. apply keeps_log_range, keeps_log_Delete_object.
Qed.

(** ** Counting the calls of Apply *)

Lemma quiet_filter_create evs : quiet evs -> List.filter is_create evs = [].
Proof.
  induction 1 as [|ev evs Hev _ IH]; simpl; [done|].
  destruct ev; simpl in *; try done.
Qed.

Lemma quiet_filter_delete evs : quiet evs -> List.filter is_delete evs = [].
Proof.
  induction 1 as [|ev evs Hev _ IH]; simpl; [done|].
  destruct ev; simpl in *; try done.
Qed.

Lemma hooks_run_quiet_mutators msg n i obj evs res :
  hooks_run CallObjectMutator msg n i obj evs res -> quiet evs.
Proof. apply hooks_run_quiet. done. Qed.

Lemma hooks_run_quiet_actions msg n i obj evs res :
  hooks_run CallPostApplyAction msg n i obj evs res -> quiet evs.
Proof. apply hooks_run_quiet. done. Qed.

Lemma object_run_counts r obj evs res :
  object_run r obj evs res ->
  let patches := length (List.filter is_patch evs) in
  let creates := length (List.filter is_create evs) in
  patches <= 1 /\ creates <= patches /\ (res = Ok tt -> patches = 1) /\
  List.filter is_delete evs = [].
Proof.
  cbv zeta.
  destruct 1 as [evs e Hm|evs1 obj1 evs2 e Hm Hs|evs1 obj1 evs2 obj2 evs3 res Hm Hs Hp];
    apply hooks_run_quiet_mutators in Hm;
    rewrite ?List.filter_app, ?(quiet_filter_patch _ Hm), ?(quiet_filter_create _ Hm),
      ?(quiet_filter_delete _ Hm).
  - simpl. split_and!; [lia|lia|done|done].
  - destruct Hs; simpl; split_and!; try lia; done.
  - apply hooks_run_quiet_actions in Hp.
    rewrite ?(quiet_filter_patch _ Hp), ?(quiet_filter_create _ Hp),
      ?(quiet_filter_delete _ Hp), ?app_nil_r.
    destruct Hs; simpl; split_and!; try lia; done.
Qed.

Lemma range_run_counts r objs evs res :
  range_run (object_run r) objs evs res ->
  let patches := length (List.filter is_patch evs) in
  let creates := length (List.filter is_create evs) in
  patches <= length objs /\ creates <= patches /\
  (res = Ok tt -> patches = length objs) /\
  List.filter is_delete evs = [].
Proof.
  cbv zeta.
  induction 1 as [|obj rest evs e Ht|obj rest evs evs' res Ht _ IH].
  - simpl. split_and!; done.
  - destruct (object_run_counts _ _ _ _ Ht) as (Hp & Hc & _ & Hd). simpl.
    split_and!; [lia|lia|done|done].
  - destruct (object_run_counts _ _ _ _ Ht) as (Hp & Hc & Hok & Hd).
    destruct IH as (Hp' & Hc' & Hok' & Hd').
    rewrite !List.filter_app, !length_app, Hd, Hd'. simpl.
    rewrite (Hok eq_refl) in *. split_and!; [lia|lia| |done].
    intros Hres. rewrite (Hok' Hres). lia.
Qed.

(** ** The options *)

Lemma options_forceOwner (opts : list Option) (ctrl : Renderer) :
  Forall package_option opts ->
  forceOwner (fold_left (fun ctrl opt => opt ctrl) opts ctrl) = true <->
  forceOwner ctrl = true \/ In WithForceOwnership opts.
Proof.
  intros Hopts. revert ctrl. induction Hopts as [|opt opts Hopt _ IH]; intros ctrl; simpl.
  - tauto.
  - rewrite IH. split.
    + intros [Hf|Hin]; [|by right; right].
      destruct Hopt; simpl in Hf; auto.
    + intros [Hf|[Heq|Hin]]; [left|left|by right].
      * destruct Hopt; simpl; auto.
      * by rewrite Heq.
Qed.

Lemma options_unstructured (opts : list Option) (ctrl : Renderer) :
  Forall package_option opts ->
  unstructured (fold_left (fun ctrl opt => opt ctrl) opts ctrl) = true <->
  unstructured ctrl = true \/ In WithUnstructured opts.
Proof.
  intros Hopts. revert ctrl. induction Hopts as [|opt opts Hopt _ IH]; intros ctrl; simpl.
  - tauto.
  - rewrite IH. split.
    + intros [Hf|Hin]; [|by right; right].
      destruct Hopt; simpl in Hf; auto.
    + intros [Hf|[Heq|Hin]]; [left|left|by right].
      * destruct Hopt; simpl; auto.
      * by rewrite Heq.
Qed.

Lemma options_register (opts : list Option) fs ks os ps (ctrl : Renderer) :
  registers opts fs ks os ps ->
  let r := fold_left (fun ctrl opt => opt ctrl) opts ctrl in
  fsmutators r = fsmutators ctrl ++ fs /\ kmutators r = kmutators ctrl ++ ks /\
  omutators r = omutators ctrl ++ os /\ postApply r = postApply ctrl ++ ps.
Proof.
  intros Hreg. revert ctrl. cbv zeta.
  induction Hreg as [|mut opts fs ks os ps _ IH|mut opts fs ks os ps _ IH
                    |mut opts fs ks os ps _ IH|action opts fs ks os ps _ IH
                    |owner opts fs ks os ps _ IH|opts fs ks os ps _ IH
                    |opts fs ks os ps _ IH]; intros ctrl; simpl.
  - by rewrite !app_nil_r.
  - destruct (IH (WithFSMutator mut ctrl)) as (-> & -> & -> & ->). simpl.
    by rewrite <- app_assoc.
  - destruct (IH (WithKustomizeMutator mut ctrl)) as (-> & -> & -> & ->). simpl.
    by rewrite <- app_assoc.
  - destruct (IH (WithObjectMutator mut ctrl)) as (-> & -> & -> & ->). simpl.
    by rewrite <- app_assoc.
  - destruct (IH (WithPostApplyAction action ctrl)) as (-> & -> & -> & ->). simpl.
    by rewrite <- app_assoc.
  - by destruct (IH (WithFieldOwner owner ctrl)) as (-> & -> & -> & ->).
  - by destruct (IH (WithForceOwnership ctrl)) as (-> & -> & -> & ->).
  - by destruct (IH (WithUnstructured ctrl)) as (-> & -> & -> & ->).
Qed.

(** ** NewRenderer *)

Lemma NewRenderer_from (opts : list Option) (ctrl : Renderer) :
  Forall package_option opts ->
  from (fold_left (fun ctrl opt => opt ctrl) opts ctrl) = from ctrl.
Proof.
  intros Hopts. revert ctrl. induction Hopts as [|opt opts Hopt _ IH]; intros ctrl; simpl.
  - reflexivity.
  - rewrite IH. by destruct Hopt.
Qed.

Lemma NewRenderer_fieldOwner (opts : list Option) (ctrl : Renderer) :
  Forall (fun opt : Option => forall r, fieldOwner (opt r) = fieldOwner r) opts ->
  fieldOwner (fold_left (fun ctrl opt => opt ctrl) opts ctrl) = fieldOwner ctrl.
Proof.
  intros Hopts. revert ctrl. induction Hopts as [|opt opts Hopt _ IH]; intros ctrl; simpl.
  - reflexivity.
  - rewrite IH. apply Hopt.
Qed.

(** ** The trees behind the handles *)

Lemma tree_insert (h : InPlace.Heap) fs x :
  fs < length h -> InPlace.tree (<[fs := x]> h) fs = x.
Proof. intros Hlt. unfold InPlace.tree. by rewrite list_lookup_insert_eq. Qed.

Lemma insert_snoc {A} (l : list A) x y : <[length l := x]> (l ++ [y]) = l ++ [x].
Proof. induction l as [|a l IH]; simpl; [done|by rewrite IH]. Qed.

Lemma WriteFile_in_place fs to path data (h : InPlace.Heap) :
  fs < length h ->
  InPlace.WriteFile fs path data (<[fs := to]> h) =
    match fs_WriteFile to path data with
    | Ok to' => (Ok tt, <[fs := to']> h)
    | Err e => (Err e, <[fs := to]> h)
    end.
Proof.
  intros Hlt. unfold InPlace.WriteFile. rewrite tree_insert by done.
  destruct (fs_WriteFile to path data) as [to'|e]; [|done].
  by rewrite list_insert_insert_eq.
Qed.

(** On the tree behind a handle [readdir] does what it does on the tree as
    a value, and it changes no other tree. *)
Lemma readdir_in_place from :
  forall dir to fs (h : InPlace.Heap), fs < length h ->
    match readdir dir from to with
    | Ok to' => InPlace.readdir dir from fs (<[fs := to]> h) = (Ok tt, <[fs := to']> h)
    | Err e => exists to', InPlace.readdir dir from fs (<[fs := to]> h) =
                             (Err e, <[fs := to']> h)
    end.
Proof.
  revert from. fix IH 1. intros [entries|e0] dir to fs h Hlt.
  2:{ simpl. by exists to. }
  revert entries to. fix IHl 1. intros [|entry rest] to.
  - reflexivity.
  - destruct entry as [name read|name sub].
    + specialize (IHl rest). simpl in *.
      destruct read as [fcontent|e1]; simpl; [|by exists to].
      rewrite WriteFile_in_place by done.
      destruct (fs_WriteFile to (path_Join dir name) fcontent) as [to'|e]; simpl.
      * apply IHl.
      * by exists to.
    + specialize (IHl rest). pose proof (IH sub (path_Join dir name) to fs h Hlt) as Hsub.
      simpl in *.
      destruct (readdir (path_Join dir name) sub to) as [to'|e]; simpl.
      * rewrite Hsub. apply IHl.
      * destruct Hsub as [to' ->]. by exists to'.
Qed.

(** [LoadFS] makes a new tree, whose handle is the next free one, copies
    into it what [LoadFS] on values returns, and leaves the trees there
    were as they are. *)
Lemma LoadFS_in_place content (h : InPlace.Heap) :
  match LoadFS content with
  | Ok fs0 => InPlace.LoadFS content h = (Ok (length h), h ++ [fs0])
  | Err e => exists fs', InPlace.LoadFS content h = (Err e, h ++ [fs'])
  end.
Proof.
  unfold LoadFS, InPlace.LoadFS, InPlace.MakeFsInMemory.
  pose proof (readdir_in_place content "." filesys_MakeFsInMemory (length h)
                (h ++ [filesys_MakeFsInMemory])) as Hr.
  rewrite insert_snoc in Hr.
  assert (Hlt : length h < length (h ++ [filesys_MakeFsInMemory]))
    by (rewrite length_app; simpl; lia).
  specialize (Hr Hlt).
  destruct (readdir "." content filesys_MakeFsInMemory) as [to'|e]; simpl.
  - rewrite Hr. by rewrite insert_snoc.
  - destruct Hr as [to' ->]. exists to'. by rewrite insert_snoc.
Qed.

Lemma LoadFS_fresh content (h : InPlace.Heap) :
  (forall l x, h !! l = Some x -> (InPlace.LoadFS content h).2 !! l = Some x) /\
  (forall fs, (InPlace.LoadFS content h).1 = Ok fs -> fs = length h).
Proof.
  pose proof (LoadFS_in_place content h) as Hl.
  destruct (LoadFS content) as [fs0|e].
  - rewrite Hl. simpl. split; [intros l x; apply lookup_app_l_Some|congruence].
  - destruct Hl as [fs' ->]. simpl. split; [intros l x; apply lookup_app_l_Some|discriminate].
Qed.

(** *** The two readings of the code agree *)

Lemma agrees_bind {A B C D} (c : InPlace.MH A) (k : A -> InPlace.MH C)
    (v : M B) (k' : B -> M D) h s
    (R : A -> InPlace.Heap -> B -> Prop) (R' : C -> InPlace.Heap -> D -> Prop) :
  InPlace.agrees c v h s R ->
  (forall a h1 b s1, R a h1 b -> InPlace.agrees (k a) (k' b) h1 s1 R') ->
  InPlace.agrees (InPlace.bindH c k) (bind v k') h s R'.
Proof.
  unfold InPlace.agrees, InPlace.bindH, bind.
  destruct (c h s) as [o h1]. simpl. intros (He & Hf & Hr) Hk.
  destruct (returned (v s)) as [b|e].
  - destruct Hr as (a & -> & HR). specialize (Hk a h1 b (final o) HR).
    destruct (k a h1 (final o)) as [o' h2]. simpl in *.
    rewrite <- Hf, <- He. destruct Hk as (He' & Hf' & Hr'). rewrite He', Hf'. done.
  - rewrite Hr. simpl. done.
Qed.

Lemma agrees_wrapf {A B} msg (c : InPlace.MH A) (v : M B) h s
    (R : A -> InPlace.Heap -> B -> Prop) :
  InPlace.agrees c v h s R -> InPlace.agrees (InPlace.wrapfH msg c) (wrapf msg v) h s R.
Proof.
  unfold InPlace.agrees, InPlace.wrapfH, wrapf.
  destruct (c h s) as [o h1]. simpl. intros (He & Hf & Hr). split_and!; [done..|].
  destruct (returned (v s)) as [b|e]; simpl.
  - destruct Hr as (a & -> & HR). by exists a.
  - by rewrite Hr.
Qed.

Lemma agrees_pure {A} (c : M A) h s :
  InPlace.agrees (InPlace.pure c) c h s (fun a h1 b => a = b /\ h1 = h).
Proof.
  unfold InPlace.agrees, InPlace.pure. simpl. split_and!; [done..|].
  destruct (returned (c s)) as [b|e]; [by exists b|done].
Qed.

Lemma agrees_weaken {A B} (c : InPlace.MH A) (v : M B) h s
    (R R' : A -> InPlace.Heap -> B -> Prop) :
  (forall a h1 b, R a h1 b -> R' a h1 b) ->
  InPlace.agrees c v h s R -> InPlace.agrees c v h s R'.
Proof.
  unfold InPlace.agrees. intros HR (He & Hf & Hr). split_and!; [done..|].
  destruct (returned (v s)) as [b|e]; [|done].
  destruct Hr as (a & Ha & Hab). exists a. auto.
Qed.

Lemma agrees_eq {A} (c : InPlace.MH A) (v : M A) h s (R : A -> InPlace.Heap -> A -> Prop) :
  (forall a h1 b, R a h1 b -> a = b) ->
  InPlace.agrees c v h s R -> (c h s).1 = v s.
Proof.
  unfold InPlace.agrees. intros HR (He & Hf & Hr).
  destruct (c h s) as [[ro fo eo] h1], (v s) as [rv fv ev]. simpl in *. subst.
  destruct rv as [b|e].
  - destruct Hr as (a & -> & Hab). by rewrite (HR _ _ _ Hab).
  - by rewrite Hr.
Qed.

Lemma agrees_rangeFSMutators (hooks : list FSMutator) :
  forall i fs (h0 : InPlace.Heap) to s, fs < length h0 ->
    InPlace.agrees (InPlace.rangeFSMutators i (InPlace.in_place <$> hooks) fs)
      (rangeHooks CallFSMutator "error mutating filesystem" i hooks to)
      (<[fs := to]> h0) s (fun _ h1 b => h1 = <[fs := b]> h0).
Proof.
  induction hooks as [|mut rest IH]; intros i fs h0 to s Hlt.
  - unfold InPlace.agrees. simpl. split_and!; [done..|]. by exists tt.
  - change (InPlace.rangeFSMutators i (InPlace.in_place <$> mut :: rest) fs)
      with (InPlace.bindH
              (InPlace.wrapfH "error mutating filesystem"
                 (InPlace.callFSMutator i (InPlace.in_place mut) fs))
              (fun _ => InPlace.rangeFSMutators (S i) (InPlace.in_place <$> rest) fs)).
    change (rangeHooks CallFSMutator "error mutating filesystem" i (mut :: rest) to)
      with (bind (wrapf "error mutating filesystem" (callHook CallFSMutator i mut to))
              (fun x' => rangeHooks CallFSMutator "error mutating filesystem" (S i) rest x')).
    apply agrees_bind with (R := fun _ h1 b => h1 = <[fs := b]> h0).
    + apply agrees_wrapf.
      unfold InPlace.agrees, InPlace.callFSMutator, InPlace.in_place, callHook.
      rewrite tree_insert by done.
      destruct (mut to (memory s)) as [[to'|e] m']; simpl.
      * split_and!; [done..|]. exists tt. split; [done|]. apply list_insert_insert_eq.
      * done.
    + intros _ h1 b s1 ->. by apply IH.
Qed.

Lemma agrees_mutateKustomization r fs (h0 : InPlace.Heap) to s :
  fs < length h0 ->
  InPlace.agrees (InPlace.mutateKustomization r fs) (mutateKustomization r to)
    (<[fs := to]> h0) s (fun _ h1 b => h1 = <[fs := b]> h0).
Proof.
  intros Hlt. unfold InPlace.mutateKustomization, mutateKustomization.
  destruct (length (kmutators r) =? 0).
  { unfold InPlace.agrees. simpl. split_and!; [done..|]. by exists tt. }
  apply agrees_bind with (R := fun a h1 b => a = b /\ h1 = <[fs := to]> h0).
  { unfold InPlace.agrees, InPlace.heap. simpl. rewrite tree_insert by done.
    split_and!; [done..|].
    destruct (orErrorf _ _) as [olddt|e]; [by exists olddt|done]. }
  intros _ h1 olddt s1 [-> ->].
  apply agrees_bind with (R := fun a h1 b => a = b /\ h1 = <[fs := to]> h0);
    [apply agrees_pure|].
  intros _ h1 kust s2 [-> ->].
  apply agrees_bind with (R := fun a h1 b => a = b /\ h1 = <[fs := to]> h0);
    [apply agrees_pure|].
  intros _ h1 kust1 s3 [-> ->].
  apply agrees_bind with (R := fun a h1 b => a = b /\ h1 = <[fs := to]> h0);
    [apply agrees_pure|].
  intros _ h1 newdt s4 [-> ->].
  unfold InPlace.agrees, InPlace.heap. rewrite WriteFile_in_place by done. simpl.
  destruct (fs_WriteFile to BaseKustomizationPath newdt) as [to'|e]; simpl.
  - split_and!; [done..|]. by exists tt.
  - done.
Qed.

Lemma agrees_parse r overlay (h : InPlace.Heap) s :
  InPlace.agrees (InPlace.parse r (InPlace.in_place <$> fsmutators r) overlay)
    (parse r overlay) h s (fun a _ b => a = b).
Proof.
  unfold InPlace.parse, parse.
  apply agrees_bind with (R := fun a h1 b => a = length h /\ h1 = h ++ [b]).
  { unfold InPlace.agrees, InPlace.heap. pose proof (LoadFS_in_place (from r) h) as Hl.
    destruct (LoadFS (from r)) as [fs0|e].
    - rewrite Hl. simpl. split_and!; [done..|]. by exists (length h).
    - destruct Hl as [fs' ->]. simpl. done. }
  intros _ _ fs0 s1 [-> ->].
  assert (Hlt : length h < length (h ++ [fs0])) by (rewrite length_app; simpl; lia).
  rewrite <- (insert_snoc h fs0 fs0) at 1.
  apply agrees_bind with (R := fun _ h1 b => h1 = <[length h := b]> (h ++ [fs0]));
    [by apply agrees_rangeFSMutators|].
  intros _ _ fs1 s2 ->.
  apply agrees_bind with (R := fun _ h1 b => h1 = <[length h := b]> (h ++ [fs0]));
    [by apply agrees_wrapf, agrees_mutateKustomization|].
  intros _ _ fs2 s3 ->.
  apply agrees_bind with (R := fun a _ b => a = b).
  { apply agrees_wrapf. unfold InPlace.agrees. simpl. rewrite tree_insert by done.
    split_and!; [done..|].
    destruct (krusty_Run fs2 (path_Join "kustomize" overlay)) as [res|e];
      [by exists res|done]. }
  intros _ h1 res s4 ->.
  eapply agrees_weaken; [|apply agrees_pure]. by intros a h2 b [-> _].
Qed.

Lemma Apply_in_place r overlay (h : InPlace.Heap) s :
  (InPlace.Apply r (InPlace.in_place <$> fsmutators r) overlay h s).1 = Apply r overlay s.
Proof.
  apply agrees_eq with (R := fun a _ b => a = b); [done|].
  unfold InPlace.Apply, Apply.
  apply agrees_bind with (R := fun a _ b => a = b);
    [apply agrees_wrapf, agrees_parse|].
  intros _ h1 objs s1 ->.
  eapply agrees_weaken; [|apply agrees_pure]. by intros a h2 b [-> _].
Qed.

Lemma Delete_in_place r overlay (h : InPlace.Heap) s :
  (InPlace.Delete r (InPlace.in_place <$> fsmutators r) overlay h s).1 = Delete r overlay s.
Proof.
  apply agrees_eq with (R := fun a _ b => a = b); [done|].
  unfold InPlace.Delete, Delete.
  apply agrees_bind with (R := fun a _ b => a = b);
    [apply agrees_wrapf, agrees_parse|].
  intros _ h1 objs s1 ->.
  eapply agrees_weaken; [|apply agrees_pure]. by intros a h2 b [-> _].
Qed.

(** *** A render writes to its own tree *)

Lemma touches_retH fs {A} (a : A) : InPlace.touches fs (InPlace.retH a).
Proof. by intros h s l x _ Hl. Qed.

Lemma touches_pure fs {A} (c : M A) : InPlace.touches fs (InPlace.pure c).
Proof. by intros h s l x _ Hl. Qed.

Lemma touches_bindH fs {A B} (c : InPlace.MH A) (k : A -> InPlace.MH B) :
  InPlace.touches fs c -> (forall a, InPlace.touches fs (k a)) ->
  InPlace.touches fs (InPlace.bindH c k).
Proof.
  intros Hc Hk h s l x Hne Hl. specialize (Hc h s l x Hne Hl).
  unfold InPlace.bindH. destruct (c h s) as [o h1]. simpl in Hc.
  destruct (returned o) as [a|e]; [|done].
  specialize (Hk a h1 (final o) l x Hne Hc).
  by destruct (k a h1 (final o)) as [o' h2].
Qed.

Lemma touches_wrapfH fs {A} msg (c : InPlace.MH A) :
  InPlace.touches fs c -> InPlace.touches fs (InPlace.wrapfH msg c).
Proof.
  intros Hc h s l x Hne Hl. specialize (Hc h s l x Hne Hl).
  unfold InPlace.wrapfH. by destruct (c h s) as [o h1].
Qed.

Lemma touches_heap fs {A} (f : InPlace.Heap -> result A * InPlace.Heap) :
  (forall h l x, l <> fs -> h !! l = Some x -> (f h).2 !! l = Some x) ->
  InPlace.touches fs (InPlace.heap f).
Proof.
  intros Hf h s l x Hne Hl. specialize (Hf h l x Hne Hl).
  unfold InPlace.heap. by destruct (f h) as [res h1].
Qed.

Lemma touches_rangeFSMutators fs (hooks : list InPlace.FSMutator) :
  Forall InPlace.confined hooks ->
  forall i, InPlace.touches fs (InPlace.rangeFSMutators i hooks fs).
Proof.
  induction 1 as [|mut rest Hmut _ IH]; intros i; simpl.
  - apply touches_retH.
  - apply touches_bindH; [|by intros _].
    apply touches_wrapfH. intros h s l x Hne Hl.
    specialize (Hmut fs h (memory s) l x Hne Hl).
    unfold InPlace.callFSMutator. by destruct (mut fs h (memory s)) as [[err h1] m].
Qed.

Lemma touches_mutateKustomization r fs :
  InPlace.touches fs (InPlace.mutateKustomization r fs).
Proof.
  unfold InPlace.mutateKustomization. destruct (length (kmutators r) =? 0).
  - apply touches_retH.
  - apply touches_bindH; [by apply touches_heap|intros olddt].
    apply touches_bindH; [apply touches_pure|intros kust].
    apply touches_bindH; [apply touches_pure|intros kust1].
    apply touches_bindH; [apply touches_pure|intros newdt].
    apply touches_heap. intros h l x Hne Hl. unfold InPlace.WriteFile.
    destruct (fs_WriteFile _ _ _) as [fs'|e]; simpl; [|done].
    by rewrite list_lookup_insert_ne.
Qed.

(** Whatever the filesystem hooks that keep to the tree they are handed:
    a tree there was before [parse] is, after it, what it was. *)
Lemma parse_keeps r (fsm : list InPlace.FSMutator) overlay (h : InPlace.Heap) s :
  Forall InPlace.confined fsm ->
  forall l x, h !! l = Some x -> (InPlace.parse r fsm overlay h s).2 !! l = Some x.
Proof.
  intros Hfsm l x Hl. unfold InPlace.parse, InPlace.bindH at 1, InPlace.heap at 1.
  destruct (LoadFS_fresh (from r) h) as [Hkeep Hfresh].
  specialize (Hkeep l x Hl).
  destruct (InPlace.LoadFS (from r) h) as [[fs|e] h1]; simpl in *; [|done].
  rewrite (Hfresh fs eq_refl).
  assert (Hne : l <> length h) by (apply lookup_lt_Some in Hl; lia).
  set (rest := InPlace.bindH (InPlace.rangeFSMutators 0 fsm (length h)) _).
  assert (Hrest : InPlace.touches (length h) rest).
  { subst rest. apply touches_bindH; [by apply touches_rangeFSMutators|intros _].
    apply touches_bindH; [apply touches_wrapfH, touches_mutateKustomization|intros _].
    apply touches_bindH; [|intros res; apply touches_pure].
    apply touches_wrapfH. by intros h2 s2 l2 x2 _ Hl2. }
  specialize (Hrest h1 s l x Hne Hkeep). by destruct (rest h1 s) as [o' h2].
Qed.

Lemma Apply_keeps r (fsm : list InPlace.FSMutator) overlay (h : InPlace.Heap) s :
  Forall InPlace.confined fsm ->
  forall l x, h !! l = Some x -> (InPlace.Apply r fsm overlay h s).2 !! l = Some x.
Proof.
  intros Hfsm l x Hl. pose proof (parse_keeps r fsm overlay h s Hfsm l x Hl) as Hp.
  unfold InPlace.Apply, InPlace.bindH, InPlace.wrapfH, InPlace.pure.
  destruct (InPlace.parse r fsm overlay h s) as [o h1]. simpl in *.
  by destruct (orErrorf _ (returned o)).
Qed.

Lemma Delete_keeps r (fsm : list InPlace.FSMutator) overlay (h : InPlace.Heap) s :
  Forall InPlace.confined fsm ->
  forall l x, h !! l = Some x -> (InPlace.Delete r fsm overlay h s).2 !! l = Some x.
Proof.
  intros Hfsm l x Hl. pose proof (parse_keeps r fsm overlay h s Hfsm l x Hl) as Hp.
  unfold InPlace.Delete, InPlace.bindH, InPlace.wrapfH, InPlace.pure.
  destruct (InPlace.parse r fsm overlay h s) as [o h1]. simpl in *.
  by destruct (orErrorf _ (returned o)).
Qed.

(** A hook that is handed the tree as a value keeps to it. *)
Lemma in_place_confined (hooks : list FSMutator) :
  Forall InPlace.confined (InPlace.in_place <$> hooks).
Proof.
  apply Forall_fmap, Forall_forall. intros mut _ fs h m l x Hne Hl. simpl.
  unfold InPlace.in_place. destruct (mut (InPlace.tree h fs) m) as [[fs'|e] m']; simpl.
  - by rewrite list_lookup_insert_ne.
  - done.
Qed.

End Facts.

(** * The claims *)

(** An equation between closed terms, checked by evaluation. *)
Ltac by_vm :=
  lazymatch goal with
  | |- _ = ?rhs => vm_cast_no_check (eq_refl rhs)
  end.

(** C9. An error of [parse] (source load, filesystem hooks, descriptor
    mutation, composition, object conversion) is what [Apply] and [Delete]
    return, wrapped, and the run has made no call to the cluster: its events
    hold no patch, create or delete, and the cluster is as it was. *)
Theorem parse_error_before_cluster `{Imports} (r : Renderer) (overlay : string)
    (s : State) (e : error) :
  returned (parse r overlay s) = Err e ->
  (returned (Apply r overlay s) = Err (fmt_Errorf "error parsing kustomize files" e) /\
   quiet (events (Apply r overlay s)) /\
   cluster (final (Apply r overlay s)) = cluster s) /\
  (returned (Delete r overlay s) = Err (fmt_Errorf "error parsing kustomize files" e) /\
   quiet (events (Delete r overlay s)) /\
   cluster (final (Delete r overlay s)) = cluster s).
Proof.
  intros E. destruct (parse_quiet r overlay s) as [Hq Hc].
  rewrite (Apply_parse_Err _ _ _ _ E), (Delete_parse_Err _ _ _ _ E). simpl.
  repeat split; assumption.
Qed.

Lemma parse_error_before_cluster_witness :
  returned (Apply Fake.plain "nowhere" Fake.empty) =
    Err (fmt_Errorf "error parsing kustomize files"
           (fmt_Errorf "error running kustomize" (errors_New "missing kustomization.yaml"))) /\
  quiet (events (Apply Fake.plain "nowhere" Fake.empty)) /\
  cluster (final (Apply Fake.plain "nowhere" Fake.empty)) = cluster Fake.empty.
Proof.
  assert (E : returned (parse Fake.plain "nowhere" Fake.empty) =
              Err (fmt_Errorf "error running kustomize"
                     (errors_New "missing kustomization.yaml"))) by by_vm.
  exact (proj1 (parse_error_before_cluster Fake.plain "nowhere" Fake.empty _ E)).
Defined.

(** C1. In every run of [Apply] the events and the returned value are
    [submissions]: each object is first patched, as a server-side apply with
    the field owner (and ForceOwnership when configured); a patch that
    returned nil is never followed by a create; a create stands only right
    after a patch of the same object that reported "not found", and such a
    patch is always followed by it; any other patch error is the last event
    of the run and is what [Apply] returns. *)
Theorem Apply_patch_then_create `{Imports} (r : Renderer) (overlay : string) (s : State) :
  let o := Apply r overlay s in
  submissions r (events o) (returned o) /\
  (forall l1 obj patch opts l2,
     events o = l1 ++ CallPatch obj patch opts None :: l2 ->
     patch = client_Apply /\ opts = patchOptions r /\
     forall ev, head l2 = Some ev -> tag ev <> TCreate) /\
  (forall l1 obj patch opts e l2,
     events o = l1 ++ CallPatch obj patch opts (Some e) :: l2 ->
     patch = client_Apply /\ opts = patchOptions r /\
     if errors_IsNotFound e then exists err l3, l2 = CallCreate obj [] err :: l3
     else l2 = [] /\ returned o = Err (fmt_Errorf "error patching object" e)) /\
  (forall l1 obj opts err l2,
     events o = l1 ++ CallCreate obj opts err :: l2 ->
     exists l0 e, l1 = l0 ++ [CallPatch obj client_Apply (patchOptions r) (Some e)] /\
                  errors_IsNotFound e = true).
Proof.
  cbv zeta. pose proof (Apply_submissions r overlay s) as Hs.
  split_and!; [exact Hs| | |].
  - intros l1 obj patch opts l2 Heq. by eapply submissions_after_patched.
  - intros l1 obj patch opts e l2 Heq. by eapply submissions_after_failed_patch.
  - intros l1 obj opts err l2 Heq.
    by destruct (submissions_before_create _ _ _ _ _ _ _ _ Hs Heq) as [_ ?].
Qed.

Lemma Apply_patch_then_create_witness :
  returned (Apply Fake.plain "denied" Fake.empty) =
    Err (fmt_Errorf "error patching object" (errors_New "forbidden")) /\
  events (Apply Fake.plain "denied" Fake.empty) = Fake.denied_before ++ [Fake.denied_last].
Proof.
  pose proof (Apply_patch_then_create Fake.plain "denied" Fake.empty) as (_ & _ & H & _).
  assert (E : events (Apply Fake.plain "denied" Fake.empty) =
              Fake.denied_before ++ [Fake.denied_last]) by by_vm.
  split; [|exact E].
  exact (proj2 (proj2 (proj2 (H _ _ _ _ _ _ E)))).
Defined.

(** C10. A create of [Apply] carries no option at all, neither field owner
    nor ForceOwnership, and it comes right after a patch of the same object
    that carried [patchOptions]: the field owner always, ForceOwnership when
    configured. A renderer built from options that leave the field owner
    alone has the field owner "plumber". *)
Theorem create_fallback_without_owner `{Imports} (r : Renderer) (overlay : string) (s : State) :
  let o := Apply r overlay s in
  (forall l1 obj opts err l2,
     events o = l1 ++ CallCreate obj opts err :: l2 ->
     opts = [] /\
     exists l0 e, l1 = l0 ++ [CallPatch obj client_Apply (patchOptions r) (Some e)] /\
                  errors_IsNotFound e = true) /\
  In (client_FieldOwner (fieldOwner r)) (patchOptions r) /\
  (forceOwner r = true -> In client_ForceOwnership (patchOptions r)) /\
  (forall c emb (opts : list Option),
     Forall (fun opt : Option => forall r', fieldOwner (opt r') = fieldOwner r') opts ->
     fieldOwner (NewRenderer c emb opts) = "plumber").
Proof.
  cbv zeta. split_and!.
  - intros l1 obj opts err l2 Heq.
    eapply submissions_before_create; [apply Apply_submissions|exact Heq].
  - left. reflexivity.
  - intros Hf. unfold patchOptions. rewrite Hf. right. left. reflexivity.
  - intros c emb opts Hopts. unfold NewRenderer.
    by rewrite NewRenderer_fieldOwner.
Qed.

Lemma create_fallback_without_owner_witness :
  fieldOwner Fake.forced = "plumber" /\
  In client_ForceOwnership (patchOptions Fake.forced) /\
  events (Apply Fake.forced "base" Fake.empty) = Fake.forced_base.
Proof.
  pose proof (create_fallback_without_owner Fake.forced "base" Fake.empty)
    as (_ & _ & Hforce & Hdefault).
  split_and!.
  - apply (Hdefault Fake.client Fake.resources [WithForceOwnership]).
    repeat constructor.
  - apply Hforce. reflexivity.
  - by_vm.
Defined.

(** C3. In typed mode, when the composition has returned resources of which
    one cannot be resolved, [parse] returns the error of [typedObject] on the
    first resource that does not convert, whatever the other resources are;
    [Apply] and [Delete] return it wrapped and have called the cluster for no
    object at all. *)
Theorem unresolvable_type_fails_render `{Imports} (r : Renderer) (overlay : string)
    (s : State) (fs : FileSystem) (rs : list Resource) (rsc : Resource) :
  unstructured r = false ->
  In (CallKustomizer fs (path_Join "kustomize" overlay) None) (events (parse r overlay s)) ->
  krusty_Run fs (path_Join "kustomize" overlay) = Ok rs ->
  In rsc rs ->
  unresolvable r rsc ->
  exists pre rsc' post e,
    rs = pre ++ rsc' :: post /\
    Forall (fun x => is_Ok (typedObject r x) = true) pre /\
    typedObject r rsc' = Err e /\
    returned (parse r overlay s) = Err e /\
    (returned (Apply r overlay s) = Err (fmt_Errorf "error parsing kustomize files" e) /\
     quiet (events (Apply r overlay s)) /\
     cluster (final (Apply r overlay s)) = cluster s) /\
    (returned (Delete r overlay s) = Err (fmt_Errorf "error parsing kustomize files" e) /\
     quiet (events (Delete r overlay s)) /\
     cluster (final (Delete r overlay s)) = cluster s).
Proof.
  intros Htyped Hin Hrun Hrsc Hbad.
  destruct (parse_run_sound r overlay s) as [Hp Hc].
  destruct (parse_run_composed _ _ _ _ _ _ _ Hp Hin) as (_ & _ & Hres & _).
  rewrite Hrun in Hres.
  assert (Hconv : forall x, parse_resource r x = typedObject r x)
    by (intros x; unfold parse_resource; by rewrite Htyped).
  destruct (unresolvable_typedObject _ _ Hbad) as [e0 He0].
  rewrite <- Hconv in He0.
  destruct (parse_resources_Err r rs [] rsc e0 Hrsc He0)
    as (pre & rsc' & post & e & -> & Hpre & He & Hall).
  exists pre, rsc', post, e.
  assert (E : returned (parse r overlay s) = Err e) by congruence.
  destruct (parse_quiet r overlay s) as [Hq _].
  rewrite (Apply_parse_Err _ _ _ _ E), (Delete_parse_Err _ _ _ _ E). simpl.
  split_and!; auto.
  - eapply Forall_impl; [exact Hpre|]. intros x. simpl. by rewrite Hconv.
  - by rewrite <- Hconv.
Qed.

Lemma unresolvable_type_fails_render_witness :
  exists pre rsc' post e,
    Fake.mixed = pre ++ rsc' :: post /\
    Forall (fun x => is_Ok (typedObject Fake.plain x) = true) pre /\
    typedObject Fake.plain rsc' = Err e /\
    returned (parse Fake.plain "mixed" Fake.empty) = Err e /\
    (returned (Apply Fake.plain "mixed" Fake.empty) =
       Err (fmt_Errorf "error parsing kustomize files" e) /\
     quiet (events (Apply Fake.plain "mixed" Fake.empty)) /\
     cluster (final (Apply Fake.plain "mixed" Fake.empty)) = cluster Fake.empty) /\
    (returned (Delete Fake.plain "mixed" Fake.empty) =
       Err (fmt_Errorf "error parsing kustomize files" e) /\
     quiet (events (Delete Fake.plain "mixed" Fake.empty)) /\
     cluster (final (Delete Fake.plain "mixed" Fake.empty)) = cluster Fake.empty).
Proof.
  apply (unresolvable_type_fails_render Fake.plain "mixed" Fake.empty Fake.loaded
           Fake.mixed (Fake.resource_of "?"%char)).
  - reflexivity.
  - apply last_Some_In. change (path_Join "kustomize" "mixed") with "kustomize/mixed".
    by_vm.
  - by_vm.
  - right. left. reflexivity.
  - left. exists (errors_New "no kind is registered"). reflexivity.
Defined.

(** C4. [Delete] on objects that the cluster does not hold returns nil: when
    the overlay parses, the object mutators return nil and the client answers
    every delete request with nil or "not found", [Delete] returns nil. In
    every run the loop of [Delete] is one turn for each object [parse]
    returned, in order, up to the first turn that fails, and it is
    [deletions]: a delete request that reported "not found" does not end the
    loop, and when it is the last event [Delete] returns nil; a delete
    request that failed otherwise is the last event and its error, wrapped,
    is what [Delete] returns. When [Delete] returns nil, whatever the client
    answered, the delete requests of the run are, one for each object
    [parse] returned and in that order, for what the object mutators made
    of it: for the very objects when no object mutator is registered. *)
Theorem Delete_not_found_is_success `{Imports} (r : Renderer) (overlay : string) (s : State) :
  let o := Delete r overlay s in
  (forall objs,
     returned (parse r overlay s) = Ok objs ->
     (forall mut obj m, In mut (omutators r) -> is_Ok (mut obj m).1 = true) ->
     (forall obj c, match (cli_Delete (cli r) obj c).1 with
                    | Ok _ => True
                    | Err e => errors_IsNotFound e = true
                    end) ->
     returned o = Ok tt) /\
  (forall objs,
     returned (parse r overlay s) = Ok objs ->
     exists loop, events o = events (parse r overlay s) ++ loop /\
                  deletions loop (returned o) /\
                  range_run (delete_run r) objs loop (returned o)) /\
  (forall l1 obj e l2,
     events o = l1 ++ CallDelete obj (Some e) :: l2 ->
     if errors_IsNotFound e then l2 = [] -> returned o = Ok tt
     else l2 = [] /\ returned o = Err (fmt_Errorf "error deleting object" e)) /\
  (forall objs,
     returned (parse r overlay s) = Ok objs ->
     returned o = Ok tt ->
     Forall2 (mutated r) objs (omap deleted_object (events o)) /\
     (omutators r = [] -> omap deleted_object (events o) = objs)).
Proof.
  cbv zeta. split_and!.
  - intros objs E Hmut Hdel. rewrite (Delete_parse_Ok _ _ _ _ E). simpl.
    by apply range_Delete_total.
  - intros objs E. rewrite (Delete_parse_Ok _ _ _ _ E). simpl.
    eexists. split_and!; [reflexivity|by apply Delete_run|].
    apply range_sound, Delete_object_run.
  - intros l1 obj e l2 Heq.
    destruct (parse_quiet r overlay s) as [Hq _].
    destruct (returned (parse r overlay s)) as [objs|e0] eqn:E.
    + pose proof (Delete_run r overlay s objs E) as Hd. cbv zeta in Hd.
      rewrite (Delete_parse_Ok _ _ _ _ E) in Heq |- *. simpl in Heq |- *.
      destruct (quiet_prefix_split _ _ _ (CallDelete obj (Some e)) _ Hq eq_refl Heq)
        as (l1' & -> & Hloop).
      by eapply deletions_after_delete.
    + rewrite (Delete_parse_Err _ _ _ _ E) in Heq. simpl in Heq.
      exfalso. rewrite Heq in Hq. apply Forall_app in Hq as [_ Hq].
      inversion Hq; subst. discriminate.
  - intros objs E. destruct (parse_quiet r overlay s) as [Hq _].
    rewrite (Delete_parse_Ok _ _ _ _ E). cbn [returned events]. intros Hok.
    rewrite omap_app, (quiet_not_deleted _ Hq), app_nil_l.
    pose proof (range_Delete_deleted r objs _ Hok) as Hall.
    split; [exact Hall|]. intros Hnil. by apply (Forall2_mutated_nil r).
Qed.

Lemma Delete_not_found_is_success_witness :
  returned (Delete Fake.plain "three" Fake.empty) = Ok tt /\
  omap deleted_object (events (Delete Fake.plain "three" Fake.empty)) = ["a"; "b"; "c"] /\
  events (Delete Fake.plain "three" Fake.empty) = Fake.three_absent.
Proof.
  pose proof (Delete_not_found_is_success Fake.plain "three" Fake.empty)
    as (Habsent & _ & _ & Hall).
  assert (E : returned (parse Fake.plain "three" Fake.empty) = Ok ["a"; "b"; "c"])
    by by_vm.
  assert (Hok : returned (Delete Fake.plain "three" Fake.empty) = Ok tt).
  { apply (Habsent ["a"; "b"; "c"] E).
    - intros mut obj m [].
    - intros obj c. simpl. unfold Fake.Delete.
      case_decide; simpl; [exact I|reflexivity]. }
  split_and!.
  - exact Hok.
  - by apply (Hall ["a"; "b"; "c"] E Hok).
  - by_vm.
Defined.






(** C8. The source of a renderer is the one handed to [NewRenderer], whatever
    options of the package it is built with; it is an [embed.FS], a value
    that nothing can write to. Every render, from whatever state an earlier
    render or anything else has left, begins on the tree [LoadFS] makes of
    that source: that tree, or its descriptor, is what the first call of the
    render is handed. [LoadFS] is a copy: of a source that can be read it
    writes every file, at its path, into an empty tree. With the trees in a
    heap and changed in place, as the Go code has them: the tree of a render
    is a new one, behind a handle that did not exist before; whatever the
    filesystem hooks do to the tree they are handed, and whatever the
    descriptor is overwritten with, every tree there was before an [Apply]
    or a [Delete], those of earlier renders among them, is afterwards what
    it was; and with the trees changed in place [Apply] and [Delete] make
    the calls and return what they do with the trees handed on as values.
    So what the hooks of one render write to their tree is not there in the
    next. *)
Theorem source_loaded_afresh `{Imports} (r : Renderer) (overlay : string) (s : State)
    (h : InPlace.Heap) :
  (forall c emb (opts : list Option),
     Forall package_option opts -> from (NewRenderer c emb opts) = emb) /\
  (forall ev, head (events (Apply r overlay s)) = Some ev ->
     exists fs0, LoadFS (from r) = Ok fs0 /\ starts_from r fs0 ev) /\
  (forall ev, head (events (Delete r overlay s)) = Some ev ->
     exists fs0, LoadFS (from r) = Ok fs0 /\ starts_from r fs0 ev) /\
  (readable (from r) = true ->
     LoadFS (from r) =
       orErrorf "error loading embed files"
         (write_files (embed_files "." (from r)) filesys_MakeFsInMemory)) /\
  (forall fs0, LoadFS (from r) = Ok fs0 ->
     InPlace.LoadFS (from r) h = (Ok (length h), h ++ [fs0])) /\
  (forall fsmutators, Forall InPlace.confined fsmutators ->
     forall fs x, h !! fs = Some x ->
       (InPlace.Apply r fsmutators overlay h s).2 !! fs = Some x /\
       (InPlace.Delete r fsmutators overlay h s).2 !! fs = Some x) /\
  (InPlace.Apply r (InPlace.in_place <$> fsmutators r) overlay h s).1 = Apply r overlay s /\
  (InPlace.Delete r (InPlace.in_place <$> fsmutators r) overlay h s).1 = Delete r overlay s.
Proof.
  destruct (parse_run_sound r overlay s) as [Hp _]. split_and!.
  - intros c emb opts Hopts. unfold NewRenderer. by rewrite NewRenderer_from.
  - intros ev. rewrite Apply_head. by eapply parse_run_head.
  - intros ev. rewrite Delete_head. by eapply parse_run_head.
  - intros Hr. unfold LoadFS. by rewrite readdir_readable.
  - intros fs0 Hl. pose proof (LoadFS_in_place (from r) h) as Hh. by rewrite Hl in Hh.
  - intros fsm Hfsm fs x Hfs. split; [by apply Apply_keeps|by apply Delete_keeps].
  - apply Apply_in_place.
  - apply Delete_in_place.
Qed.

Lemma source_loaded_afresh_witness :
  let s1 := final (Apply Fake.writing "extra" Fake.empty) in
  returned (Apply Fake.writing "extra" Fake.empty) = Ok tt /\
  (InPlace.Apply Fake.writing Fake.writing_in_place "extra" [] Fake.empty).2 =
    Fake.one_tree /\
  LoadFS Fake.resources = Ok Fake.copied /\
  InPlace.LoadFS Fake.resources Fake.one_tree = (Ok 1, Fake.two_trees) /\
  (InPlace.Apply Fake.writing Fake.writing_in_place "extra" Fake.one_tree s1).2 !! 0 =
    Some Fake.written /\
  head (events (Apply Fake.writing "extra" s1)) = Some Fake.copied_first /\
  exists fs0, LoadFS (from Fake.writing) = Ok fs0 /\
              starts_from Fake.writing fs0 Fake.copied_first.
Proof.
  cbv zeta.
  pose proof (source_loaded_afresh Fake.writing "extra"
                (final (Apply Fake.writing "extra" Fake.empty)) Fake.one_tree)
    as (_ & Hfirst & _ & Hcopy & Hnew & Hkeep & _).
  assert (Hl : LoadFS Fake.resources = Ok Fake.copied).
  { change (from Fake.writing) with Fake.resources in Hcopy.
    rewrite (Hcopy eq_refl). by_vm. }
  assert (Hhd : head (events (Apply Fake.writing "extra"
                  (final (Apply Fake.writing "extra" Fake.empty)))) =
                Some Fake.copied_first) by by_vm.
  split_and!.
  - by_vm.
  - by_vm.
  - exact Hl.
  - exact (Hnew Fake.copied Hl).
  - exact (proj1 (Hkeep Fake.writing_in_place (in_place_confined _) 0 Fake.written
                    eq_refl)).
  - exact Hhd.
  - exact (Hfirst _ Hhd).
Defined.

(** C2, as stated, fails: a post-apply action that fails on the second of
    three objects runs after the second object was patched, so two patches
    have been made. *)
Lemma post_apply_error_after_second_patch :
  ~ @fail_fast_on_second Fake.imports.
Proof.
  intros Hclaim.
  destruct (Hclaim Fake.acting "three" Fake.empty "a" "b" "c") as [_ Hone].
  - by_vm.
  - by_vm.
  - exists 0, "b", (errors_New "action refused"). right. by_vm.
  - assert (Htwo : length (List.filter is_patch
                     (events (Apply Fake.acting "three" Fake.empty))) = 2) by by_vm.
    rewrite Htwo in Hone. clear -Hone. discriminate.
Qed.

(** C2, amended. Three objects, the turn of the first returns nil. When an
    object mutator returns an error on the second object, [Apply] returns
    that error, the run ends with that call and in the state it left, and
    the calls to the cluster of the whole run are the submission of the
    first object: one patch, and the create when the patch did not find it.
    When a post-apply action returns an error on the second object, the
    same holds with the submissions of the first and of the second object:
    two patches. In both cases nothing is called for the third object and
    nothing is undone or tried again. *)
Theorem hook_error_on_second_of_three `{Imports} (r : Renderer) (overlay : string)
    (s : State) (o1 o2 o3 : Object) :
  let p := parse r overlay s in
  let turn1 := Apply_object r o1 (final p) in
  let mutate := rangeHooks CallObjectMutator "error mutating object" 0 (omutators r) in
  let act := rangeHooks CallPostApplyAction "error running post apply action" 0
               (postApply r) in
  let o := Apply r overlay s in
  returned p = Ok [o1; o2; o3] ->
  returned turn1 = Ok tt ->
  (forall e,
     let m := mutate o2 (final turn1) in
     returned m = Err e ->
     returned o = Err e /\ final o = final m /\
     events o = events p ++ events turn1 ++ events m /\
     length (List.filter is_patch (events o)) = 1 /\
     exists o1' o1'' calls,
       returned (mutate o1 (final p)) = Ok o1' /\
       submit_run r o1' calls (Ok o1'') /\
       List.filter is_cluster_call (events o) = calls) /\
  (forall o2' o2'' e,
     let m := mutate o2 (final turn1) in
     let sub := Apply_submit r o2' (final m) in
     let a := act o2'' (final sub) in
     returned m = Ok o2' -> returned sub = Ok o2'' -> returned a = Err e ->
     returned o = Err e /\ final o = final a /\
     events o = events p ++ events turn1 ++ events m ++ events sub ++ events a /\
     length (List.filter is_patch (events o)) = 2 /\
     exists o1' o1'' calls1 calls2,
       returned (mutate o1 (final p)) = Ok o1' /\
       submit_run r o1' calls1 (Ok o1'') /\
       submit_run r o2' calls2 (Ok o2'') /\
       List.filter is_cluster_call (events o) = calls1 ++ calls2).
Proof.
  cbv zeta. intros Ep E1.
  destruct (parse_quiet r overlay s) as [Hqp _].
  destruct (Apply_object_Ok_calls _ _ _ E1) as (o1' & o1'' & calls1 & Em1 & Hs1 & Hc1 & Hp1).
  set (s2 := final (Apply_object r o1 (final (parse r overlay s)))) in *.
  pose proof (rangeHooks_quiet_mutators r o2 s2) as Hqm.
  rewrite (Apply_parse_Ok _ _ _ _ Ep). cbv zeta.
  rewrite (range_cons_Ok _ _ _ _ E1). cbv zeta. fold s2.
  split.
  - intros e Em.
    assert (E2 : Apply_object r o2 s2 =
                 mkOutcome (Err e)
                   (final (rangeHooks CallObjectMutator "error mutating object" 0
                             (omutators r) o2 s2))
                   (events (rangeHooks CallObjectMutator "error mutating object" 0
                              (omutators r) o2 s2)))
      by (rewrite Apply_object_eq; cbv zeta; by rewrite Em).
    rewrite (range_cons_Err _ _ _ _ e) by (by rewrite E2).
    rewrite E2. cbn [returned final events].
    split_and!; try done.
    + rewrite !List.filter_app, (quiet_filter_patch _ Hqp), (quiet_filter_patch _ Hqm).
      by rewrite app_nil_r, app_nil_l.
    + exists o1', o1'', calls1. split_and!; try done.
      rewrite !List.filter_app, (quiet_filter_cluster _ Hqp), (quiet_filter_cluster _ Hqm).
      by rewrite app_nil_r, app_nil_l.
  - intros o2' o2'' e Em Es Ea.
    set (s3 := final (rangeHooks CallObjectMutator "error mutating object" 0
                        (omutators r) o2 s2)) in *.
    destruct (Apply_submit_run r o2' s3) as [Hs2 _]. rewrite Es in Hs2.
    set (s4 := final (Apply_submit r o2' s3)) in *.
    pose proof (rangeHooks_quiet_actions r o2'' s4) as Hqa.
    assert (E2 : Apply_object r o2 s2 =
                 mkOutcome (Err e)
                   (final (rangeHooks CallPostApplyAction "error running post apply action" 0
                             (postApply r) o2'' s4))
                   (events (rangeHooks CallObjectMutator "error mutating object" 0
                              (omutators r) o2 s2) ++
                    events (Apply_submit r o2' s3) ++
                    events (rangeHooks CallPostApplyAction
                              "error running post apply action" 0 (postApply r) o2'' s4))).
    { rewrite Apply_object_eq. cbv zeta. rewrite Em. fold s3. rewrite Es. fold s4.
      by rewrite Ea. }
    rewrite (range_cons_Err _ _ _ _ e) by (by rewrite E2).
    rewrite E2. cbn [returned final events].
    split_and!; try done.
    + rewrite !List.filter_app, (quiet_filter_patch _ Hqp), (quiet_filter_patch _ Hqm),
        (quiet_filter_patch _ Hqa).
      rewrite app_nil_r, !app_nil_l, length_app, Hp1.
      by rewrite (submit_run_filter_patch _ _ _ _ Hs2).
    + exists o1', o1'', calls1, (events (Apply_submit r o2' s3)). split_and!; try done.
      rewrite !List.filter_app, (quiet_filter_cluster _ Hqp), (quiet_filter_cluster _ Hqm),
        (quiet_filter_cluster _ Hqa).
      rewrite app_nil_r, !app_nil_l, Hc1.
      by rewrite (submit_run_filter_cluster _ _ _ _ Hs2).
Qed.

Lemma hook_error_on_second_of_three_witness :
  returned (Apply Fake.mutating "three" Fake.empty) =
    Err (fmt_Errorf "error mutating object" (errors_New "mutator refused")) /\
  length (List.filter is_patch (events (Apply Fake.mutating "three" Fake.empty))) = 1 /\
  returned (Apply Fake.acting "three" Fake.empty) =
    Err (fmt_Errorf "error running post apply action" (errors_New "action refused")) /\
  length (List.filter is_patch (events (Apply Fake.acting "three" Fake.empty))) = 2.
Proof.
  destruct (hook_error_on_second_of_three Fake.mutating "three" Fake.empty "a" "b" "c"
              ltac:(by_vm) ltac:(by_vm)) as [Hmut _].
  destruct (Hmut (fmt_Errorf "error mutating object" (errors_New "mutator refused"))
              ltac:(by_vm)) as (Hr1 & _ & _ & Hn1 & _).
  destruct (hook_error_on_second_of_three Fake.acting "three" Fake.empty "a" "b" "c"
              ltac:(by_vm) ltac:(by_vm)) as [_ Hact].
  destruct (Hact "b" "b"
              (fmt_Errorf "error running post apply action" (errors_New "action refused"))
              ltac:(by_vm) ltac:(by_vm) ltac:(by_vm)) as (Hr2 & _ & _ & Hn2 & _).
  exact (conj Hr1 (conj Hn1 (conj Hr2 Hn2))).
Defined.

(** C5. The calls of every run of [Apply] follow [Apply_shape]: the
    filesystem hooks, then the descriptor hooks, then the composition, then
    for each object in turn its object mutators, its patch (and create) and
    its post-apply actions, the hooks of each kind numbered from 0 in the
    order of their registration; a run that fails stops somewhere in that
    shape. The turns start on the objects [parse] returned, in that order,
    and these are the conversions of the resources the engine returned, in
    the order it returned them. An option that registers a hook puts it
    after the hooks of its kind registered before, and the hook call
    numbered i of a kind is the call of the hook registered at position i
    of that kind: it returns what that hook returns on the value it is
    handed in the memory the calls before it left, and leaves what that
    hook leaves, so that the events of the run, read in order, take the
    caller's memory from what it was before the run to what it is after. *)
Theorem calls_in_order `{Imports} (r : Renderer) (overlay : string) (s : State) :
  let o := Apply r overlay s in
  let p := parse r overlay s in
  (exists created,
     fits (is_Ok (returned o)) (tag <$> events o) (Apply_shape r created) /\
     forall objs, returned p = Ok objs -> length created = length objs) /\
  (forall objs, returned p = Ok objs ->
     entries r (events o) `prefix_of` objs /\
     (returned o = Ok tt -> entries r (events o) = objs)) /\
  (forall objs fs dir rs,
     returned p = Ok objs ->
     In (CallKustomizer fs dir None) (events p) ->
     krusty_Run fs dir = Ok rs ->
     Forall2 (fun rsc obj => parse_resource r rsc = Ok obj) rs objs) /\
  (forall c emb (opts : list Option),
     (forall mut, fsmutators (NewRenderer c emb (opts ++ [WithFSMutator mut])) =
                  fsmutators (NewRenderer c emb opts) ++ [mut]) /\
     (forall mut, kmutators (NewRenderer c emb (opts ++ [WithKustomizeMutator mut])) =
                  kmutators (NewRenderer c emb opts) ++ [mut]) /\
     (forall mut, omutators (NewRenderer c emb (opts ++ [WithObjectMutator mut])) =
                  omutators (NewRenderer c emb opts) ++ [mut]) /\
     (forall action, postApply (NewRenderer c emb (opts ++ [WithPostApplyAction action])) =
                     postApply (NewRenderer c emb opts) ++ [action])) /\
  explained r (memory s) (events o) (memory (final o)).
Proof.
  cbv zeta. destruct (parse_run_sound r overlay s) as [Hp _]. split_and!;
    [| | | |apply keeps_log_Apply].
  - destruct (returned (parse r overlay s)) as [objs|e] eqn:E.
    + pose proof (Apply_run r overlay s objs E) as Hloop. cbv zeta in Hloop.
      destruct (range_run_object_fits _ _ _ _ Hloop) as (created & Hlen & Hfits).
      exists created. rewrite (Apply_parse_Ok _ _ _ _ E). cbn [returned events].
      split; [|by intros ? [= <-]].
      rewrite fmap_app. by apply fits_app; [apply (parse_run_fits _ _ _ _ Hp)|].
    + exists []. rewrite (Apply_parse_Err _ _ _ _ E). cbn [returned events].
      split; [|by intros ? [=]].
      apply fits_stopped. by apply (parse_run_fits _ _ _ _ Hp).
  - intros objs E. rewrite E in Hp.
    pose proof (Apply_run r overlay s objs E) as Hloop. cbv zeta in Hloop.
    rewrite (Apply_parse_Ok _ _ _ _ E). cbn [returned events].
    rewrite entries_app, (parse_run_entries _ _ _ _ Hp), app_nil_l.
    by apply range_run_entries.
  - intros objs fs dir rs E Hin Hrun.
    destruct (parse_run_composed _ _ _ _ _ _ _ Hp Hin) as (_ & _ & Hres & _).
    rewrite Hrun, E in Hres. symmetry in Hres.
    by destruct (parse_resources_Ok _ _ _ _ Hres) as (converted & -> & Hall).
  - intros c emb opts. split_and!; intros x; by rewrite NewRenderer_snoc.
Qed.

Lemma calls_in_order_witness :
  entries Fake.busy (events (Apply Fake.busy "base" Fake.empty)) = ["a"; "b"] /\
  Forall2 (fun rsc obj => parse_resource Fake.busy rsc = Ok obj)
    (Fake.resource_of <$> list_ascii_of_string "ab") ["a"; "b"] /\
  explained Fake.busy [] (events (Apply Fake.busy "base" Fake.empty)) Fake.busy_stamps /\
  tag <$> events (Apply Fake.busy "base" Fake.empty) = Fake.busy_calls.
Proof.
  pose proof (calls_in_order Fake.busy "base" Fake.empty)
    as (_ & Hentries & Hconv & _ & Hlog).
  split_and!.
  - apply (Hentries ["a"; "b"]); by_vm.
  - apply (Hconv ["a"; "b"] Fake.busy_tree "kustomize/base").
    + by_vm.
    + apply last_Some_In. by_vm.
    + by_vm.
  - replace Fake.busy_stamps
      with (memory (final (Apply Fake.busy "base" Fake.empty))) by by_vm.
    exact Hlog.
  - by_vm.
Defined.

(** * More of the package *)

(** X1. When every directory and file of the embedded tree below [dir] can
    be read, [readdir] is a copy onto the tree it is handed, whatever that
    tree holds: it writes the files of the embedded tree one after the
    other, in the order of the listings (a directory standing for the files
    below it), each at the path joined from [dir] and the names of the
    directories above the file; it fails exactly when one of these writes
    fails, with the error of the first one that does, and writes nothing
    after it. *)
Theorem readdir_copies_the_files `{Imports} (content : embed_FS) (dir : string)
    (to : FileSystem) :
  readable content = true ->
  readdir dir content to = write_files (embed_files dir content) to.
Proof. intros Hr. by apply readdir_readable. Qed.

Lemma readdir_copies_the_files_witness :
  @readdir Fake.imports "." Fake.resources Fake.written = Ok Fake.written.
Proof.
  rewrite (readdir_copies_the_files (H := Fake.imports) Fake.resources "." Fake.written
             eq_refl).
  by_vm.
Defined.

(** X2. An error of [LoadFS] names the source load and then exactly one of
    the three things that can fail while copying, however deep in the tree
    it failed: the error of a directory below is handed up as it is. *)
Theorem LoadFS_error_names_one_stage `{Imports} (content : embed_FS) (e : error) :
  LoadFS content = Err e ->
  exists stage, e = fmt_Errorf "error loading embed files" stage /\ copy_error stage.
Proof. apply LoadFS_Err. Qed.

Lemma LoadFS_error_names_one_stage_witness :
  exists stage,
    fmt_Errorf "error loading embed files"
      (fmt_Errorf "error reading dir" (errors_New "permission denied")) =
    fmt_Errorf "error loading embed files" stage /\ copy_error stage.
Proof.
  apply (LoadFS_error_names_one_stage (H := Fake.imports) Fake.unreadable).
  by_vm.
Defined.

(** X3. An error of [parse] names the stage that failed: the source load
    (with the stage of the copy), a filesystem hook, the descriptor (with
    the step of [mutateKustomization]), the composition, or the conversion
    of a resource; the errors of the typed conversion are the only ones
    [parse] hands up without a description of its own. *)
Theorem parse_error_names_the_stage `{Imports} (r : Renderer) (overlay : string)
    (s : State) (e : error) :
  returned (parse r overlay s) = Err e ->
  (exists stage, e = fmt_Errorf "unable to load overlay"
                       (fmt_Errorf "error loading embed files" stage) /\
                 copy_error stage) \/
  (exists cause, e = fmt_Errorf "error mutating filesystem" cause) \/
  (exists cause, e = fmt_Errorf "error setting object name prefix" cause /\
                 kustomization_error cause) \/
  (exists cause, e = fmt_Errorf "error running kustomize" cause) \/
  conversion_error r e.
Proof.
  intros E. destruct (parse_run_sound r overlay s) as [Hp _]. rewrite E in Hp.
  remember (Err e) as res eqn:Hres.
  destruct Hp as [e' El|fs0 evs e' El Hf|fs0 evs1 fs1 evs2 e' El Hf Hk
                 |fs0 evs1 fs1 evs2 fs2 El Hf Hk dir]; simplify_eq.
  - left. destruct (LoadFS_Err _ _ El) as (stage & -> & Hstage). eauto.
  - right; left. apply hooks_run_Err in Hf as (j & y & cause & -> & _). eauto.
  - right; right; left. eauto using kust_run_Err.
  - destruct (krusty_Run fs2 dir) as [res|e']; simplify_eq.
    + do 4 right. by eapply parse_resources_error.
    + right; right; right; left. eauto.
Qed.

Lemma parse_error_names_the_stage_witness :
  conversion_error Fake.plain
    (fmt_Errorf "unable to instantiate runtime object" (errors_New "no kind is registered")).
Proof.
  assert (E : returned (parse Fake.plain "mixed" Fake.empty) =
              Err (fmt_Errorf "unable to instantiate runtime object"
                     (errors_New "no kind is registered"))) by by_vm.
  destruct (parse_error_names_the_stage Fake.plain "mixed" Fake.empty _ E)
    as [(? & [=] & _)|[(? & [=])|[(? & [=] & _)|[(? & [=])|Hconv]]]].
  exact Hconv.
Defined.

(** X4. An error of [Apply] names the stage that failed: parsing (with the
    error of [parse]), an object mutator, the patch, the create, or a
    post-apply action; the error under "error patching object" is never a
    "not found". An error of [Delete] names parsing, an object mutator or
    the delete request, and the error under "error deleting object" is
    never a "not found". *)
Theorem Apply_and_Delete_errors_name_the_stage `{Imports} (r : Renderer)
    (overlay : string) (s : State) (e : error) :
  (returned (Apply r overlay s) = Err e ->
     (exists cause, e = fmt_Errorf "error parsing kustomize files" cause /\
                    returned (parse r overlay s) = Err cause) \/
     (exists cause, e = fmt_Errorf "error mutating object" cause) \/
     (exists cause, e = fmt_Errorf "error patching object" cause /\
                    errors_IsNotFound cause = false) \/
     (exists cause, e = fmt_Errorf "error creating object" cause) \/
     (exists cause, e = fmt_Errorf "error running post apply action" cause)) /\
  (returned (Delete r overlay s) = Err e ->
     (exists cause, e = fmt_Errorf "error parsing kustomize files" cause /\
                    returned (parse r overlay s) = Err cause) \/
     (exists cause, e = fmt_Errorf "error mutating object" cause) \/
     (exists cause, e = fmt_Errorf "error deleting object" cause /\
                    errors_IsNotFound cause = false)).
Proof.
  split; intros E.
  - destruct (returned (parse r overlay s)) as [objs|e'] eqn:Ep.
    + pose proof (Apply_run r overlay s objs Ep) as Hloop. cbv zeta in Hloop.
      rewrite (Apply_parse_Ok _ _ _ _ Ep) in E. cbn [returned] in E. rewrite E in Hloop.
      apply range_run_Err in Hloop as (obj & evs & _ & Ht).
      remember (Err e) as res eqn:Hres.
      destruct Ht as [evs e' Hm|evs1 obj1 evs2 e' Hm Hs|evs1 obj1 evs2 obj2 evs3 res' Hm Hs Hp];
        simplify_eq.
      * apply hooks_run_Err in Hm as (j & y & cause & -> & _). eauto 7.
      * apply submit_run_Err in Hs as [(cause & -> & Hnf)|(cause & ->)]; eauto 8.
      * destruct res' as [?|e']; simplify_eq.
        apply hooks_run_Err in Hp as (j & y & cause & -> & _). eauto 8.
    + rewrite (Apply_parse_Err _ _ _ _ Ep) in E. injection E as <-. eauto.
  - destruct (returned (parse r overlay s)) as [objs|e'] eqn:Ep.
    + pose proof (range_sound (Delete_object r) (delete_run r) (Delete_object_run r) objs
                    (final (parse r overlay s))) as Hloop.
      rewrite (Delete_parse_Ok _ _ _ _ Ep) in E. cbn [returned] in E. rewrite E in Hloop.
      apply range_run_Err in Hloop as (obj & evs & _ & Ht).
      remember (Err e) as res eqn:Hres.
      destruct Ht as [evs e' Hm|evs obj1 Hm|evs obj1 e' Hm Hnf|evs obj1 e' Hm Hnf];
        simplify_eq.
      * apply hooks_run_Err in Hm as (j & y & cause & -> & _). eauto 7.
      * eauto 7.
    + rewrite (Delete_parse_Err _ _ _ _ Ep) in E. injection E as <-. eauto.
Qed.

Lemma Apply_and_Delete_errors_name_the_stage_witness :
  exists cause,
    fmt_Errorf "error patching object" (errors_New "forbidden") =
      fmt_Errorf "error patching object" cause /\
    Fake.IsNotFound cause = false.
Proof.
  assert (E : returned (Apply Fake.plain "denied" Fake.empty) =
              Err (fmt_Errorf "error patching object" (errors_New "forbidden"))) by by_vm.
  destruct (proj1 (Apply_and_Delete_errors_name_the_stage Fake.plain "denied" Fake.empty _) E)
    as [(? & [=] & _)|[(? & [=])|[Hpatch|[(? & [=])|(? & [=])]]]].
  exact Hpatch.
Defined.

(** X5. In unstructured mode the conversion of the resources asks nothing of
    the renderer, in particular not the scheme of its client: it returns
    objects exactly when every resource gives its YAML and that YAML decodes,
    and these are the decoded objects in the order of the resources; a kind
    no scheme knows is no obstacle. *)
Theorem unstructured_needs_no_scheme `{Imports} (r : Renderer)
    (resources : list Resource) (objs : list Object) :
  unstructured r = true ->
  (parse_resources r resources [] = Ok objs <->
   Forall2 (fun rsc obj => exists data, rsc_AsYAML rsc = Ok data /\
                                        Decode_Unstructured data = Ok obj)
     resources objs) /\
  (forall r', unstructured r' = true ->
     parse_resources r' resources [] = parse_resources r resources []).
Proof.
  intros Hu.
  assert (Hconv : forall (r0 : Renderer) rsc obj, unstructured r0 = true ->
            parse_resource r0 rsc = Ok obj <->
            exists data, rsc_AsYAML rsc = Ok data /\ Decode_Unstructured data = Ok obj).
  { intros r0 rsc obj Hr0. unfold parse_resource, unstructuredObject. rewrite Hr0.
    destruct (rsc_AsYAML rsc) as [data|e]; simpl.
    - destruct (Decode_Unstructured data) as [o|e] eqn:Ed; simpl; split.
      + intros [= <-]. eauto.
      + intros (data' & [= <-] & Hd). congruence.
      + discriminate.
      + intros (data' & [= <-] & Hd). congruence.
    - split; [discriminate|]. by intros (? & ? & _). }
  split.
  - split.
    + intros Hok. destruct (parse_resources_Ok _ _ _ _ Hok) as (converted & -> & Hall).
      simpl. eapply Forall2_impl; [exact Hall|]. intros rsc obj. by apply Hconv.
    + intros Hall. rewrite (parse_resources_all r resources [] objs); [done|].
      eapply Forall2_impl; [exact Hall|]. intros rsc obj. by apply Hconv.
  - intros r' Hu'. generalize (@nil Object).
    induction resources as [|rsc rest IH]; intros acc; [done|].
    rewrite !parse_resources_cons.
    assert (Hsame : parse_resource r' rsc = parse_resource r rsc)
      by (unfold parse_resource, unstructuredObject; by rewrite Hu, Hu').
    rewrite Hsame. destruct (parse_resource r rsc); [apply IH|done].
Qed.

Lemma unstructured_needs_no_scheme_witness :
  parse_resources Fake.untyped Fake.mixed [] = Ok ["a"; "?"; "c"] /\
  unresolvable Fake.untyped (Fake.resource_of "?"%char).
Proof.
  split.
  - apply (unstructured_needs_no_scheme Fake.untyped Fake.mixed ["a"; "?"; "c"] eq_refl).
    repeat constructor; by eexists.
  - left. by eexists.
Defined.

(** X6. For a renderer built from options of the package: ownership is
    forced exactly when WithForceOwnership is among the options, and the
    mode is unstructured exactly when WithUnstructured is, wherever they
    stand (no option turns either off again); the field owner is the one of
    the last WithFieldOwner. *)
Theorem flags_stick_and_last_owner_wins `{Imports} (c : client_Client) (emb : embed_FS)
    (opts : list Option) :
  Forall package_option opts ->
  (forceOwner (NewRenderer c emb opts) = true <-> In WithForceOwnership opts) /\
  (unstructured (NewRenderer c emb opts) = true <-> In WithUnstructured opts) /\
  (forall pre owner post,
     opts = pre ++ WithFieldOwner owner :: post ->
     Forall (fun opt : Option => forall r, fieldOwner (opt r) = fieldOwner r) post ->
     fieldOwner (NewRenderer c emb opts) = owner).
Proof.
  intros Hopts. unfold NewRenderer. split_and!.
  - rewrite options_forceOwner by done. simpl. split; [by intros [?|?]|by right].
  - rewrite options_unstructured by done. simpl. split; [by intros [?|?]|by right].
  - intros pre owner post -> Hpost.
    rewrite fold_left_app. cbn [fold_left].
    etrans; [apply (NewRenderer_fieldOwner post _ Hpost)|reflexivity].
Qed.

Lemma flags_stick_and_last_owner_wins_witness :
  forceOwner (NewRenderer Fake.client Fake.resources
                [WithFieldOwner "first"; WithForceOwnership; WithFieldOwner "second";
                 WithUnstructured]) = true /\
  fieldOwner (NewRenderer Fake.client Fake.resources
                [WithFieldOwner "first"; WithForceOwnership; WithFieldOwner "second";
                 WithUnstructured]) = "second".
Proof.
  destruct (flags_stick_and_last_owner_wins Fake.client Fake.resources
              [WithFieldOwner "first"; WithForceOwnership; WithFieldOwner "second";
               WithUnstructured]) as (Hforce & _ & Howner).
  - repeat constructor.
  - split.
    + apply Hforce. right. left. reflexivity.
    + apply (Howner [WithFieldOwner "first"; WithForceOwnership] "second" [WithUnstructured]).
      * reflexivity.
      * repeat constructor.
Defined.

(** X7. The hooks of a renderer built from options of the package are, for
    each kind, the hooks its options register, in the order of these options,
    however options of other kinds stand between them. *)
Theorem hooks_in_registration_order `{Imports} (c : client_Client) (emb : embed_FS)
    (opts : list Option) fs ks os ps :
  registers opts fs ks os ps ->
  fsmutators (NewRenderer c emb opts) = fs /\
  kmutators (NewRenderer c emb opts) = ks /\
  omutators (NewRenderer c emb opts) = os /\
  postApply (NewRenderer c emb opts) = ps.
Proof.
  intros Hreg. unfold NewRenderer.
  apply (options_register opts fs ks os ps
           {| cli := c; from := emb; fieldOwner := "plumber"; forceOwner := false;
              unstructured := false; kmutators := []; omutators := [];
              postApply := []; fsmutators := [] |} Hreg).
Qed.

Lemma hooks_in_registration_order_witness :
  omutators Fake.busy = [Fake.stamp "first" ""; Fake.stamp "second" ""] /\
  fsmutators Fake.busy = [Fake.add_overlay].
Proof.
  destruct (hooks_in_registration_order Fake.client Fake.resources
              [WithObjectMutator (Fake.stamp "first" ""); WithFSMutator Fake.add_overlay;
               WithObjectMutator (Fake.stamp "second" "");
               WithKustomizeMutator (Fake.add_resource "b");
               WithPostApplyAction (Fake.stamp "action" "")]
              [Fake.add_overlay] [Fake.add_resource "b"]
              [Fake.stamp "first" ""; Fake.stamp "second" ""] [Fake.stamp "action" ""])
    as (Hfs & _ & Hos & _).
  - repeat constructor.
  - exact (conj Hos Hfs).
Defined.

(** X8. An overlay of which the composition returns no resource: [Apply] and
    [Delete] return nil, call no per-object hook and nothing on the cluster;
    their events are those of [parse]. *)
Theorem nothing_composed_nothing_called `{Imports} (r : Renderer) (overlay : string)
    (s : State) (fs : FileSystem) :
  In (CallKustomizer fs (path_Join "kustomize" overlay) None) (events (parse r overlay s)) ->
  krusty_Run fs (path_Join "kustomize" overlay) = Ok [] ->
  Apply r overlay s = mkOutcome (Ok tt) (final (parse r overlay s))
                        (events (parse r overlay s)) /\
  Delete r overlay s = mkOutcome (Ok tt) (final (parse r overlay s))
                         (events (parse r overlay s)) /\
  quiet (events (parse r overlay s)) /\
  cluster (final (parse r overlay s)) = cluster s.
Proof.
  intros Hin Hrun. destruct (parse_run_sound r overlay s) as [Hp Hc].
  destruct (parse_run_composed _ _ _ _ _ _ _ Hp Hin) as (_ & _ & Hres & _).
  rewrite Hrun in Hres. simpl in Hres.
  rewrite (Apply_parse_Ok _ _ _ _ Hres), (Delete_parse_Ok _ _ _ _ Hres). simpl.
  rewrite app_nil_r. split_and!; try done. by eapply parse_run_quiet.
Qed.

Lemma nothing_composed_nothing_called_witness :
  Apply Fake.idle "none" Fake.empty =
    mkOutcome (Ok tt) (final (parse Fake.idle "none" Fake.empty))
      (events (parse Fake.idle "none" Fake.empty)).
Proof.
  apply (nothing_composed_nothing_called Fake.idle "none" Fake.empty Fake.bare_tree).
  - apply last_Some_In. change (path_Join "kustomize" "none") with "kustomize/none". by_vm.
  - by_vm.
Defined.

(** X9. [Apply] patches each object at most once and never more objects
    than [parse] returned; it creates no more often than it patches; when it
    returns nil it has patched every object exactly once; it never sends a
    delete request. *)
Theorem Apply_patches_each_object_once `{Imports} (r : Renderer) (overlay : string)
    (s : State) (objs : list Object) :
  returned (parse r overlay s) = Ok objs ->
  let evs := events (Apply r overlay s) in
  length (List.filter is_patch evs) <= length objs /\
  length (List.filter is_create evs) <= length (List.filter is_patch evs) /\
  (returned (Apply r overlay s) = Ok tt -> length (List.filter is_patch evs) = length objs) /\
  List.filter is_delete evs = [].
Proof.
  intros E. cbv zeta. destruct (parse_quiet r overlay s) as [Hq _].
  pose proof (Apply_run r overlay s objs E) as Hloop. cbv zeta in Hloop.
  apply range_run_counts in Hloop. cbv zeta in Hloop.
  rewrite (Apply_parse_Ok _ _ _ _ E). cbn [events returned].
  by rewrite !List.filter_app, (quiet_filter_patch _ Hq), (quiet_filter_create _ Hq),
    (quiet_filter_delete _ Hq).
Qed.

Lemma Apply_patches_each_object_once_witness :
  length (List.filter is_patch (events (Apply Fake.stamped "three" Fake.empty))) = 3.
Proof.
  assert (E : returned (parse Fake.stamped "three" Fake.empty) = Ok ["a"; "b"; "c"])
    by by_vm.
  destruct (Apply_patches_each_object_once Fake.stamped "three" Fake.empty _ E)
    as (_ & _ & Hok & _).
  apply Hok. by_vm.
Defined.

(** X10. In a run of [Delete], as in a run of [Apply], the hook call
    numbered i of a kind is the call of the hook registered at position i
    of that kind: it returns what that hook returns on the value it is
    handed in the memory the calls before it left, and the calls of the
    run, read in order, take the caller's memory from what it was to what
    it is after; the requests to the cluster leave that memory alone, and
    no post-apply action is among the calls. *)
Theorem Delete_calls_the_registered_hooks `{Imports} (r : Renderer) (overlay : string)
    (s : State) :
  let o := Delete r overlay s in
  explained r (memory s) (events o) (memory (final o)) /\
  Forall (fun ev => is_post_apply ev = false) (events o).
Proof.
  cbv zeta. split; [apply keeps_log_Delete|].
  destruct (parse_run_sound r overlay s) as [Hp _].
  destruct (returned (parse r overlay s)) as [objs|e] eqn:E.
  - rewrite (Delete_parse_Ok _ _ _ _ E). simpl. apply Forall_app. split.
    + eapply Forall_impl; [by eapply parse_run_no_post_apply|]. by intros ev [? _].
    + eapply Forall_impl; [eapply deletions_no_post_apply; by apply Delete_run|].
      by intros ev [? _].
  - rewrite (Delete_parse_Err _ _ _ _ E). simpl.
    eapply Forall_impl; [by eapply parse_run_no_post_apply|]. by intros ev [? _].
Qed.
